(** * Identity reconciliation: the contact graph and [identifyContact]

    A shallow embedding of the identity service:
    - [src/dto/internal-namespace.ts]  the data model,
    - [src/models/contact.ts]          the four queries of the contact model,
    - [src/services/identity-service.ts] the reconciliation algorithm.

    The [contacts] table is a list of rows; the service is written in a small
    state-and-failure monad whose state is the table together with the list
    of calls made to the contact model.  A failure leaves the state as it
    is at that point: nothing is rolled back.

    The statements the model sends are run as the migration
    [001_create_contacts_table.sql] has the table: an [INSERT] or [UPDATE]
    that breaks a column width, the primary key or the reference of
    [linked_id] is refused by the engine, and the model throws the error
    again.  A string stands for a text the engine can hold, one character
    after the other; ids are [INTEGER] values.

    [ORDER BY created_at] says nothing about rows of equal [created_at]; the
    model returns them in the order of the list, which stands for whatever
    order the engine picks.  An [UPDATE] rewrites a row where it stands in
    the list: the order the engine picks among rows of equal [created_at] is
    taken to be the same before and after. *)

From Stdlib Require Import ZArith List Ascii String Bool Lia Relations Permutation.
Import ListNotations.
Open Scope Z_scope.

(* ------------------------------------------------------------------------- *)
(** ** Data model ([InternalNamespace]) *)

Inductive LinkPrecedence : Type :=
| PRIMARY
| SECONDARY.

Definition LinkPrecedence_eqb (a b : LinkPrecedence) : bool :=
  match a, b with
  | PRIMARY, PRIMARY | SECONDARY, SECONDARY => true
  | _, _ => false
  end.

(** A row of [contacts] as [mapRowToContact] returns it.  A column that is
    NULL is [None]; timestamps are numbers ([Date.getTime]). *)
Record Contact : Type := mkContact {
  id : Z;
  phoneNumber : option string;
  email : option string;
  linkedId : option Z;
  linkPrecedence : LinkPrecedence;
  createdAt : Z;
  updatedAt : Z;
  deletedAt : option Z
}.

(** [IdentifyRequestBody]: a field that is [undefined] is [None]. *)
Record IdentifyRequestBody : Type := mkRequest {
  reqEmail : option string;
  reqPhoneNumber : option string
}.

(** The [contact] object of [IdentifyResponseBody]. *)
Record IdentifyResponseBody : Type := mkResponse {
  primaryContactId : Z;
  emails : list string;
  phoneNumbers : list string;
  secondaryContactIds : list Z
}.

(** What [create] receives: a contact without [id], [createdAt], [updatedAt]. *)
Record ContactData : Type := mkData {
  dPhoneNumber : option string;
  dEmail : option string;
  dLinkedId : option Z;
  dLinkPrecedence : LinkPrecedence
}.

(* ------------------------------------------------------------------------- *)
(** ** JavaScript values *)

(** Truthiness of a [string | null | undefined]: the empty string is falsy. *)
Definition truthy (v : option string) : bool :=
  match v with
  | Some s => negb (String.eqb s EmptyString)
  | None => false
  end.

(** [contact.field === request.field]: the left side is a string or [null],
    the right side a string or [undefined]; [null === undefined] is false.
    The same test is SQL's [column = $n] for a string parameter. *)
Definition strictEq (field value : option string) : bool :=
  match field, value with
  | Some a, Some b => String.eqb a b
  | _, _ => false
  end.

Definition isPrimary (c : Contact) : bool :=
  LinkPrecedence_eqb (linkPrecedence c) PRIMARY.

Definition isSecondary (c : Contact) : bool :=
  LinkPrecedence_eqb (linkPrecedence c) SECONDARY.

(* ------------------------------------------------------------------------- *)
(** ** The table and its queries *)

(** The [contacts] table: its rows, in the order the engine holds them, and
    the next value of the [id] sequence ([SERIAL]). *)
Record Store : Type := mkStore {
  rows : list Contact;
  nextId : Z
}.

Definition emptyStore : Store := mkStore [] 1.

Definition notDeleted (c : Contact) : bool :=
  match deletedAt c with
  | None => true
  | Some _ => false
  end.

(** [ORDER BY created_at ASC], and [Array.prototype.sort] with the comparator
    [a.createdAt - b.createdAt]: a stable sort on [createdAt] alone.  Rows of
    equal [createdAt] keep the order they had. *)
Fixpoint insertByCreatedAt (c : Contact) (l : list Contact) : list Contact :=
  match l with
  | [] => [c]
  | d :: l' =>
      if createdAt c <=? createdAt d then c :: d :: l'
      else d :: insertByCreatedAt c l'
  end.

Definition orderByCreatedAt (l : list Contact) : list Contact :=
  fold_right insertByCreatedAt [] l.

(** The [conditions] array of [findByEmailOrPhone]. *)
Definition conditions (email' phoneNumber' : option string)
  : list (Contact -> bool) :=
  (if truthy email' then [fun c => strictEq (email c) email'] else [])
  ++ (if truthy phoneNumber' then [fun c => strictEq (phoneNumber c) phoneNumber']
      else []).

Definition selectByEmailOrPhone (t : list Contact)
  (email' phoneNumber' : option string) : list Contact :=
  match conditions email' phoneNumber' with
  | [] => []
  | conds =>
      orderByCreatedAt
        (filter (fun c => notDeleted c && existsb (fun cond => cond c) conds) t)
  end.

(** [WHERE deleted_at IS NULL AND (id = $1 OR linked_id = $1)]; with a NULL
    parameter neither comparison holds of any row. *)
Definition linkedTo (primaryId : Z) (c : Contact) : bool :=
  (id c =? primaryId)
  || match linkedId c with
     | Some l => l =? primaryId
     | None => false
     end.

Definition selectLinked (t : list Contact) (primaryId : option Z)
  : list Contact :=
  match primaryId with
  | None => []
  | Some p => orderByCreatedAt (filter (fun c => notDeleted c && linkedTo p c) t)
  end.

(** [VARCHAR(n)] on assignment: a value of at most [n] characters is stored
    as it is; a longer one is refused, unless every character after the
    [n]th is a space, and then its first [n] characters are stored.  NULL is
    stored as NULL. *)
Fixpoint firstChars (n : nat) (v : string) : string :=
  match n, v with
  | S n', String a v' => String a (firstChars n' v')
  | _, _ => EmptyString
  end.

Fixpoint charsAfter (n : nat) (v : string) : string :=
  match n, v with
  | S n', String _ v' => charsAfter n' v'
  | _, _ => v
  end.

Fixpoint onlySpaces (v : string) : bool :=
  match v with
  | EmptyString => true
  | String a v' => Ascii.eqb a " "%char && onlySpaces v'
  end.

Definition varchar (n : nat) (v : option string) : option (option string) :=
  match v with
  | None => Some None
  | Some x =>
      if onlySpaces (charsAfter n x) then Some (Some (firstChars n x)) else None
  end.

(** [phone_number VARCHAR(20)], [email VARCHAR(255)]: the data as the table
    stores it, if it does. *)
Definition storedData (d : ContactData) : option ContactData :=
  match varchar 20 (dPhoneNumber d), varchar 255 (dEmail d) with
  | Some phoneNumber', Some email' =>
      Some (mkData phoneNumber' email' (dLinkedId d) (dLinkPrecedence d))
  | _, _ => None
  end.

(** [id SERIAL PRIMARY KEY]: the next value of the sequence is not yet the id
    of a row. *)
Definition keyFree (s : Store) : bool :=
  negb (existsb (fun c => id c =? nextId s) (rows s)).

(** [linked_id INTEGER REFERENCES contacts(id)]: NULL, or the id of a row of
    the table, soft-deleted or not. *)
Definition references (t : list Contact) (linkedId' : option Z) : bool :=
  match linkedId' with
  | None => true
  | Some j => existsb (fun c => id c =? j) t
  end.

(** [INSERT ... RETURNING]: the row gets the next sequence value and the
    current time [now] ([CURRENT_TIMESTAMP], one reading for the statements
    of a call). *)
Definition insertedRow (s : Store) (d : ContactData) (now : Z) : Contact :=
  mkContact (nextId s) (dPhoneNumber d) (dEmail d) (dLinkedId d)
            (dLinkPrecedence d) now now None.

Definition insertRow (s : Store) (d : ContactData) (now : Z) : Store :=
  mkStore (rows s ++ [insertedRow s d now]) (nextId s + 1).

(** The statement as the engine runs it.  A value too long for its column
    is refused while the parameters are bound, before the sequence is read.
    The key and the reference are checked on the row with its id drawn; the
    reference is checked at the end of the statement, with the new row in
    the table.  A refused statement leaves the rows as they are, and an id
    drawn for it is not given back. *)
Definition insertInto (s : Store) (d : ContactData) (now : Z)
  : Store * option Contact :=
  match storedData d with
  | None => (s, None)
  | Some d' =>
      let c := insertedRow s d' now in
      if keyFree s && references (rows s ++ [c]) (dLinkedId d)
      then (insertRow s d' now, Some c)
      else (mkStore (rows s) (nextId s + 1), None)
  end.

(** [UPDATE contacts SET linked_id = $1, link_precedence = 'secondary',
    updated_at = CURRENT_TIMESTAMP WHERE id = $2 AND deleted_at IS NULL]. *)
Definition demoted (linkedId' now : Z) (c : Contact) : Contact :=
  mkContact (id c) (phoneNumber c) (email c) (Some linkedId') SECONDARY
            (createdAt c) now (deletedAt c).

Definition updateTarget (id' : Z) (c : Contact) : bool :=
  (id c =? id') && notDeleted c.

Definition updateRow (id' linkedId' now : Z) (c : Contact) : Contact :=
  if updateTarget id' c then demoted linkedId' now c else c.

(** The rows after the [UPDATE]: every row keeps its place in the list. *)
Definition updateRows (t : list Contact) (id' linkedId' now : Z)
  : list Contact :=
  map (updateRow id' linkedId' now) t.

(* ------------------------------------------------------------------------- *)
(** ** The monad of the service *)

Inductive Failure : Type :=
| ValidationError   (* Either email or phoneNumber must be provided *)
| NotFoundError     (* Contact not found or already deleted *)
| DatabaseError     (* an error of the engine, thrown again by the model *)
| TypeError.        (* a property read on undefined *)

Inductive Outcome (A : Type) : Type :=
| Ok (a : A)
| Thrown (e : Failure).
Arguments Ok {A} a.
Arguments Thrown {A} e.

(** The calls a run makes on the contact model, oldest first. *)
Inductive StoreCall : Type :=
| FindByEmailOrPhone (email' phoneNumber' : option string)
| FindLinkedContacts (primaryId : option Z)
| Create (d : ContactData)
| UpdateLinkPrecedence (id' linkedId' : Z).

Record World : Type := mkWorld {
  store : Store;
  calls : list StoreCall
}.

Definition M (A : Type) : Type := World -> World * Outcome A.

Definition ret {A} (a : A) : M A := fun w => (w, Ok a).

Definition throw {A} (e : Failure) : M A := fun w => (w, Thrown e).

Definition bind {A B} (m : M A) (k : A -> M B) : M B :=
  fun w =>
    match m w with
    | (w', Ok a) => k a w'
    | (w', Thrown e) => (w', Thrown e)
    end.

Declare Scope service_scope.
Delimit Scope service_scope with service.
Notation "'await' x <- m ;; k" := (bind m (fun x => k))
  (at level 10, x name, m at level 100, k at level 200) : service_scope.
Notation "'perform' m ;; k" := (bind m (fun _ => k))
  (at level 10, m at level 100, k at level 200) : service_scope.
Open Scope service_scope.

Definition called (c : StoreCall) (w : World) : World :=
  mkWorld (store w) (calls w ++ [c]).

(** [for (const x of l) await f(x)] *)
Fixpoint forEach {A} (l : list A) (f : A -> M unit) : M unit :=
  match l with
  | [] => ret tt
  | x :: l' => perform f x ;; forEach l' f
  end.

(* ------------------------------------------------------------------------- *)
(** ** [models/contact.ts] *)

Module ContactModel.

Definition findByEmailOrPhone (email' phoneNumber' : option string)
  : M (list Contact) :=
  fun w =>
    (called (FindByEmailOrPhone email' phoneNumber') w,
     Ok (selectByEmailOrPhone (rows (store w)) email' phoneNumber')).

Definition findLinkedContacts (primaryId : option Z) : M (list Contact) :=
  fun w =>
    (called (FindLinkedContacts primaryId) w,
     Ok (selectLinked (rows (store w)) primaryId)).

(** [create]: the error of the [INSERT] is logged and thrown again. *)
Definition create (d : ContactData) (now : Z) : M Contact :=
  fun w =>
    match insertInto (store w) d now with
    | (s', Some c) => (mkWorld s' (calls w ++ [Create d]), Ok c)
    | (s', None) => (mkWorld s' (calls w ++ [Create d]), Thrown DatabaseError)
    end.

(** [updateLinkPrecedence]: an [UPDATE] that finds no row changes nothing and
    returns no row, which the model turns into its own error; one that finds
    a row and would leave it with a [linked_id] naming no row is refused by
    the engine. *)
Definition updateLinkPrecedence (id' linkedId' now : Z) : M Contact :=
  fun w =>
    let w' := called (UpdateLinkPrecedence id' linkedId') w in
    match filter (updateTarget id') (rows (store w)) with
    | [] => (w', Thrown NotFoundError)
    | c :: _ =>
        if references (rows (store w)) (Some linkedId')
        then (mkWorld (mkStore (updateRows (rows (store w)) id' linkedId' now)
                               (nextId (store w)))
                      (calls w'),
              Ok (demoted linkedId' now c))
        else (w', Thrown DatabaseError)
    end.

End ContactModel.

(* ------------------------------------------------------------------------- *)
(** ** [services/identity-service.ts] *)

Module IdentityService.

Import ContactModel.

(** [Set.prototype.add]: a [Set<string>] as the list of its elements in
    insertion order. *)
Definition setAdd (s : list string) (v : string) : list string :=
  if existsb (String.eqb v) s then s else s ++ [v].

(** [if (field) set.add(field)] *)
Definition addIfTruthy (s : list string) (field : option string)
  : list string :=
  match field with
  | Some v => if truthy field then setAdd s v else s
  | None => s
  end.

Fixpoint indexOf (l : list string) (v : string) : option nat :=
  match l with
  | [] => None
  | x :: l' =>
      if String.eqb x v then Some O
      else option_map S (indexOf l' v)
  end.

Fixpoint setNth (l : list string) (i : nat) (v : string) : list string :=
  match l, i with
  | [], _ => []
  | _ :: l', O => v :: l'
  | x :: l', S i' => x :: setNth l' i' v
  end.

(** [[arr[0], arr[i]] = [arr[i], arr[0]]] *)
Definition swapFirst (arr : list string) (i : nat) : list string :=
  match nth_error arr 0, nth_error arr i with
  | Some x0, Some xi => setNth (setNth arr 0 xi) i x0
  | _, _ => arr
  end.

(** [if (primary.field && arr[0] !== primary.field) { swap }].  When
    [indexOf] finds nothing the array is left as it is; [ensureFirst_id]
    below shows the branch is never taken on the arrays [buildResponse]
    builds. *)
Definition ensureFirst (field : option string) (arr : list string)
  : list string :=
  match field with
  | Some v =>
      if truthy field
         && negb match arr with
                 | x0 :: _ => String.eqb x0 v
                 | [] => false
                 end
      then match indexOf arr v with
           | Some i => swapFirst arr i
           | None => arr
           end
      else arr
  | None => arr
  end.

Definition collect (field : Contact -> option string)
  (primary : Contact) (secondaries : list Contact) : list string :=
  fold_left (fun s c => addIfTruthy s (field c)) secondaries
            (addIfTruthy [] (field primary)).

Definition buildResponse (primaryContactId' : Z) : M IdentifyResponseBody :=
  await linkedContacts <- findLinkedContacts (Some primaryContactId') ;;
  let secondaries := filter isSecondary linkedContacts in
  match find isPrimary linkedContacts with
  | None => throw TypeError
  | Some primary =>
      let emailArray := collect email primary secondaries in
      let phoneArray := collect phoneNumber primary secondaries in
      ret (mkResponse (id primary)
                      (ensureFirst (email primary) emailArray)
                      (ensureFirst (phoneNumber primary) phoneArray)
                      (map id secondaries))
  end.

Definition createNewPrimaryContact (request : IdentifyRequestBody) (now : Z)
  : M IdentifyResponseBody :=
  await newContact <- create (mkData (reqPhoneNumber request) (reqEmail request)
                               None PRIMARY) now ;;
  ret (mkResponse (id newContact)
                  (match email newContact with
                   | Some e => if truthy (email newContact) then [e] else []
                   | None => []
                   end)
                  (match phoneNumber newContact with
                   | Some p => if truthy (phoneNumber newContact) then [p] else []
                   | None => []
                   end)
                  []).

Definition isRequestCoveredByContacts (contacts : list Contact)
  (request : IdentifyRequestBody) : bool :=
  if truthy (reqEmail request) && truthy (reqPhoneNumber request) then
    let emailExists :=
      existsb (fun c => strictEq (email c) (reqEmail request)) contacts in
    let phoneExists :=
      existsb (fun c => strictEq (phoneNumber c) (reqPhoneNumber request))
              contacts in
    emailExists && phoneExists
  else if truthy (reqEmail request) && negb (truthy (reqPhoneNumber request)) then
    existsb (fun c => strictEq (email c) (reqEmail request)) contacts
  else if truthy (reqPhoneNumber request) && negb (truthy (reqEmail request)) then
    existsb (fun c => strictEq (phoneNumber c) (reqPhoneNumber request)) contacts
  else false.

Definition needsNewSecondaryContact (existingContacts : list Contact)
  (request : IdentifyRequestBody) : bool :=
  let exactMatch :=
    existsb (fun contact =>
               strictEq (email contact) (reqEmail request)
               && strictEq (phoneNumber contact) (reqPhoneNumber request))
            existingContacts in
  if exactMatch then false
  else
    let emailExists :=
      if truthy (reqEmail request)
      then existsb (fun c => strictEq (email c) (reqEmail request))
                   existingContacts
      else true in
    let phoneExists :=
      if truthy (reqPhoneNumber request)
      then existsb (fun c => strictEq (phoneNumber c) (reqPhoneNumber request))
                   existingContacts
      else true in
    if truthy (reqEmail request) && truthy (reqPhoneNumber request) then
      negb exactMatch
    else if truthy (reqEmail request) && negb (truthy (reqPhoneNumber request))
    then negb emailExists
    else if truthy (reqPhoneNumber request) && negb (truthy (reqEmail request))
    then negb phoneExists
    else false.

Definition secondaryFor (request : IdentifyRequestBody) (primaryId : Z)
  : ContactData :=
  mkData (reqPhoneNumber request) (reqEmail request) (Some primaryId) SECONDARY.

Definition mergePrimaryContacts (primaryContacts : list Contact)
  (request : IdentifyRequestBody) (now : Z) : M IdentifyResponseBody :=
  match orderByCreatedAt primaryContacts with
  | [] => throw TypeError
  | remainingPrimary :: contactsToMerge =>
      perform
        forEach contactsToMerge
                (fun contact =>
                   perform updateLinkPrecedence (id contact)
                                                (id remainingPrimary) now ;;
                   ret tt) ;;
      perform
        (if negb (isRequestCoveredByContacts
                    (remainingPrimary :: contactsToMerge) request)
         then perform create (secondaryFor request (id remainingPrimary)) now ;;
              ret tt
         else ret tt) ;;
      buildResponse (id remainingPrimary)
  end.

(** [primaryContacts[0] || (await findLinkedContacts(existingContacts[0].linkedId!))[0]] *)
Definition resolvePrimary (primaryContacts existingContacts : list Contact)
  : M (option Contact) :=
  match primaryContacts with
  | p :: _ => ret (Some p)
  | [] =>
      match existingContacts with
      | e0 :: _ =>
          await linked <- findLinkedContacts (linkedId e0) ;;
          ret (hd_error linked)
      | [] => throw TypeError
      end
  end.

Definition identifyContact (request : IdentifyRequestBody) (now : Z)
  : M IdentifyResponseBody :=
  if negb (truthy (reqEmail request)) && negb (truthy (reqPhoneNumber request))
  then throw ValidationError
  else
    await existingContacts <-
      findByEmailOrPhone (reqEmail request) (reqPhoneNumber request) ;;
    if (List.length existingContacts =? 0)%nat then
      createNewPrimaryContact request now
    else
      let primaryContacts := filter isPrimary existingContacts in
      if (1 <? List.length primaryContacts)%nat then
        mergePrimaryContacts primaryContacts request now
      else
        await resolved <- resolvePrimary primaryContacts existingContacts ;;
        match resolved with
        | None => throw TypeError
        | Some primaryContact =>
            await allLinkedContacts <-
              findLinkedContacts (Some (id primaryContact)) ;;
            perform
              (if needsNewSecondaryContact allLinkedContacts request
               then perform create (secondaryFor request (id primaryContact)) now ;;
                    ret tt
               else ret tt) ;;
            buildResponse (id primaryContact)
        end.

End IdentityService.

(** One call of the service on a table, from an empty call log. *)
Definition identify (s : Store) (request : IdentifyRequestBody) (now : Z)
  : World * Outcome IdentifyResponseBody :=
  IdentityService.identifyContact request now (mkWorld s []).

Definition storeAfter (s : Store) (request : IdentifyRequestBody) (now : Z)
  : Store := store (fst (identify s request now)).

Definition callsOf (s : Store) (request : IdentifyRequestBody) (now : Z)
  : list StoreCall := calls (fst (identify s request now)).

Definition resultOf (s : Store) (request : IdentifyRequestBody) (now : Z)
  : Outcome IdentifyResponseBody := snd (identify s request now).

(** A sequence of calls, each at its own time. *)
Fixpoint identifyAll (s : Store) (l : list (IdentifyRequestBody * Z)) : Store :=
  match l with
  | [] => s
  | (r, now) :: l' => identifyAll (storeAfter s r now) l'
  end.

(* ------------------------------------------------------------------------- *)
(** ** Vocabulary of the statements *)

(** The request passes the guard at the head of [identifyContact]. *)
Definition validRequest (r : IdentifyRequestBody) : bool :=
  truthy (reqEmail r) || truthy (reqPhoneNumber r).

(** What [findByEmailOrPhone] returns for the request, and the PRIMARY rows
    among it. *)
Definition matched (s : Store) (r : IdentifyRequestBody) : list Contact :=
  selectByEmailOrPhone (rows s) (reqEmail r) (reqPhoneNumber r).

Definition matchedPrimaries (s : Store) (r : IdentifyRequestBody)
  : list Contact :=
  filter isPrimary (matched s r).

(** The contact the direct branch links to and answers for. *)
Definition anchorOf (s : Store) (r : IdentifyRequestBody) : option Contact :=
  match matchedPrimaries s r with
  | p :: _ => Some p
  | [] =>
      match matched s r with
      | e0 :: _ => hd_error (selectLinked (rows s) (linkedId e0))
      | [] => None
      end
  end.

(** The rows after the demotion loop of [mergePrimaryContacts]. *)
Definition demoteAll (t others : list Contact) (primaryId now : Z)
  : list Contact :=
  fold_left (fun t' o => updateRows t' (id o) primaryId now) others t.

(** The [UpdateLinkPrecedence] calls of a log, in order. *)
Definition demotions (l : list StoreCall) : list StoreCall :=
  filter (fun c => match c with UpdateLinkPrecedence _ _ => true | _ => false end) l.

(** Ascending [createdAt], as a recursive predicate and position by
    position. *)
Fixpoint ascending (l : list Contact) : Prop :=
  match l with
  | [] => True
  | c :: l' => (forall d, In d l' -> createdAt c <= createdAt d) /\ ascending l'
  end.

Definition ascendingCreatedAt (l : list Contact) : Prop :=
  forall i j a b, (i < j)%nat -> nth_error l i = Some a ->
                  nth_error l j = Some b -> createdAt a <= createdAt b.

(** What [buildResponse] answers on a table. *)
Definition responseFor (t : list Contact) (primaryId : Z)
  : Outcome IdentifyResponseBody :=
  snd (IdentityService.buildResponse primaryId (mkWorld (mkStore t 0) [])).

(** Whether the table takes the row, and the table after the statement. *)
Definition accepted (s : Store) (d : ContactData) : bool :=
  match snd (insertInto s d 0) with
  | Some _ => true
  | None => false
  end.

Definition afterInsert (s : Store) (d : ContactData) (now : Z) : Store :=
  fst (insertInto s d now).

(** The view [createNewPrimaryContact] builds from the row it made. *)
Definition viewOfNew (c : Contact) : IdentifyResponseBody :=
  mkResponse (id c)
             (match email c with
              | Some e => if truthy (email c) then [e] else []
              | None => []
              end)
             (match phoneNumber c with
              | Some p => if truthy (phoneNumber c) then [p] else []
              | None => []
              end)
             [].

(** The table after the demotion loop of a merge. *)
Definition demotedStore (s : Store) (now : Z) (survivor : Contact)
  (others : list Contact) : Store :=
  mkStore (demoteAll (rows s) others (id survivor) now) (nextId s).

(** The table after the merge branch and after the direct branch, and
    whether the [INSERT] of the branch was sent and refused. *)
Definition mergedStore (s : Store) (r : IdentifyRequestBody) (now : Z)
  (survivor : Contact) (others : list Contact) : Store :=
  let s1 := demotedStore s now survivor others in
  if IdentityService.isRequestCoveredByContacts (survivor :: others) r then s1
  else afterInsert s1 (IdentityService.secondaryFor r (id survivor)) now.

Definition mergeRefused (s : Store) (r : IdentifyRequestBody) (now : Z)
  (survivor : Contact) (others : list Contact) : bool :=
  negb (IdentityService.isRequestCoveredByContacts (survivor :: others) r)
  && negb (accepted (demotedStore s now survivor others)
                    (IdentityService.secondaryFor r (id survivor))).

Definition linkedStore (s : Store) (r : IdentifyRequestBody) (now : Z)
  (anchor : Contact) : Store :=
  if IdentityService.needsNewSecondaryContact
       (selectLinked (rows s) (Some (id anchor))) r
  then afterInsert s (IdentityService.secondaryFor r (id anchor)) now
  else s.

Definition linkRefused (s : Store) (r : IdentifyRequestBody) (anchor : Contact)
  : bool :=
  IdentityService.needsNewSecondaryContact
    (selectLinked (rows s) (Some (id anchor))) r
  && negb (accepted s (IdentityService.secondaryFor r (id anchor))).

(** Five calls on the empty table: two customers, a second order of the
    second customer, then an order that joins the two customers.  Contact 2
    is demoted and contact 3 still points at it. *)
Definition orphaningCalls : list (IdentifyRequestBody * Z) :=
  [(mkRequest (Some "a@x") (Some "1"), 10);
   (mkRequest (Some "b@x") (Some "2"), 20);
   (mkRequest (Some "b@x") (Some "3"), 30);
   (mkRequest (Some "a@x") (Some "2"), 40)]%string.

Definition orphanedStore : Store := identifyAll emptyStore orphaningCalls.

Definition orphanRequest : IdentifyRequestBody :=
  mkRequest None (Some "3"%string).

(** A PRIMARY and its SECONDARY inserted at the same instant, the SECONDARY
    returned first by the engine. *)
Definition tiedClusterStore : Store :=
  mkStore
    [mkContact 2 (Some "7") None (Some 1) SECONDARY 10 10 None;
     mkContact 1 None (Some "p@x") None PRIMARY 10 10 None]%string
    3.

Definition tiedClusterRequest : IdentifyRequestBody :=
  mkRequest None (Some "7"%string).

(** Coverage of a request by the matched primaries, field by field, as the
    code tests it: each field of the request that is a non-empty string is
    the value of that field on some primary. *)
Definition coveredPerField (primaries : list Contact) (r : IdentifyRequestBody)
  : Prop :=
  (truthy (reqEmail r) = true ->
   exists p, In p primaries /\ email p = reqEmail r)
  /\ (truthy (reqPhoneNumber r) = true ->
      exists p, In p primaries /\ phoneNumber p = reqPhoneNumber r).

(** Whether the direct branch has to record the request, as the code tests
    it: with both fields non-empty strings, no member carries the pair; with
    one of them a non-empty string, no member carries that field. *)
Definition secondaryRequired (cluster : list Contact) (r : IdentifyRequestBody)
  : Prop :=
  if truthy (reqEmail r) && truthy (reqPhoneNumber r) then
    ~ exists m, In m cluster /\ email m = reqEmail r
                /\ phoneNumber m = reqPhoneNumber r
  else if truthy (reqEmail r) then
    ~ exists m, In m cluster /\ email m = reqEmail r
  else
    ~ exists m, In m cluster /\ phoneNumber m = reqPhoneNumber r.

(** The SECONDARY row a call inserts for its request. *)
Definition newSecondary (s : Store) (r : IdentifyRequestBody) (primaryId now : Z)
  : Contact :=
  mkContact (nextId s) (reqPhoneNumber r) (reqEmail r) (Some primaryId)
            SECONDARY now now None.

(** The same row with the values as the table stores them, if it does. *)
Definition storedSecondary (s : Store) (r : IdentifyRequestBody)
  (primaryId now : Z) : option Contact :=
  option_map (fun d => insertedRow s d now)
             (storedData (IdentityService.secondaryFor r primaryId)).

(** The values of the data are such as the columns hold, cut or not; the
    values of the request are within the widths of the columns. *)
Definition storable (d : ContactData) : bool :=
  match storedData d with
  | Some _ => true
  | None => false
  end.

Definition within (n : nat) (v : option string) : Prop :=
  forall x, v = Some x -> (String.length x <= n)%nat.

Definition fitsColumns (r : IdentifyRequestBody) : Prop :=
  within 20 (reqPhoneNumber r) /\ within 255 (reqEmail r).

(** The two tests as the specification words them, a field being supplied
    when the request has it, whatever its value. *)
Definition suppliedCovered (primaries : list Contact) (r : IdentifyRequestBody)
  : Prop :=
  (forall e, reqEmail r = Some e ->
             exists p, In p primaries /\ email p = Some e)
  /\ (forall n, reqPhoneNumber r = Some n ->
                exists p, In p primaries /\ phoneNumber p = Some n).

Definition suppliedRequired (cluster : list Contact) (r : IdentifyRequestBody)
  : Prop :=
  match reqEmail r, reqPhoneNumber r with
  | Some e, Some n =>
      ~ exists m, In m cluster /\ email m = Some e /\ phoneNumber m = Some n
  | Some e, None => ~ exists m, In m cluster /\ email m = Some e
  | None, Some n => ~ exists m, In m cluster /\ phoneNumber m = Some n
  | None, None => False
  end.

(** The rule of the merge branch and of the direct branch in these words:
    the call asks for a new SECONDARY linked to the survivor, or to the
    anchor, exactly when the request is not covered, or is required. *)
Definition mergeCreatesAsSpecified (s : Store) (r : IdentifyRequestBody)
  (now : Z) : Prop :=
  match matchedPrimaries s r with
  | survivor :: _ :: _ =>
      In (Create (IdentityService.secondaryFor r (id survivor)))
         (callsOf s r now)
      <-> ~ suppliedCovered (matchedPrimaries s r) r
  | _ => True
  end.

Definition directCreatesAsSpecified (s : Store) (r : IdentifyRequestBody)
  (now : Z) : Prop :=
  match matchedPrimaries s r, anchorOf s r with
  | ([] | [_]), Some a =>
      In (Create (IdentityService.secondaryFor r (id a))) (callsOf s r now)
      <-> suppliedRequired (selectLinked (rows s) (Some (id a))) r
  | _, _ => True
  end.

(** Two customers on file with the same phone number, and an order that
    names the phone number with an email that is the empty string. *)
Definition samePhoneStore : Store :=
  mkStore
    [mkContact 1 (Some "1") (Some "a@x") None PRIMARY 10 10 None;
     mkContact 2 (Some "1") (Some "b@x") None PRIMARY 20 20 None]%string
    3.

Definition blankEmailOrder : IdentifyRequestBody :=
  mkRequest (Some EmptyString) (Some "1"%string).

(** Two customers on file with the same email, and two orders under that
    email with a phone number not yet on file, the second of them one
    character too long for its column. *)
Definition sameEmailStore : Store :=
  mkStore
    [mkContact 1 (Some "1") (Some "a@x") None PRIMARY 10 10 None;
     mkContact 2 (Some "2") (Some "a@x") None PRIMARY 20 20 None]%string
    3.

Definition newPhoneOrder : IdentifyRequestBody :=
  (mkRequest (Some "a@x") (Some "3"))%string.

Definition longPhoneOrder : IdentifyRequestBody :=
  (mkRequest (Some "a@x") (Some "123456789012345678901"))%string.

(** The table after a first order of one customer. *)
Definition oneCustomer : Store :=
  identifyAll emptyStore [(mkRequest (Some "a@x") (Some "1"), 10)]%string.

(** Whether the demotion loop over [others] rewrites the row [c]. *)
Definition demotedBy (others : list Contact) (c : Contact) : bool :=
  existsb (fun o => updateTarget (id o) c) others.

(** Ascending ([createdAt], [id]): the order with the id as tie-break. *)
Definition beforeByCreatedAtId (a b : Contact) : bool :=
  (createdAt a <? createdAt b)
  || ((createdAt a =? createdAt b) && (id a <=? id b)).

Fixpoint insertByCreatedAtId (c : Contact) (l : list Contact) : list Contact :=
  match l with
  | [] => [c]
  | d :: l' =>
      if beforeByCreatedAtId c d then c :: d :: l'
      else d :: insertByCreatedAtId c l'
  end.

Definition orderByCreatedAtId (l : list Contact) : list Contact :=
  fold_right insertByCreatedAtId [] l.

(** The merge as it would be with the id as tie-break: the first matched
    primary in ascending ([createdAt], [id]) survives and the others are
    demoted to it in that order. *)
Definition mergeKeepsLowestCreatedAtId (s : Store) (r : IdentifyRequestBody)
  (now : Z) : Prop :=
  match orderByCreatedAtId (matchedPrimaries s r) with
  | survivor :: others =>
      demotions (callsOf s r now)
      = map (fun o => UpdateLinkPrecedence (id o) (id survivor)) others
  | [] => True
  end.

(** Two primaries inserted at the same instant, the one with the higher id
    returned first by the engine. *)
Definition tiedPrimariesStore : Store :=
  mkStore
    [mkContact 2 (Some "1") (Some "a@x") None PRIMARY 100 100 None;
     mkContact 1 (Some "2") (Some "b@x") None PRIMARY 100 100 None]%string
    3.

Definition tiedPrimariesRequest : IdentifyRequestBody :=
  (mkRequest (Some "a@x") (Some "2"))%string.

(** The table after the first three of [orphaningCalls]: primaries 1 and 2,
    and contact 3 linked to 2. *)
Definition twoCustomers : Store :=
  identifyAll emptyStore (firstn 3 orphaningCalls).

Definition joiningRequest : IdentifyRequestBody :=
  (mkRequest (Some "a@x") (Some "2"))%string.

Definition uniqueIds (s : Store) : Prop := NoDup (map id (rows s)).

Definition customer1 : Contact :=
  mkContact 1 (Some "1"%string) (Some "a@x"%string) None PRIMARY 10 10 None.

Definition customer2 : Contact :=
  mkContact 2 (Some "2"%string) (Some "b@x"%string) None PRIMARY 20 20 None.

Definition customer3 : Contact :=
  mkContact 3 (Some "3"%string) (Some "b@x"%string) (Some 2) SECONDARY 30 30 None.

(** The consolidated view as the specification words it, for [cluster]:
    no duplicates; each array holds the values of its field on the members;
    the PRIMARY member's value comes first; the secondaries are listed in
    ascending ([createdAt], [id]). *)
Definition valuesAsSpecified (field : Contact -> option string)
  (cluster : list Contact) (arr : list string) : Prop :=
  NoDup arr
  /\ forall x, In x arr <-> exists m, In m cluster /\ field m = Some x.

Definition primaryFirstAsSpecified (field : Contact -> option string)
  (cluster : list Contact) (arr : list string) : Prop :=
  forall p x, In p cluster -> linkPrecedence p = PRIMARY -> field p = Some x ->
              hd_error arr = Some x.

Definition secondariesAsSpecified (cluster : list Contact) (ids : list Z) : Prop :=
  ids = map id (orderByCreatedAtId (filter isSecondary cluster)).

Definition viewAsSpecified (cluster : list Contact) (v : IdentifyResponseBody)
  : Prop :=
  valuesAsSpecified email cluster (emails v)
  /\ valuesAsSpecified phoneNumber cluster (phoneNumbers v)
  /\ primaryFirstAsSpecified email cluster (emails v)
  /\ primaryFirstAsSpecified phoneNumber cluster (phoneNumbers v)
  /\ secondariesAsSpecified cluster (secondaryContactIds v).

Definition viewMeetsSpec (s : Store) (r : IdentifyRequestBody) (now : Z)
  : Prop :=
  match resultOf s r now with
  | Ok v =>
      viewAsSpecified
        (selectLinked (rows (storeAfter s r now)) (Some (primaryContactId v))) v
  | Thrown _ => True
  end.

(** The view as the code builds it from a PRIMARY row and the SECONDARY rows
    fetched with it: empty strings are left out with the NULLs. *)
Definition valuesOf (field : Contact -> option string)
  (members : list Contact) (arr : list string) : Prop :=
  NoDup arr
  /\ forall x, In x arr <->
                x <> EmptyString /\ exists m, In m members /\ field m = Some x.

Definition viewOf (primary : Contact) (secondaries : list Contact)
  (v : IdentifyResponseBody) : Prop :=
  primaryContactId v = id primary
  /\ secondaryContactIds v = map id secondaries
  /\ valuesOf email (primary :: secondaries) (emails v)
  /\ valuesOf phoneNumber (primary :: secondaries) (phoneNumbers v)
  /\ (truthy (email primary) = true -> hd_error (emails v) = email primary)
  /\ (truthy (phoneNumber primary) = true ->
      hd_error (phoneNumbers v) = phoneNumber primary).

(** Where the members of a view come from: the cluster fetched for some
    root id, or the single row a call without matches has just inserted. *)
Definition membersOf (t : list Contact) (primary : Contact)
  (secondaries : list Contact) : Prop :=
  (exists root,
      find isPrimary (selectLinked t (Some root)) = Some primary
      /\ secondaries = filter isSecondary (selectLinked t (Some root)))
  \/ (secondaries = [] /\ exists t0, t = t0 ++ [primary]).

(** A primary whose email is the empty string, and two secondaries inserted
    at the same instant, the higher id returned first. *)
Definition blankEmailStore : Store :=
  mkStore
    [mkContact 1 (Some "1") (Some "") None PRIMARY 10 10 None;
     mkContact 3 (Some "1") (Some "c@x") (Some 1) SECONDARY 20 20 None;
     mkContact 2 (Some "1") (Some "b@x") (Some 1) SECONDARY 20 20 None]%string
    4.

Definition blankEmailRequest : IdentifyRequestBody :=
  mkRequest None (Some "1"%string).

(** *** The contact graph

    The graph of a table has the ids of its rows as nodes and an edge from a
    row to the row its [linkedId] names.  A cluster is a set of ids
    connected by edges, followed in either direction. *)
Definition linked (t : list Contact) (i j : Z) : Prop :=
  exists c, In c t /\ id c = i /\ linkedId c = Some j /\ In j (map id t).

Definition sameCluster (t : list Contact) : Z -> Z -> Prop :=
  clos_refl_sym_trans Z (linked t).

Definition primaryId (t : list Contact) (p : Z) : Prop :=
  exists c, In c t /\ id c = p /\ linkPrecedence c = PRIMARY.

(** Exactly one PRIMARY in the cluster of every node. *)
Definition onePrimary (ids : Z -> Prop) (link : Z -> Z -> Prop)
  (prim : Z -> Prop) : Prop :=
  forall i, ids i ->
    exists p, prim p /\ clos_refl_sym_trans Z link i p
              /\ forall q, prim q -> clos_refl_sym_trans Z link i q -> q = p.

Definition onePrimaryPerCluster (t : list Contact) : Prop :=
  onePrimary (fun i => In i (map id t)) (linked t) (primaryId t).

(** The constraints of the schema: [id] is a key drawn from the sequence and
    [linked_id] references a row. *)
Record schemaConstraints (s : Store) : Prop := mkSchemaConstraints {
  sc_unique : NoDup (map id (rows s));
  sc_sequence : forall c, In c (rows s) -> id c < nextId s;
  sc_links : forall c j, In c (rows s) -> linkedId c = Some j ->
                         In j (map id (rows s))
}.

(** The rule of the data model the schema does not state: a PRIMARY row has
    no [linkedId]. *)
Definition primaryUnlinked (s : Store) : Prop :=
  forall c, In c (rows s) -> linkPrecedence c = PRIMARY -> linkedId c = None.

Record wellFormed (s : Store) : Prop := mkWellFormed {
  wf_schema : schemaConstraints s;
  wf_primary : primaryUnlinked s
}.

(** A table of the data model: what the engine enforces of every table, the
    primary key and the reference of [linked_id], and the rule that a
    PRIMARY row has no [linkedId]. *)
Record dataModel (s : Store) : Prop := mkDataModel {
  dm_key : NoDup (map id (rows s));
  dm_reference : forall c j, In c (rows s) -> linkedId c = Some j ->
                             In j (map id (rows s));
  dm_primary : primaryUnlinked s
}.



(** The [WHERE] clause of [findByEmailOrPhone] for a request. *)
Definition matchTest (r : IdentifyRequestBody) (c : Contact) : bool :=
  notDeleted c
  && ((truthy (reqEmail r) && strictEq (email c) (reqEmail r))
      || (truthy (reqPhoneNumber r)
          && strictEq (phoneNumber c) (reqPhoneNumber r))).




(** The invariant as a property of one call, without further conditions on
    the table. *)
Definition preservesOnePrimary (s : Store) (r : IdentifyRequestBody) (now : Z)
  : Prop :=
  onePrimaryPerCluster (rows s) ->
  onePrimaryPerCluster (rows (storeAfter s r now)).

(** A table the schema allows in which PRIMARY contact 1 carries a
    [linkedId]: contact 3 hangs on it, contact 2 is a PRIMARY of its own. *)
Definition linkedPrimaryStore : Store :=
  mkStore
    [mkContact 1 None (Some "a@x") (Some 3) PRIMARY 10 10 None;
     mkContact 2 (Some "7") None None PRIMARY 5 5 None;
     mkContact 3 None (Some "y@x") None SECONDARY 1 1 None]%string
    4.

Definition linkedPrimaryRequest : IdentifyRequestBody :=
  (mkRequest (Some "a@x") (Some "7"))%string.

(* ------------------------------------------------------------------------- *)
(** ** [controllers/identity-controller.ts] *)

Module IdentityController.

Inductive ResponseBody : Type :=
| ErrorBody (error : string)
| ResultBody (contact : IdentifyResponseBody).

Record HttpResponse : Type := mkHttpResponse {
  status : Z;
  body : ResponseBody
}.

(** The handler of [POST /identify]: the request body, typed as
    [IdentifyRequestBody], is checked, handed to the service, and whatever
    the service throws is answered with a 500. *)
Definition identify (request : IdentifyRequestBody) (now : Z)
  : World -> World * HttpResponse :=
  fun w =>
    if negb (truthy (reqEmail request)) && negb (truthy (reqPhoneNumber request))
    then (w, mkHttpResponse
               400 (ErrorBody "Either email or phoneNumber must be provided"))
    else
      match IdentityService.identifyContact request now w with
      | (w', Ok result) => (w', mkHttpResponse 200 (ResultBody result))
      | (w', Thrown _) =>
          (w', mkHttpResponse 500 (ErrorBody "Internal server error"))
      end.

End IdentityController.


(* ------------------------------------------------------------------------- *)
(** ** [utils/logger.ts] *)

Module Logger.

Inductive LogLevel : Type :=
| ERROR
| WARN
| INFO
| DEBUG
| VERBOSE.

(** The numeric value of the enum. *)
Definition levelValue (l : LogLevel) : Z :=
  match l with
  | ERROR => 0
  | WARN => 1
  | INFO => 2
  | DEBUG => 3
  | VERBOSE => 4
  end.

(** [config.level] is a number: [disableLevel] can store a value that is
    no member of the enum. *)
Record LoggerConfig : Type := mkLoggerConfig {
  level : Z;
  service : string;
  enableConsole : bool;
  enableFile : bool;
  filePath : option string;
  maxFileSize : Z;
  maxFiles : Z;
  enableColors : bool;
  enableTimestamp : bool;
  enableMetadata : bool
}.

Record Logger : Type := mkLogger {
  isProduction : bool;
  config : LoggerConfig
}.

Definition getDefaultConfig (isProduction' : bool) (serviceName : option string)
  : LoggerConfig :=
  let logLevel := if isProduction' then INFO else DEBUG in
  mkLoggerConfig
    (levelValue logLevel)
    (match serviceName with
     | Some n => if truthy serviceName then n else "identity-service"
     | None => "identity-service"
     end)
    true
    isProduction'
    (if isProduction' then Some "./logs/app.log"%string else None)
    (10 * 1024 * 1024)
    5
    (negb isProduction')
    true
    true.

(** The constructor: [nodeEnv] is [process.env.NODE_ENV], [serviceName] is
    [process.env.SERVICE_NAME]. *)
Definition create (nodeEnv serviceName : option string) : Logger :=
  let isProduction' := strictEq nodeEnv (Some "production"%string) in
  mkLogger isProduction' (getDefaultConfig isProduction' serviceName).

Definition shouldLog (lg : Logger) (l : LogLevel) : bool :=
  levelValue l <=? level (config lg).

Definition withLevel (lg : Logger) (v : Z) : Logger :=
  let c := config lg in
  mkLogger (isProduction lg)
           (mkLoggerConfig v (service c) (enableConsole c) (enableFile c)
                           (filePath c) (maxFileSize c) (maxFiles c)
                           (enableColors c) (enableTimestamp c)
                           (enableMetadata c)).

Definition setLevel (lg : Logger) (l : LogLevel) : Logger :=
  withLevel lg (levelValue l).

Definition enableLevel (lg : Logger) (l : LogLevel) : Logger :=
  if level (config lg) <? levelValue l then withLevel lg (levelValue l) else lg.

Definition disableLevel (lg : Logger) (l : LogLevel) : Logger :=
  if level (config lg) >=? levelValue l
  then withLevel lg (levelValue l - 1)
  else lg.

(** What a call writes, and on which console method. *)
Inductive ConsoleCall : Type :=
| ConsoleError (line : string)
| ConsoleWarn (line : string)
| ConsoleLog (line : string).

Section Log.

(** [formatMessage] reads the clock and serialises the metadata; it is taken
    as given. *)
Variable Metadata : Type.
Variable formatMessage : Logger -> string -> string -> option Metadata -> string.

Definition log (lg : Logger) (l : LogLevel) (levelName message : string)
  (metadata : option Metadata) : list ConsoleCall :=
  if negb (shouldLog lg l) then []
  else
    let formattedMessage := formatMessage lg levelName message metadata in
    if enableConsole (config lg) then
      match l with
      | ERROR => [ConsoleError formattedMessage]
      | WARN => [ConsoleWarn formattedMessage]
      | _ => [ConsoleLog formattedMessage]
      end
    else [].

Definition error (lg : Logger) (message : string) (metadata : option Metadata)
  : list ConsoleCall := log lg ERROR "ERROR" message metadata.

Definition warn (lg : Logger) (message : string) (metadata : option Metadata)
  : list ConsoleCall := log lg WARN "WARN" message metadata.

Definition info (lg : Logger) (message : string) (metadata : option Metadata)
  : list ConsoleCall := log lg INFO "INFO" message metadata.

Definition debug (lg : Logger) (message : string) (metadata : option Metadata)
  : list ConsoleCall := log lg DEBUG "DEBUG" message metadata.

Definition verbose (lg : Logger) (message : string) (metadata : option Metadata)
  : list ConsoleCall := log lg VERBOSE "VERBOSE" message metadata.

End Log.

End Logger.

(* ------------------------------------------------------------------------- *)
(** ** [database/connection.ts] *)

Module DatabaseConnection.

(** The pool of [pg], as far as the class uses it: the number of clients
    handed out by [connect] and not yet given back by [release].  Whether
    [connect] and [client.query] resolve is decided outside the program and
    is an argument of the functions below. *)
Record Pool : Type := mkPool {
  checkedOut : nat
}.

Inductive Attempt (A : Type) : Type :=
| Resolved (a : A)
| Rejected.
Arguments Resolved {A} a.
Arguments Rejected {A}.

Definition connect (accepts : bool) (p : Pool) : Pool * Attempt unit :=
  if accepts then (mkPool (S (checkedOut p)), Resolved tt) else (p, Rejected).

Definition release (p : Pool) : Pool := mkPool (pred (checkedOut p)).

(** [getClient]: the error of [connect] is logged and thrown again. *)
Definition getClient (accepts : bool) (p : Pool) : Pool * Attempt unit :=
  connect accepts p.

Section Query.

Variable QueryResult : Type.

(** [query], with [client] null until [getClient] resolves and the
    [finally] block releasing a client that is not null. *)
Definition query (accepts : bool) (answer : Attempt QueryResult) (p : Pool)
  : Pool * Attempt QueryResult :=
  match getClient accepts p with
  | (p1, Rejected) => (p1, Rejected)
  | (p1, Resolved _) =>
      match answer with
      | Resolved result => (release p1, Resolved result)
      | Rejected => (release p1, Rejected)
      end
  end.

(** [testConnection]: [client.release()] stands after the query, inside the
    [try]. *)
Definition testConnection (accepts : bool) (answer : Attempt QueryResult)
  (p : Pool) : Pool * bool :=
  match getClient accepts p with
  | (p1, Rejected) => (p1, false)
  | (p1, Resolved _) =>
      match answer with
      | Resolved _ => (release p1, true)
      | Rejected => (p1, false)
      end
  end.

Definition isConnected (accepts : bool) (answer : Attempt QueryResult)
  (p : Pool) : Pool * bool :=
  testConnection accepts answer p.

End Query.

Section Singleton.

Variables DatabaseConfig Instance : Type.

(** [new DatabaseConnection(config)] *)
Variable construct : DatabaseConfig -> Instance.

(** [getInstance]: the static field is the state. *)
Definition getInstance (config : option DatabaseConfig)
  (instance : option Instance) : option Instance * Attempt Instance :=
  match instance with
  | Some i => (Some i, Resolved i)
  | None =>
      match config with
      | None => (None, Rejected)
      | Some c => (Some (construct c), Resolved (construct c))
      end
  end.

(** Calls of [getInstance] one after the other, with what each returned. *)
Fixpoint getInstances (configs : list (option DatabaseConfig))
  (instance : option Instance) : option Instance * list (Attempt Instance) :=
  match configs with
  | [] => (instance, [])
  | c :: configs' =>
      let '(instance', r) := getInstance c instance in
      let '(final, rs) := getInstances configs' instance' in
      (final, r :: rs)
  end.

End Singleton.

End DatabaseConnection.

(* ------------------------------------------------------------------------- *)
(** ** Further vocabulary *)

(** A list without its repetitions, each value at its first place. *)
Fixpoint firstSeen (l : list string) : list string :=
  match l with
  | [] => []
  | x :: l' => x :: filter (fun y => negb (String.eqb x y)) (firstSeen l')
  end.

(** The values of a field on a list of contacts that are neither NULL nor
    the empty string, in the order of the contacts. *)
Definition present (field : Contact -> option string) (members : list Contact)
  : list string :=
  flat_map (fun c => match field c with
                     | Some v => if truthy (field c) then [v] else []
                     | None => []
                     end) members.

(** The ids a log of calls hands to [updateLinkPrecedence]. *)
Definition selfLinks (l : list StoreCall) : list StoreCall :=
  filter (fun c => match c with
                   | UpdateLinkPrecedence i j => i =? j
                   | _ => false
                   end) l.

(* ------------------------------------------------------------------------- *)
(** ** Ordering by [createdAt] *)

Lemma insertByCreatedAt_In c x l :
  In x (insertByCreatedAt c l) <-> x = c \/ In x l.
Proof.
  induction l as [|d l IH]; simpl.
  - intuition.
  - destruct (createdAt c <=? createdAt d); simpl; rewrite ?IH; intuition.
Qed.

Lemma orderByCreatedAt_In x l : In x (orderByCreatedAt l) <-> In x l.
Proof.
  induction l as [|c l IH]; simpl; [tauto|].
  rewrite insertByCreatedAt_In, IH. intuition.
Qed.


Lemma insertByCreatedAt_ascending c l :
  ascending l -> ascending (insertByCreatedAt c l).
Proof.
  induction l as [|d l IH]; simpl.
  - intros _. split; [intros ? []|exact I].
  - intros [Hd Hl]. destruct (createdAt c <=? createdAt d) eqn:E; simpl.
    + apply Z.leb_le in E. split.
      * intros x [<-|Hx]; [exact E|]. specialize (Hd x Hx). lia.
      * split; assumption.
    + apply Z.leb_gt in E. split.
      * intros x Hx. apply insertByCreatedAt_In in Hx as [->|Hx]; [lia|auto].
      * auto.
Qed.

Lemma orderByCreatedAt_ascending l : ascending (orderByCreatedAt l).
Proof.
  induction l as [|c l IH]; simpl; [exact I|].
  now apply insertByCreatedAt_ascending.
Qed.

Lemma ascending_sorted_id l : ascending l -> orderByCreatedAt l = l.
Proof.
  induction l as [|c l IH]; simpl; [reflexivity|].
  intros [Hc Hl]. rewrite (IH Hl). destruct l as [|d l]; simpl; [reflexivity|].
  assert (createdAt c <= createdAt d) as H by (apply Hc; now left).
  apply Z.leb_le in H. now rewrite H.
Qed.

Lemma ascending_filter f l : ascending l -> ascending (filter f l).
Proof.
  induction l as [|c l IH]; simpl; [auto|].
  intros [Hc Hl]. destruct (f c); simpl; auto.
  split; auto. intros d Hd. apply filter_In in Hd as [Hd _]. auto.
Qed.

Lemma ascending_nth l : ascending l -> ascendingCreatedAt l.
Proof.
  induction l as [|c l IH]; intros H i j a b Hij Hi Hj.
  - destruct i; discriminate.
  - destruct H as [Hc Hl]. destruct j as [|j]; [lia|]. simpl in Hj.
    destruct i as [|i]; simpl in Hi.
    + injection Hi as <-. apply Hc. eapply nth_error_In; eauto.
    + eapply (IH Hl i j); eauto. lia.
Qed.

Lemma ascending_app_last l n :
  ascending l -> (forall c, In c l -> createdAt c <= createdAt n) ->
  ascending (l ++ [n]).
Proof.
  induction l as [|c l IH]; simpl; intros H Hn.
  - split; [intros ? []|exact I].
  - destruct H as [Hc Hl]. split.
    + intros d Hd. apply in_app_or in Hd as [Hd|[<-|[]]]; auto.
    + apply IH; auto.
Qed.





(* ------------------------------------------------------------------------- *)
(** ** The queries *)

Lemma selectByEmailOrPhone_eq t e p :
  selectByEmailOrPhone t e p
  = if truthy e || truthy p
    then orderByCreatedAt
           (filter (fun c => notDeleted c
                             && ((truthy e && strictEq (email c) e)
                                 || (truthy p && strictEq (phoneNumber c) p))) t)
    else [].
Proof.
  unfold selectByEmailOrPhone, conditions.
  destruct (truthy e), (truthy p); simpl; try reflexivity;
    f_equal; apply filter_ext; intros c;
    destruct (notDeleted c), (strictEq (email c) e),
      (strictEq (phoneNumber c) p); reflexivity.
Qed.

Lemma matched_In s r c :
  In c (matched s r) <->
  In c (rows s) /\ notDeleted c = true
  /\ ((truthy (reqEmail r) = true /\ strictEq (email c) (reqEmail r) = true)
      \/ (truthy (reqPhoneNumber r) = true
          /\ strictEq (phoneNumber c) (reqPhoneNumber r) = true)).
Proof.
  unfold matched. rewrite selectByEmailOrPhone_eq.
  destruct (truthy (reqEmail r)) eqn:E, (truthy (reqPhoneNumber r)) eqn:P;
    simpl; rewrite ?orderByCreatedAt_In, ?filter_In, ?andb_true_iff,
             ?orb_true_iff; intuition congruence.
Qed.

Lemma matched_ascending s r : ascending (matched s r).
Proof.
  unfold matched. rewrite selectByEmailOrPhone_eq.
  destruct (_ || _); [apply orderByCreatedAt_ascending|exact I].
Qed.

Lemma matchedPrimaries_ascending s r : ascending (matchedPrimaries s r).
Proof. apply ascending_filter, matched_ascending. Qed.

Lemma matchedPrimaries_In s r c :
  In c (matchedPrimaries s r) <-> In c (matched s r) /\ isPrimary c = true.
Proof. apply filter_In. Qed.

Lemma selectLinked_In t p c :
  In c (selectLinked t (Some p)) <->
  In c t /\ notDeleted c = true /\ linkedTo p c = true.
Proof.
  simpl. rewrite orderByCreatedAt_In, filter_In, andb_true_iff. tauto.
Qed.

Lemma selectLinked_ascending t p : ascending (selectLinked t p).
Proof.
  destruct p; simpl; [apply orderByCreatedAt_ascending|exact I].
Qed.

Lemma selectLinked_rows t p c : In c (selectLinked t p) -> In c t.
Proof.
  destruct p; [|intros []]. intros H. now apply selectLinked_In in H.
Qed.

Lemma isPrimary_iff c : isPrimary c = true <-> linkPrecedence c = PRIMARY.
Proof. unfold isPrimary. destruct (linkPrecedence c); simpl; intuition congruence. Qed.

Lemma isSecondary_iff c : isSecondary c = true <-> linkPrecedence c = SECONDARY.
Proof. unfold isSecondary. destruct (linkPrecedence c); simpl; intuition congruence. Qed.

(* ------------------------------------------------------------------------- *)
(** ** Demotion *)

Lemma updateRow_id i l n c : id (updateRow i l n c) = id c.
Proof. unfold updateRow. now destruct (updateTarget i c). Qed.

Lemma updateRow_notDeleted i l n c :
  notDeleted (updateRow i l n c) = notDeleted c.
Proof. unfold updateRow. now destruct (updateTarget i c). Qed.

Lemma updateRow_target i l n j c :
  updateTarget j (updateRow i l n c) = updateTarget j c.
Proof. unfold updateTarget. now rewrite updateRow_id, updateRow_notDeleted. Qed.

Lemma updateRows_target t i l n j :
  existsb (updateTarget j) (updateRows t i l n) = existsb (updateTarget j) t.
Proof.
  unfold updateRows. induction t as [|c t IH]; simpl; [reflexivity|].
  now rewrite updateRow_target, IH.
Qed.

Lemma filter_nil_existsb {A} (f : A -> bool) l :
  filter f l = [] <-> existsb f l = false.
Proof.
  induction l as [|x l IH]; simpl; [tauto|].
  destruct (f x); simpl; [split; discriminate|exact IH].
Qed.

Lemma references_iff t j :
  references t (Some j) = true <-> In j (map id t).
Proof.
  simpl. rewrite existsb_exists, in_map_iff. split.
  - intros (c & Hc & E). apply Z.eqb_eq in E. now exists c.
  - intros (c & E & Hc). exists c. split; [assumption|now apply Z.eqb_eq].
Qed.

Lemma updateRows_references t i l n j :
  references (updateRows t i l n) j = references t j.
Proof.
  destruct j as [j|]; [|reflexivity]. simpl. unfold updateRows.
  induction t as [|c t IH]; simpl; [reflexivity|].
  now rewrite updateRow_id, IH.
Qed.

Lemma updateLinkPrecedence_run i l n w :
  existsb (updateTarget i) (rows (store w)) = true ->
  references (rows (store w)) (Some l) = true ->
  exists c,
    ContactModel.updateLinkPrecedence i l n w
    = (mkWorld (mkStore (updateRows (rows (store w)) i l n) (nextId (store w)))
               (calls w ++ [UpdateLinkPrecedence i l]),
       Ok c).
Proof.
  intros H R. unfold ContactModel.updateLinkPrecedence.
  destruct (filter (updateTarget i) (rows (store w))) as [|c m] eqn:F.
  - apply filter_nil_existsb in F. congruence.
  - rewrite R. now exists (demoted l n c).
Qed.


Lemma demoteAll_target t others p n j :
  existsb (updateTarget j) (demoteAll t others p n) = existsb (updateTarget j) t.
Proof.
  unfold demoteAll. revert t. induction others as [|o others IH]; intros t; simpl.
  - reflexivity.
  - now rewrite IH, updateRows_target.
Qed.

Lemma forEach_demote others p n w :
  (forall o, In o others -> existsb (updateTarget (id o)) (rows (store w)) = true) ->
  references (rows (store w)) (Some p) = true ->
  forEach others
          (fun contact =>
             perform ContactModel.updateLinkPrecedence (id contact) p n ;; ret tt) w
  = (mkWorld (mkStore (demoteAll (rows (store w)) others p n) (nextId (store w)))
             (calls w ++ map (fun o => UpdateLinkPrecedence (id o) p) others),
     Ok tt).
Proof.
  revert w. induction others as [|o others IH]; intros w H R; simpl.
  - unfold ret. rewrite app_nil_r. now destruct w as [[t k] l].
  - unfold bind at 1. unfold bind at 1.
    destruct (updateLinkPrecedence_run (id o) p n w) as [c ->];
      [apply H; now left|exact R|].
    unfold ret at 1. rewrite IH.
    + simpl. now rewrite <- app_assoc.
    + intros o' Ho'. simpl. rewrite updateRows_target. apply H. now right.
    + cbn [store rows]. now rewrite updateRows_references.
Qed.

(* ------------------------------------------------------------------------- *)
(** ** The [INSERT] statement *)

Lemma firstChars_fits n : forall v,
  (String.length v <= n)%nat -> firstChars n v = v.
Proof.
  induction n as [|n IH]; intros [|a v]; simpl; intros H;
    try reflexivity; [lia|].
  rewrite IH by lia. reflexivity.
Qed.

Lemma charsAfter_fits n : forall v,
  (String.length v <= n)%nat -> charsAfter n v = EmptyString.
Proof.
  induction n as [|n IH]; intros [|a v]; simpl; intros H;
    try reflexivity; [lia|].
  apply IH. lia.
Qed.

Lemma firstChars_length n : forall v, (String.length (firstChars n v) <= n)%nat.
Proof.
  induction n as [|n IH]; intros [|a v]; simpl; try lia.
  specialize (IH v). lia.
Qed.

Lemma varchar_fits n v :
  (forall x, v = Some x -> (String.length x <= n)%nat) -> varchar n v = Some v.
Proof.
  destruct v as [x|]; [|reflexivity]. intros H. simpl.
  rewrite charsAfter_fits, firstChars_fits by now apply H. reflexivity.
Qed.

Lemma varchar_stored n v v' x :
  varchar n v = Some v' -> v' = Some x ->
  (String.length x <= n)%nat /\ exists y, v = Some y /\ x = firstChars n y.
Proof.
  destruct v as [y|]; simpl.
  - destruct (onlySpaces (charsAfter n y)); [|discriminate].
    intros E1 E2. injection E1 as <-. injection E2 as <-.
    split; [apply firstChars_length|now exists y].
  - intros E1 E2. injection E1 as <-. discriminate.
Qed.

Lemma varchar_None n v : varchar n v = Some None <-> v = None.
Proof.
  destruct v as [y|]; simpl; [|tauto].
  destruct (onlySpaces (charsAfter n y)); split; discriminate.
Qed.

Lemma storedData_shape d d' :
  storedData d = Some d' ->
  varchar 20 (dPhoneNumber d) = Some (dPhoneNumber d')
  /\ varchar 255 (dEmail d) = Some (dEmail d')
  /\ dLinkedId d' = dLinkedId d /\ dLinkPrecedence d' = dLinkPrecedence d.
Proof.
  unfold storedData.
  destruct (varchar 20 (dPhoneNumber d)) as [p|]; [|discriminate].
  destruct (varchar 255 (dEmail d)) as [e|]; [|discriminate].
  intros E. injection E as <-. auto.
Qed.

Lemma keyFree_iff s : keyFree s = true <-> ~ In (nextId s) (map id (rows s)).
Proof.
  unfold keyFree. rewrite negb_true_iff, <- not_true_iff_false.
  rewrite existsb_exists, in_map_iff. split; intros H (c & A & B); apply H.
  - exists c. split; [assumption|now apply Z.eqb_eq].
  - exists c. split; [now apply Z.eqb_eq|assumption].
Qed.

(** The three ways the statement ends. *)
Lemma insertInto_cases s d now :
  (storedData d = None /\ insertInto s d now = (s, None)
   /\ accepted s d = false)
  \/ (exists d',
         storedData d = Some d'
         /\ (keyFree s = false
             \/ references (rows s ++ [insertedRow s d' now]) (dLinkedId d)
                = false)
         /\ insertInto s d now = (mkStore (rows s) (nextId s + 1), None)
         /\ accepted s d = false)
  \/ (exists d',
         storedData d = Some d'
         /\ keyFree s = true
         /\ references (rows s ++ [insertedRow s d' now]) (dLinkedId d) = true
         /\ insertInto s d now
            = (insertRow s d' now, Some (insertedRow s d' now))
         /\ accepted s d = true).
Proof.
  unfold accepted, insertInto.
  destruct (storedData d) as [d'|]; [|left; auto]. right.
  assert (forall n, references (rows s ++ [insertedRow s d' n]) (dLinkedId d)
                    = references (rows s ++ [insertedRow s d' now]) (dLinkedId d))
    as Same.
  { intros n. destruct (dLinkedId d) as [j|]; [|reflexivity]. simpl.
    now rewrite !existsb_app. }
  cbv zeta. rewrite (Same 0).
  destruct (keyFree s) eqn:K; cbn [andb].
  - destruct (references _ (dLinkedId d)) eqn:R; cbn [fst snd].
    + right. exists d'. auto.
    + left. exists d'. auto.
  - left. exists d'. auto.
Qed.

Lemma insertInto_accepted s d now :
  accepted s d = true ->
  exists d',
    storedData d = Some d'
    /\ insertInto s d now = (insertRow s d' now, Some (insertedRow s d' now))
    /\ ~ In (nextId s) (map id (rows s))
    /\ (forall j, dLinkedId d = Some j ->
                  In j (map id (rows s)) \/ j = nextId s).
Proof.
  intros A.
  destruct (insertInto_cases s d now)
    as [(_ & _ & X)|[(d' & _ & _ & _ & X)|(d' & S & K & R & E & _)]];
    [congruence|congruence|].
  exists d'. split; [assumption|]. split; [assumption|].
  split; [now apply keyFree_iff|].
  intros j Ej. rewrite Ej in R. apply references_iff in R.
  rewrite map_app, in_app_iff in R. simpl in R. intuition.
Qed.

Lemma insertInto_refused s d now :
  accepted s d = false ->
  snd (insertInto s d now) = None
  /\ rows (fst (insertInto s d now)) = rows s
  /\ nextId s <= nextId (fst (insertInto s d now)) <= nextId s + 1.
Proof.
  intros A.
  destruct (insertInto_cases s d now)
    as [(_ & E & _)|[(d' & _ & _ & E & _)|(d' & _ & _ & _ & _ & X)]];
    [| |congruence]; rewrite E; cbn [fst snd rows nextId];
    (split; [reflexivity|]); (split; [reflexivity|lia]).
Qed.

Lemma afterInsert_accepted s d now :
  accepted s d = true ->
  exists d', storedData d = Some d' /\ afterInsert s d now = insertRow s d' now.
Proof.
  intros A. destruct (insertInto_accepted s d now A) as (d' & S & E & _).
  exists d'. split; [assumption|]. unfold afterInsert. now rewrite E.
Qed.

Lemma afterInsert_refused s d now :
  accepted s d = false ->
  rows (afterInsert s d now) = rows s
  /\ nextId s <= nextId (afterInsert s d now) <= nextId s + 1.
Proof. intros A. now destruct (insertInto_refused s d now A) as (_ & R & N). Qed.

Lemma accepted_snd s d now :
  accepted s d = true <-> exists c, snd (insertInto s d now) = Some c.
Proof.
  destruct (insertInto_cases s d now)
    as [(_ & E & A)|[(d' & _ & _ & E & A)|(d' & _ & _ & _ & E & A)]];
    rewrite E, A; cbn [snd]; split; try discriminate; eauto.
  - intros (c & X). discriminate.
  - intros (c & X). discriminate.
Qed.

Lemma create_run d now w :
  ContactModel.create d now w
  = (mkWorld (afterInsert (store w) d now) (calls w ++ [Create d]),
     match snd (insertInto (store w) d now) with
     | Some c => Ok c
     | None => Thrown DatabaseError
     end).
Proof.
  unfold ContactModel.create, afterInsert.
  destruct (insertInto (store w) d now) as [s' [c|]]; reflexivity.
Qed.

Lemma create_refused d now w :
  accepted (store w) d = false ->
  ContactModel.create d now w
  = (mkWorld (afterInsert (store w) d now) (calls w ++ [Create d]),
     Thrown DatabaseError).
Proof.
  intros A. rewrite create_run.
  now rewrite (proj1 (insertInto_refused (store w) d now A)).
Qed.

Lemma afterInsert_shape s d now :
  (accepted s d = true
   /\ exists d',
        storedData d = Some d' /\ afterInsert s d now = insertRow s d' now
        /\ dLinkedId d' = dLinkedId d /\ dLinkPrecedence d' = dLinkPrecedence d
        /\ ~ In (nextId s) (map id (rows s))
        /\ (forall j, dLinkedId d = Some j ->
                      In j (map id (rows s)) \/ j = nextId s))
  \/ (accepted s d = false
      /\ rows (afterInsert s d now) = rows s
      /\ nextId s <= nextId (afterInsert s d now) <= nextId s + 1).
Proof.
  destruct (accepted s d) eqn:A.
  - left. split; [reflexivity|].
    destruct (insertInto_accepted s d now A) as (d' & S & E & F & T).
    exists d'. destruct (storedData_shape d d' S) as (_ & _ & L & P).
    unfold afterInsert. rewrite E. auto 10.
  - right. split; [reflexivity|]. now apply afterInsert_refused.
Qed.

Lemma afterInsert_keeps s d now c :
  In c (rows s) -> In c (rows (afterInsert s d now)).
Proof.
  intros H.
  destruct (afterInsert_shape s d now) as [(_ & d' & _ & -> & _)|(_ & -> & _)];
    [|assumption].
  unfold insertRow. cbn [rows]. apply in_or_app. now left.
Qed.

Lemma afterInsert_In s d now c :
  In c (rows (afterInsert s d now)) ->
  In c (rows s)
  \/ (id c = nextId s /\ linkedId c = dLinkedId d
      /\ linkPrecedence c = dLinkPrecedence d /\ deletedAt c = None
      /\ createdAt c = now /\ accepted s d = true).
Proof.
  destruct (afterInsert_shape s d now)
    as [(A & d' & _ & -> & L & P & _)|(_ & -> & _)]; [|now left].
  unfold insertRow. cbn [rows]. intros H.
  apply in_app_or in H as [H|[<-|[]]]; [now left|right].
  cbn. auto 10.
Qed.

Lemma afterInsert_nth s d now i c :
  nth_error (rows s) i = Some c ->
  nth_error (rows (afterInsert s d now)) i = Some c.
Proof.
  intros H.
  destruct (afterInsert_shape s d now) as [(_ & d' & _ & -> & _)|(_ & -> & _)];
    [|assumption].
  unfold insertRow. cbn [rows]. rewrite nth_error_app1; [assumption|].
  apply nth_error_Some. congruence.
Qed.

Lemma create_accepted d now w :
  accepted (store w) d = true ->
  exists c,
    ContactModel.create d now w
    = (mkWorld (afterInsert (store w) d now) (calls w ++ [Create d]), Ok c).
Proof.
  intros A. rewrite create_run.
  apply (accepted_snd _ _ now) in A as (c & ->). now exists c.
Qed.

(* ------------------------------------------------------------------------- *)
(** ** Running the service, branch by branch *)

Lemma buildResponse_run p w :
  IdentityService.buildResponse p w
  = (called (FindLinkedContacts (Some p)) w, responseFor (rows (store w)) p).
Proof.
  unfold responseFor, IdentityService.buildResponse, bind,
    ContactModel.findLinkedContacts. cbn [store rows].
  destruct (find isPrimary (selectLinked (rows (store w)) (Some p)));
    reflexivity.
Qed.

Lemma validRequest_guard r :
  negb (truthy (reqEmail r)) && negb (truthy (reqPhoneNumber r))
  = negb (validRequest r).
Proof. unfold validRequest. now destruct (truthy _), (truthy _). Qed.

Lemma identify_invalid s r now :
  validRequest r = false ->
  identify s r now = (mkWorld s [], Thrown ValidationError).
Proof.
  intros H. unfold identify, IdentityService.identifyContact.
  now rewrite validRequest_guard, H.
Qed.

Lemma identify_no_match s r now :
  validRequest r = true -> matched s r = [] ->
  let d := mkData (reqPhoneNumber r) (reqEmail r) None PRIMARY in
  identify s r now
  = (mkWorld (afterInsert s d now)
             [FindByEmailOrPhone (reqEmail r) (reqPhoneNumber r); Create d],
     match snd (insertInto s d now) with
     | Some c => Ok (viewOfNew c)
     | None => Thrown DatabaseError
     end).
Proof.
  intros V H d. unfold identify, IdentityService.identifyContact.
  rewrite validRequest_guard, V. cbn [negb].
  unfold bind at 1. unfold ContactModel.findByEmailOrPhone. cbn [store rows].
  fold (matched s r). rewrite H. cbn [List.length Nat.eqb].
  unfold IdentityService.createNewPrimaryContact, bind. fold d.
  rewrite create_run. cbn [store calls called app].
  destruct (snd (insertInto s d now)); reflexivity.
Qed.

Lemma matchedPrimaries_target s r o :
  In o (matchedPrimaries s r) -> existsb (updateTarget (id o)) (rows s) = true.
Proof.
  intros H. apply matchedPrimaries_In in H as [H _].
  apply matched_In in H as (Hin & Hd & _).
  apply existsb_exists. exists o. split; [assumption|].
  unfold updateTarget. now rewrite Z.eqb_refl, Hd.
Qed.

Lemma demotions_updates p l :
  demotions (map (fun o => UpdateLinkPrecedence (id o) p) l)
  = map (fun o => UpdateLinkPrecedence (id o) p) l.
Proof. induction l as [|x l IH]; simpl; [reflexivity|now f_equal]. Qed.

Lemma matchedPrimaries_rows s r o :
  In o (matchedPrimaries s r) -> In o (rows s) /\ notDeleted o = true.
Proof.
  intros H. apply matchedPrimaries_In in H as [H _].
  apply matched_In in H as (Hin & Hd & _). now split.
Qed.

Lemma identify_merge s r now survivor other others :
  validRequest r = true ->
  matchedPrimaries s r = survivor :: other :: others ->
  exists log,
    identify s r now
    = (mkWorld (mergedStore s r now survivor (other :: others)) log,
       if mergeRefused s r now survivor (other :: others)
       then Thrown DatabaseError
       else responseFor (rows (mergedStore s r now survivor (other :: others)))
                        (id survivor))
    /\ demotions log
       = map (fun o => UpdateLinkPrecedence (id o) (id survivor)) (other :: others)
    /\ (IdentityService.isRequestCoveredByContacts (survivor :: other :: others) r
        = true -> forall d, ~ In (Create d) log)
    /\ (IdentityService.isRequestCoveredByContacts (survivor :: other :: others) r
        = false -> In (Create (IdentityService.secondaryFor r (id survivor))) log)
    /\ (forall d, In (Create d) log ->
                  d = IdentityService.secondaryFor r (id survivor)).
Proof.
  intros V H. unfold identify, IdentityService.identifyContact.
  rewrite validRequest_guard, V. cbn [negb].
  unfold bind at 1. unfold ContactModel.findByEmailOrPhone. cbn [store rows].
  fold (matched s r).
  assert (matched s r <> []) as Hne.
  { intros E. unfold matchedPrimaries in H. rewrite E in H. discriminate. }
  destruct (matched s r) as [|e0 es] eqn:Em; [congruence|].
  cbn [List.length Nat.eqb]. rewrite <- Em. fold (matchedPrimaries s r).
  rewrite H. cbn [List.length Nat.ltb Nat.leb].
  unfold IdentityService.mergePrimaryContacts.
  rewrite ascending_sorted_id
    by (rewrite <- H; apply matchedPrimaries_ascending).
  unfold bind at 1.
  rewrite forEach_demote.
  2:{ intros o Ho. cbn [store rows called]. apply matchedPrimaries_target with r.
      rewrite H. now right. }
  2:{ cbn [store rows called]. apply references_iff, in_map.
      apply (matchedPrimaries_rows s r). rewrite H. now left. }
  cbn [store rows called calls nextId].
  unfold mergedStore, mergeRefused. fold (demotedStore s now survivor (other :: others)).
  assert (forall d,
             ~ In (Create d)
                  (([] ++ [FindByEmailOrPhone (reqEmail r) (reqPhoneNumber r)])
                     ++ map (fun o => UpdateLinkPrecedence (id o) (id survivor))
                            (other :: others))) as NoC.
  { intros d Hd. rewrite !in_app_iff in Hd. simpl in Hd.
    destruct Hd as [[[]|[Hd|[]]]|[Hd|Hd]]; try discriminate.
    apply in_map_iff in Hd as (? & ? & _). discriminate. }
  destruct (IdentityService.isRequestCoveredByContacts
              (survivor :: other :: others) r) eqn:C; cbn [negb andb].
  - unfold bind at 1. unfold ret at 1. rewrite buildResponse_run.
    cbn [store rows called calls].
    eexists. split; [reflexivity|]. split; [|split; [|split]].
    + unfold demotions. repeat (rewrite filter_app; simpl).
      rewrite !app_nil_r. f_equal. apply demotions_updates.
    + intros _ d Hd. apply in_app_or in Hd as [Hd|[Hd|[]]];
        [now apply (NoC d)|discriminate].
    + discriminate.
    + intros d Hd. apply in_app_or in Hd as [Hd|[Hd|[]]];
        [now apply NoC in Hd|discriminate].
  - set (d := IdentityService.secondaryFor r (id survivor)).
    set (s1 := demotedStore s now survivor (other :: others)).
    destruct (accepted s1 d) eqn:A; cbn [negb].
    + unfold bind at 1. unfold bind at 1.
      destruct (create_accepted d now
                  (mkWorld s1
                     (([] ++ [FindByEmailOrPhone (reqEmail r) (reqPhoneNumber r)])
                        ++ map (fun o => UpdateLinkPrecedence (id o) (id survivor))
                               (other :: others))) A) as (c & ->).
      unfold ret at 1. rewrite buildResponse_run. cbn [store rows called calls].
      eexists. split; [reflexivity|]. split; [|split; [|split]].
      * unfold demotions. repeat (rewrite filter_app; simpl).
        rewrite !app_nil_r. f_equal. apply demotions_updates.
      * discriminate.
      * intros _. repeat (rewrite in_app_iff; simpl). tauto.
      * intros d0 Hd. apply in_app_or in Hd as [Hd|[Hd|[]]]; [|discriminate].
        apply in_app_or in Hd as [Hd|[Hd|[]]]; [now apply NoC in Hd|].
        now injection Hd as <-.
    + unfold bind at 1. unfold bind at 1.
      rewrite (create_refused d now
                 (mkWorld s1
                    (([] ++ [FindByEmailOrPhone (reqEmail r) (reqPhoneNumber r)])
                       ++ map (fun o => UpdateLinkPrecedence (id o) (id survivor))
                              (other :: others))) A).
      cbn [store rows called calls].
      eexists. split; [reflexivity|]. split; [|split; [|split]].
      * unfold demotions. repeat (rewrite filter_app; simpl).
        rewrite !app_nil_r. f_equal. apply demotions_updates.
      * discriminate.
      * intros _. repeat (rewrite in_app_iff; simpl). tauto.
      * intros d0 Hd. apply in_app_or in Hd as [Hd|[Hd|[]]];
          [now apply NoC in Hd|]. now injection Hd as <-.
Qed.

Lemma bind_Ok {A B} (m : M A) (k : A -> M B) w w' a :
  m w = (w', Ok a) -> bind m k w = k a w'.
Proof. intros H. unfold bind. now rewrite H. Qed.

Lemma resolvePrimary_run s r w :
  store w = s -> matched s r <> [] ->
  exists log,
    IdentityService.resolvePrimary (matchedPrimaries s r) (matched s r) w
    = (mkWorld s (calls w ++ log), Ok (anchorOf s r))
    /\ demotions log = [] /\ forall d, ~ In (Create d) log.
Proof.
  intros Hs Hne. unfold IdentityService.resolvePrimary, anchorOf.
  destruct w as [s0 l0]. cbn [store] in Hs. subst s0. cbn [calls].
  destruct (matchedPrimaries s r) as [|p ps].
  - destruct (matched s r) as [|e0 es]; [congruence|].
    exists [FindLinkedContacts (linkedId e0)]. split; [reflexivity|].
    split; [reflexivity|]. intros d [Hd|[]]; discriminate.
  - exists []. rewrite app_nil_r. split; [reflexivity|].
    split; [reflexivity|]. intros d [].
Qed.

Lemma link_run s r now a w :
  store w = s ->
  exists log,
    bind (ContactModel.findLinkedContacts (Some (id a)))
         (fun allLinkedContacts =>
            perform
              (if IdentityService.needsNewSecondaryContact allLinkedContacts r
               then perform ContactModel.create
                      (IdentityService.secondaryFor r (id a)) now ;;
                    ret tt
               else ret tt) ;;
            IdentityService.buildResponse (id a)) w
    = (mkWorld (linkedStore s r now a) (calls w ++ log),
       if linkRefused s r a then Thrown DatabaseError
       else responseFor (rows (linkedStore s r now a)) (id a))
    /\ demotions log = []
    /\ (IdentityService.needsNewSecondaryContact
          (selectLinked (rows s) (Some (id a))) r = true ->
        In (Create (IdentityService.secondaryFor r (id a))) log)
    /\ (IdentityService.needsNewSecondaryContact
          (selectLinked (rows s) (Some (id a))) r = false ->
        forall d, ~ In (Create d) log)
    /\ (forall d, In (Create d) log -> d = IdentityService.secondaryFor r (id a)).
Proof.
  intros Hs. destruct w as [s0 l0]. cbn [store] in Hs. subst s0. cbn [calls].
  unfold bind at 1. unfold ContactModel.findLinkedContacts at 1.
  cbn [store rows called calls]. unfold linkedStore, linkRefused.
  destruct (IdentityService.needsNewSecondaryContact
              (selectLinked (rows s) (Some (id a))) r) eqn:N; cbn [andb].
  - set (d := IdentityService.secondaryFor r (id a)).
    destruct (accepted s d) eqn:A; cbn [negb].
    + unfold bind at 1. unfold bind at 1.
      destruct (create_accepted d now
                  (called (FindLinkedContacts (Some (id a))) (mkWorld s l0)) A)
        as (c & ->).
      unfold ret at 1. rewrite buildResponse_run. cbn [store rows called calls].
      exists [FindLinkedContacts (Some (id a)); Create d;
              FindLinkedContacts (Some (id a))].
      unfold called. cbn [store calls]. rewrite <- ?app_assoc.
      split; [reflexivity|]. split; [reflexivity|].
      split; [simpl; tauto|]. split; [discriminate|].
      intros d0 [Hd|[Hd|[Hd|[]]]]; try discriminate. now injection Hd as <-.
    + unfold bind at 1. unfold bind at 1.
      rewrite (create_refused d now
                 (called (FindLinkedContacts (Some (id a))) (mkWorld s l0)) A).
      cbn [store rows called calls].
      exists [FindLinkedContacts (Some (id a)); Create d].
      unfold called. cbn [store calls]. rewrite <- ?app_assoc.
      split; [reflexivity|]. split; [reflexivity|].
      split; [simpl; tauto|]. split; [discriminate|].
      intros d0 [Hd|[Hd|[]]]; try discriminate. now injection Hd as <-.
  - unfold bind at 1. unfold ret at 1.
    rewrite buildResponse_run. cbn [store rows called calls].
    exists [FindLinkedContacts (Some (id a)); FindLinkedContacts (Some (id a))].
    unfold called. cbn [store calls]. rewrite <- ?app_assoc.
    split; [reflexivity|]. split; [reflexivity|].
    split; [discriminate|].
    split; [intros _ d [Hd|[Hd|[]]]; discriminate|].
    intros d [Hd|[Hd|[]]]; discriminate.
Qed.

Lemma identify_direct_resolved s r now :
  validRequest r = true -> matched s r <> [] ->
  (List.length (matchedPrimaries s r) <= 1)%nat ->
  exists l1,
    demotions l1 = [] /\ (forall d, ~ In (Create d) l1)
    /\ identify s r now
       = match anchorOf s r with
         | Some a =>
             bind (ContactModel.findLinkedContacts (Some (id a)))
                  (fun allLinkedContacts =>
                     perform
                       (if IdentityService.needsNewSecondaryContact
                             allLinkedContacts r
                        then perform ContactModel.create
                               (IdentityService.secondaryFor r (id a)) now ;;
                             ret tt
                        else ret tt) ;;
                     IdentityService.buildResponse (id a))
                  (mkWorld s l1)
         | None => (mkWorld s l1, Thrown TypeError)
         end.
Proof.
  intros V Hne Hlen. unfold identify, IdentityService.identifyContact.
  rewrite validRequest_guard, V. cbn [negb].
  unfold bind at 1. unfold ContactModel.findByEmailOrPhone. cbn [store rows].
  fold (matched s r).
  assert ((List.length (matched s r) =? 0)%nat = false) as ->.
  { destruct (matched s r); [congruence|reflexivity]. }
  fold (matchedPrimaries s r).
  assert ((1 <? List.length (matchedPrimaries s r))%nat = false) as ->
    by (apply Nat.ltb_ge; exact Hlen).
  set (w1 := called _ _).
  destruct (resolvePrimary_run s r w1 eq_refl Hne) as (l1 & R & D1 & C1).
  rewrite (bind_Ok _ _ _ _ _ R). cbn [calls w1 called app].
  exists (FindByEmailOrPhone (reqEmail r) (reqPhoneNumber r) :: l1).
  split; [exact D1|]. split.
  - intros d [Hd|Hd]; [discriminate|now apply (C1 d)].
  - destruct (anchorOf s r); reflexivity.
Qed.

Lemma identify_direct s r now :
  validRequest r = true -> matched s r <> [] ->
  (List.length (matchedPrimaries s r) <= 1)%nat ->
  match anchorOf s r with
  | Some a =>
      exists log,
        identify s r now
        = (mkWorld (linkedStore s r now a) log,
           if linkRefused s r a then Thrown DatabaseError
           else responseFor (rows (linkedStore s r now a)) (id a))
        /\ demotions log = []
        /\ (IdentityService.needsNewSecondaryContact
              (selectLinked (rows s) (Some (id a))) r = true ->
            In (Create (IdentityService.secondaryFor r (id a))) log)
        /\ (IdentityService.needsNewSecondaryContact
              (selectLinked (rows s) (Some (id a))) r = false ->
            forall d, ~ In (Create d) log)
        /\ (forall d, In (Create d) log ->
                      d = IdentityService.secondaryFor r (id a))
  | None =>
      exists log,
        identify s r now = (mkWorld s log, Thrown TypeError)
        /\ demotions log = [] /\ forall d, ~ In (Create d) log
  end.
Proof.
  intros V Hne Hlen.
  destruct (identify_direct_resolved s r now V Hne Hlen) as (l1 & D1 & C1 & E).
  rewrite E. destruct (anchorOf s r) as [a|].
  - destruct (link_run s r now a (mkWorld s l1) eq_refl)
      as (l2 & L & D2 & C2 & C3 & C4).
    rewrite L. eexists. split; [reflexivity|]. cbn [calls].
    split; [|split; [|split]].
    + unfold demotions in *. rewrite !filter_app, D1, D2. reflexivity.
    + intros N. apply in_or_app. right. auto.
    + intros N d Hd. apply in_app_or in Hd as [Hd|Hd];
        [now apply (C1 d)|now apply (C3 N d)].
    + intros d Hd. apply in_app_or in Hd as [Hd|Hd];
        [now apply C1 in Hd|now apply C4].
  - eexists. split; [reflexivity|]. split; assumption.
Qed.

Lemma responseFor_outcome t p e : responseFor t p = Thrown e -> e = TypeError.
Proof.
  unfold responseFor, IdentityService.buildResponse, bind,
    ContactModel.findLinkedContacts. cbn [store rows fst snd].
  destruct (find isPrimary (selectLinked t (Some p))); [discriminate|].
  unfold throw. cbn [snd]. congruence.
Qed.

(** The branch a call takes, with what it leaves and returns. *)
Lemma identify_cases s r now :
  (validRequest r = false /\ storeAfter s r now = s
   /\ resultOf s r now = Thrown ValidationError /\ callsOf s r now = [])
  \/ (validRequest r = true /\ matched s r = []
      /\ storeAfter s r now
         = afterInsert s (mkData (reqPhoneNumber r) (reqEmail r) None PRIMARY) now
      /\ resultOf s r now
         = match snd (insertInto s (mkData (reqPhoneNumber r) (reqEmail r)
                                           None PRIMARY) now) with
           | Some c => Ok (viewOfNew c)
           | None => Thrown DatabaseError
           end
      /\ callsOf s r now
         = [FindByEmailOrPhone (reqEmail r) (reqPhoneNumber r);
            Create (mkData (reqPhoneNumber r) (reqEmail r) None PRIMARY)])
  \/ (validRequest r = true /\ matched s r <> []
      /\ (List.length (matchedPrimaries s r) <= 1)%nat
      /\ anchorOf s r = None /\ storeAfter s r now = s
      /\ resultOf s r now = Thrown TypeError
      /\ demotions (callsOf s r now) = []
      /\ forall d, ~ In (Create d) (callsOf s r now))
  \/ (exists a,
         validRequest r = true /\ matched s r <> []
         /\ (List.length (matchedPrimaries s r) <= 1)%nat
         /\ anchorOf s r = Some a
         /\ storeAfter s r now = linkedStore s r now a
         /\ resultOf s r now
            = (if linkRefused s r a then Thrown DatabaseError
               else responseFor (rows (linkedStore s r now a)) (id a))
         /\ demotions (callsOf s r now) = []
         /\ forall d, In (Create d) (callsOf s r now) ->
                      d = IdentityService.secondaryFor r (id a)
                      /\ IdentityService.needsNewSecondaryContact
                           (selectLinked (rows s) (Some (id a))) r = true)
  \/ (exists survivor other others,
         validRequest r = true
         /\ matchedPrimaries s r = survivor :: other :: others
         /\ storeAfter s r now = mergedStore s r now survivor (other :: others)
         /\ resultOf s r now
            = (if mergeRefused s r now survivor (other :: others)
               then Thrown DatabaseError
               else responseFor
                      (rows (mergedStore s r now survivor (other :: others)))
                      (id survivor))
         /\ demotions (callsOf s r now)
            = map (fun o => UpdateLinkPrecedence (id o) (id survivor))
                  (other :: others)
         /\ forall d, In (Create d) (callsOf s r now) ->
                      d = IdentityService.secondaryFor r (id survivor)
                      /\ IdentityService.isRequestCoveredByContacts
                           (survivor :: other :: others) r = false).
Proof.
  unfold storeAfter, resultOf, callsOf.
  assert (validRequest r = true \/ validRequest r = false) as [V|V]
      by (destruct (validRequest r); auto).
  2:{ left. rewrite identify_invalid by assumption. auto. }
  right.
  assert (matched s r = []
          \/ (matched s r <> [] /\ (List.length (matchedPrimaries s r) <= 1)%nat)
          \/ exists p q ps, matchedPrimaries s r = p :: q :: ps) as Shape.
  { assert (matched s r = [] \/ matched s r <> []) as [Em|Hne]
        by (destruct (matched s r); [now left|right; discriminate]).
    - now left.
    - right. destruct (matchedPrimaries s r) as [|p [|q ps]].
      + left. split; [assumption|simpl; lia].
      + left. split; [assumption|simpl; lia].
      + right. now exists p, q, ps. }
  destruct Shape as [Em|[[Hne Hlen]|(p & q & ps & Ep)]].
  - left. rewrite (identify_no_match s r now V Em). cbn [fst snd store calls].
    auto 10.
  - right. pose proof (identify_direct s r now V Hne Hlen) as D.
    destruct (anchorOf s r) as [a|] eqn:Ha.
    + right. left. destruct D as (log & E & Dm & C1 & C2 & C3). exists a.
      rewrite E. cbn [fst snd store calls].
      repeat (split; [assumption || reflexivity|]).
      intros d Hd. split; [now apply C3|].
      destruct (IdentityService.needsNewSecondaryContact
                  (selectLinked (rows s) (Some (id a))) r) eqn:N;
        [reflexivity|]. now apply (C2 eq_refl) in Hd.
    + left. destruct D as (log & E & Dm & No). rewrite E.
      cbn [fst snd store calls]. auto 10.
  - right. right. right. exists p, q, ps.
    destruct (identify_merge s r now p q ps V Ep) as (log & E & Dm & C1 & C2 & C3).
    rewrite E. cbn [fst snd store calls].
    repeat (split; [assumption || reflexivity|]).
    intros d Hd. split; [now apply C3|].
    destruct (IdentityService.isRequestCoveredByContacts (p :: q :: ps) r) eqn:N;
      [|reflexivity]. now apply (C1 eq_refl) in Hd.
Qed.

(** The rows and the sequence after one call. *)
Lemma linkedStore_shape s r now a :
  linkedStore s r now a = s
  \/ linkedStore s r now a
     = afterInsert s (IdentityService.secondaryFor r (id a)) now.
Proof.
  unfold linkedStore.
  destruct (IdentityService.needsNewSecondaryContact _ r); auto.
Qed.

Lemma mergedStore_shape s r now survivor others :
  mergedStore s r now survivor others = demotedStore s now survivor others
  \/ mergedStore s r now survivor others
     = afterInsert (demotedStore s now survivor others)
                   (IdentityService.secondaryFor r (id survivor)) now.
Proof.
  unfold mergedStore.
  destruct (IdentityService.isRequestCoveredByContacts _ r); auto.
Qed.

(* ------------------------------------------------------------------------- *)
(** ** Validation *)

(** C9.  A request whose email and phoneNumber are both absent (undefined, or
    the empty string, which the guard treats alike) fails with the validation
    error; the log of calls to the contact model is empty and the table is
    the one the call started from: nothing was read, created or modified. *)
Theorem identify_rejects_empty_request s r now :
  truthy (reqEmail r) = false -> truthy (reqPhoneNumber r) = false ->
  identify s r now = (mkWorld s [], Thrown ValidationError).
Proof.
  intros He Hp. apply identify_invalid. unfold validRequest. now rewrite He, Hp.
Qed.

Lemma identify_rejects_empty_request_witness :
  identify orphanedStore (mkRequest None None) 50
  = (mkWorld orphanedStore [], Thrown ValidationError).
Proof.
  apply (identify_rejects_empty_request orphanedStore (mkRequest None None) 50);
    reflexivity.
Defined.

(* ------------------------------------------------------------------------- *)
(** ** A cluster without a PRIMARY *)

Lemma find_None_iff {A} (f : A -> bool) l :
  find f l = None <-> forall x, In x l -> f x = false.
Proof.
  induction l as [|x l IH]; simpl.
  - split; [intros _ ? []|reflexivity].
  - destruct (f x) eqn:F.
    + split; [discriminate|]. intros H. specialize (H x (or_introl eq_refl)).
      congruence.
    + rewrite IH. split.
      * intros H y [<-|Hy]; auto.
      * intros H y Hy. apply H. now right.
Qed.

Lemma responseFor_without_primary t p :
  find isPrimary (selectLinked t (Some p)) = None ->
  responseFor t p = Thrown TypeError.
Proof.
  intros H. unfold responseFor, IdentityService.buildResponse, bind,
    ContactModel.findLinkedContacts. cbn [store rows]. now rewrite H.
Qed.

Lemma responseFor_with_primary t p c :
  find isPrimary (selectLinked t (Some p)) = Some c ->
  exists v, responseFor t p = Ok v /\ primaryContactId v = id c.
Proof.
  intros H. unfold responseFor, IdentityService.buildResponse, bind,
    ContactModel.findLinkedContacts. cbn [store rows]. rewrite H.
  eexists. split; reflexivity.
Qed.

Lemma selectLinked_insert_In s d now p c :
  In c (selectLinked (rows (afterInsert s d now)) (Some p)) ->
  In c (selectLinked (rows s) (Some p))
  \/ linkPrecedence c = dLinkPrecedence d.
Proof.
  rewrite !selectLinked_In. intros (H & Hd & Hl).
  apply afterInsert_In in H as [H|(_ & _ & P & _)]; [left; auto|now right].
Qed.

Lemma linkedStore_without_primary s r now a p :
  find isPrimary (selectLinked (rows s) (Some p)) = None ->
  find isPrimary (selectLinked (rows (linkedStore s r now a)) (Some p)) = None.
Proof.
  intros H. unfold linkedStore.
  destruct (IdentityService.needsNewSecondaryContact _ r); [|exact H].
  apply find_None_iff. intros c Hc.
  apply selectLinked_insert_In in Hc as [Hc|Hc].
  - revert c Hc. now apply find_None_iff.
  - unfold isPrimary. now rewrite Hc.
Qed.

(** C10.  [buildResponse] answers exactly when the set it fetches holds a
    PRIMARY row.  When every row fetched for [primaryContactId'] is SECONDARY,
    the read of [primary.email] throws: [buildResponse] ends in a TypeError,
    and so does every [identify] call of the direct branch whose anchor has
    that id, whether or not it first inserted a SECONDARY row; the one call
    that does not reach [buildResponse] is the call whose [INSERT] the table
    refused, which ends in the error of the engine.  No such call returns a
    view. *)
Theorem identify_throws_without_primary s primaryContactId' :
  (forall c, In c (selectLinked (rows s) (Some primaryContactId')) ->
             linkPrecedence c = SECONDARY) ->
  (forall log,
      snd (IdentityService.buildResponse primaryContactId' (mkWorld s log))
      = Thrown TypeError)
  /\ (forall r now a,
         validRequest r = true -> matched s r <> [] ->
         (List.length (matchedPrimaries s r) <= 1)%nat ->
         anchorOf s r = Some a -> id a = primaryContactId' ->
         resultOf s r now
         = if linkRefused s r a then Thrown DatabaseError
           else Thrown TypeError).
Proof.
  intros H.
  assert (find isPrimary (selectLinked (rows s) (Some primaryContactId')) = None)
    as Hnone.
  { apply find_None_iff. intros c Hc. specialize (H c Hc).
    unfold isPrimary. now rewrite H. }
  split.
  - intros log. rewrite buildResponse_run. cbn [snd store rows].
    now apply responseFor_without_primary.
  - intros r now a V Hne Hlen Ha <-.
    pose proof (identify_direct s r now V Hne Hlen) as D. rewrite Ha in D.
    destruct D as (log & E & _). unfold resultOf. rewrite E. cbn [snd].
    destruct (linkRefused s r a); [reflexivity|].
    apply responseFor_without_primary. now apply linkedStore_without_primary.
Qed.

Lemma buildResponse_total_iff s primaryContactId' log :
  (exists v,
      snd (IdentityService.buildResponse primaryContactId' (mkWorld s log)) = Ok v)
  <-> exists c, In c (selectLinked (rows s) (Some primaryContactId'))
                /\ linkPrecedence c = PRIMARY.
Proof.
  rewrite buildResponse_run. cbn [snd store rows].
  destruct (find isPrimary (selectLinked (rows s) (Some primaryContactId')))
    as [c|] eqn:F.
  - split.
    + intros _. apply find_some in F as [Hin Hp]. exists c.
      split; [assumption|now apply isPrimary_iff].
    + intros _. destruct (responseFor_with_primary _ _ _ F) as (v & E & _).
      now exists v.
  - split.
    + intros [v E]. rewrite responseFor_without_primary in E by assumption.
      discriminate.
    + intros (c & Hin & Hp). apply isPrimary_iff in Hp.
      rewrite (proj1 (find_None_iff _ _) F c Hin) in Hp. discriminate.
Qed.

(** The state is reached by the service itself: after [orphaningCalls], an
    order carrying only the phone number of contact 3 ends in a TypeError. *)
Lemma identify_throws_without_primary_witness :
  (forall c, In c (selectLinked (rows orphanedStore) (Some 2)) ->
             linkPrecedence c = SECONDARY)
  /\ snd (IdentityService.buildResponse 2 (mkWorld orphanedStore []))
     = Thrown TypeError
  /\ resultOf orphanedStore orphanRequest 50 = Thrown TypeError.
Proof.
  assert (forall c, In c (selectLinked (rows orphanedStore) (Some 2)) ->
                    linkPrecedence c = SECONDARY) as H.
  { intros c Hc. vm_compute in Hc. destruct Hc as [<-|[<-|[]]]; reflexivity. }
  split; [exact H|].
  destruct (identify_throws_without_primary orphanedStore 2 H) as [B I].
  split; [apply B|].
  assert (matched orphanedStore orphanRequest <> []) as Hne by discriminate.
  assert (List.length (matchedPrimaries orphanedStore orphanRequest) <= 1)%nat
    as Hlen by (vm_compute; lia).
  exact (I orphanRequest 50 (demoted 1 40 customer2)
           eq_refl Hne Hlen eq_refl eq_refl).
Defined.

(* ------------------------------------------------------------------------- *)
(** ** The anchor of the direct branch *)

(** C6.  The anchor is the head of the fetched set, whatever its
    [linkPrecedence].  After [orphaningCalls] the request [orphanRequest]
    matches contact 3 alone; the set fetched for its [linkedId] is contacts 2
    and 3, both SECONDARY, and the service anchors on contact 2: it fetches
    the cluster of id 2 and answers for id 2, which throws.  On
    [tiedClusterStore] the fetched set does hold the PRIMARY contact 1, yet
    the service anchors on the SECONDARY contact 2. *)
Theorem anchor_taken_from_head_not_primary :
  (matchedPrimaries orphanedStore orphanRequest = []
   /\ (exists a,
          snd (IdentityService.resolvePrimary
                 (matchedPrimaries orphanedStore orphanRequest)
                 (matched orphanedStore orphanRequest)
                 (mkWorld orphanedStore []))
          = Ok (Some a)
          /\ id a = 2 /\ linkPrecedence a = SECONDARY)
   /\ callsOf orphanedStore orphanRequest 50
      = [FindByEmailOrPhone None (Some "3"%string);
         FindLinkedContacts (Some 2);
         FindLinkedContacts (Some 2);
         FindLinkedContacts (Some 2)]
   /\ resultOf orphanedStore orphanRequest 50 = Thrown TypeError)
  /\ (matchedPrimaries tiedClusterStore tiedClusterRequest = []
      /\ (exists m, hd_error (matched tiedClusterStore tiedClusterRequest) = Some m
                    /\ existsb isPrimary
                         (selectLinked (rows tiedClusterStore) (linkedId m))
                       = true)
      /\ (exists a,
             snd (IdentityService.resolvePrimary
                    (matchedPrimaries tiedClusterStore tiedClusterRequest)
                    (matched tiedClusterStore tiedClusterRequest)
                    (mkWorld tiedClusterStore []))
             = Ok (Some a)
             /\ id a = 2 /\ linkPrecedence a = SECONDARY)
      /\ resultOf tiedClusterStore tiedClusterRequest 50 = Thrown TypeError).
Proof.
  split.
  - split; [reflexivity|]. split; [|split; reflexivity].
    eexists. split; [reflexivity|]. split; reflexivity.
  - split; [reflexivity|]. split; [|split; [|reflexivity]].
    + eexists. split; reflexivity.
    + eexists. split; [reflexivity|]. split; reflexivity.
Qed.

(* ------------------------------------------------------------------------- *)
(** ** When a SECONDARY row is inserted *)

Lemma strictEq_truthy field v :
  truthy v = true -> (strictEq field v = true <-> field = v).
Proof.
  destruct v as [b|]; [|discriminate]. intros _.
  destruct field as [a|]; simpl; [|split; discriminate].
  rewrite String.eqb_eq. split; congruence.
Qed.

Lemma strictEq_eq field v : strictEq field v = true -> field = v.
Proof.
  destruct field as [a|], v as [b|]; simpl; try discriminate.
  rewrite String.eqb_eq. congruence.
Qed.

Lemma existsb_strictEq (field : Contact -> option string) v l :
  truthy v = true ->
  (existsb (fun c => strictEq (field c) v) l = true
   <-> exists c, In c l /\ field c = v).
Proof.
  intros T. rewrite existsb_exists. split; intros (c & Hin & H); exists c;
    (split; [assumption|]); now apply (strictEq_truthy _ _ T).
Qed.

Lemma isRequestCoveredByContacts_spec contacts r :
  validRequest r = true ->
  (IdentityService.isRequestCoveredByContacts contacts r = true
   <-> coveredPerField contacts r).
Proof.
  unfold validRequest, IdentityService.isRequestCoveredByContacts,
    coveredPerField.
  destruct (truthy (reqEmail r)) eqn:E, (truthy (reqPhoneNumber r)) eqn:P;
    cbn [andb orb negb]; try discriminate; intros _;
    rewrite ?andb_true_iff, ?existsb_strictEq by assumption;
    intuition discriminate.
Qed.

Lemma needsNewSecondaryContact_spec cluster r :
  validRequest r = true ->
  (IdentityService.needsNewSecondaryContact cluster r = true
   <-> secondaryRequired cluster r).
Proof.
  unfold validRequest, IdentityService.needsNewSecondaryContact,
    secondaryRequired.
  destruct (existsb (fun contact =>
                       strictEq (email contact) (reqEmail r)
                       && strictEq (phoneNumber contact) (reqPhoneNumber r))
                    cluster) eqn:X.
  - apply existsb_exists in X as (m & Hin & Hm).
    apply andb_true_iff in Hm as [He Hp].
    apply strictEq_eq in He, Hp.
    destruct (truthy (reqEmail r)), (truthy (reqPhoneNumber r));
      cbn [andb orb negb]; try discriminate; intros _;
      (split; [discriminate|]); intros H; exfalso; apply H; exists m; tauto.
  - assert (forall m, In m cluster ->
                      ~ (strictEq (email m) (reqEmail r) = true
                         /\ strictEq (phoneNumber m) (reqPhoneNumber r) = true))
      as Hx.
    { intros m Hin [He Hp].
      assert (existsb (fun contact =>
                         strictEq (email contact) (reqEmail r)
                         && strictEq (phoneNumber contact) (reqPhoneNumber r))
                      cluster = true) as Y.
      { apply existsb_exists. exists m. now rewrite He, Hp. }
      congruence. }
    destruct (truthy (reqEmail r)) eqn:E, (truthy (reqPhoneNumber r)) eqn:P;
      cbn [andb orb negb]; try discriminate; intros _.
    + split; [|reflexivity]. intros _ (m & Hin & He & Hp).
      apply (Hx m Hin). split; now apply strictEq_truthy.
    + rewrite negb_true_iff, <- not_true_iff_false.
      now rewrite existsb_strictEq.
    + rewrite negb_true_iff, <- not_true_iff_false.
      now rewrite existsb_strictEq.
Qed.

Lemma app_one_neq {A} (l : list A) x : l ++ [x] <> l.
Proof.
  intros H. apply (f_equal (@List.length A)) in H.
  rewrite length_app in H. simpl in H. lia.
Qed.

Lemma storedData_fits d :
  within 20 (dPhoneNumber d) -> within 255 (dEmail d) -> storedData d = Some d.
Proof.
  intros P E. unfold storedData.
  rewrite (varchar_fits 20 _ P), (varchar_fits 255 _ E). now destruct d.
Qed.

Lemma accepted_iff s d :
  accepted s d = true
  <-> storable d = true /\ keyFree s = true
      /\ forall j, dLinkedId d = Some j ->
                   In j (map id (rows s)) \/ j = nextId s.
Proof.
  unfold storable.
  destruct (insertInto_cases s d 0)
    as [(S & _ & A)|[(d' & S & [K|R] & _ & A)|(d' & S & K & R & _ & A)]];
    rewrite A, S.
  - split; [discriminate|]. intros (X & _). discriminate.
  - split; [discriminate|]. intros (_ & X & _). congruence.
  - split; [discriminate|]. intros (_ & _ & T). exfalso.
    destruct (dLinkedId d) as [j|]; [|discriminate].
    assert (references (rows s ++ [insertedRow s d' 0]) (Some j) = true) as X.
    { apply references_iff. rewrite map_app, in_app_iff. simpl.
      destruct (T j eq_refl) as [In1| ->]; auto. }
    congruence.
  - split; [|reflexivity]. intros _. split; [reflexivity|].
    split; [assumption|]. intros j Ej. rewrite Ej in R.
    apply references_iff in R. rewrite map_app, in_app_iff in R. simpl in R.
    intuition.
Qed.

(** A row linked to a row of the table is refused for its values or for its
    key only. *)
Lemma accepted_linked s d j :
  dLinkedId d = Some j -> In j (map id (rows s)) ->
  accepted s d = storable d && keyFree s.
Proof.
  intros L Hj.
  destruct (accepted s d) eqn:A.
  - apply accepted_iff in A as (S & K & _). now rewrite S, K.
  - symmetry. apply not_true_iff_false. intros X.
    apply andb_true_iff in X as [S K].
    assert (accepted s d = true) as Y.
    { apply accepted_iff. split; [assumption|]. split; [assumption|].
      intros j' E. left. congruence. }
    congruence.
Qed.

Lemma accepted_unlinked s d :
  dLinkedId d = None -> accepted s d = storable d && keyFree s.
Proof.
  intros L.
  destruct (accepted s d) eqn:A.
  - apply accepted_iff in A as (S & K & _). now rewrite S, K.
  - symmetry. apply not_true_iff_false. intros X.
    apply andb_true_iff in X as [S K].
    assert (accepted s d = true) as Y.
    { apply accepted_iff. split; [assumption|]. split; [assumption|].
      intros j' E. congruence. }
    congruence.
Qed.

Lemma keyFree_same s s' :
  map id (rows s') = map id (rows s) -> nextId s' = nextId s ->
  keyFree s' = keyFree s.
Proof.
  intros I N.
  destruct (keyFree s) eqn:K.
  - apply keyFree_iff. rewrite I, N. now apply keyFree_iff.
  - apply not_true_iff_false. intros X. apply keyFree_iff in X.
    rewrite I, N in X. apply keyFree_iff in X. congruence.
Qed.

Lemma demoteAll_ids t others p n : map id (demoteAll t others p n) = map id t.
Proof.
  unfold demoteAll. revert t.
  induction others as [|o os IH]; intros t; simpl; [reflexivity|].
  rewrite IH. unfold updateRows. rewrite map_map. apply map_ext.
  intros c. apply updateRow_id.
Qed.

(** What an [INSERT] of the SECONDARY for the request leaves, on a table [s1]
    that holds the row it links to. *)
Lemma secondary_inserted s1 r now p :
  In p (map id (rows s1)) ->
  let d := IdentityService.secondaryFor r p in
  accepted s1 d = storable d && keyFree s1
  /\ (accepted s1 d = true ->
      exists c, storedSecondary s1 r p now = Some c
                /\ afterInsert s1 d now
                   = mkStore (rows s1 ++ [c]) (nextId s1 + 1))
  /\ (accepted s1 d = false -> rows (afterInsert s1 d now) = rows s1)
  /\ (fitsColumns r ->
      storedSecondary s1 r p now = Some (newSecondary s1 r p now)).
Proof.
  intros Hp d. split; [now apply (accepted_linked s1 d p)|].
  split; [|split].
  - intros A. destruct (afterInsert_accepted s1 d now A) as (d' & S & E).
    exists (insertedRow s1 d' now). unfold storedSecondary. fold d.
    rewrite S, E. split; reflexivity.
  - intros A. now apply afterInsert_refused.
  - intros [P E]. unfold storedSecondary.
    rewrite storedData_fits by assumption. reflexivity.
Qed.

(** C2, as the code has it.  In the merge branch (more than one matched
    PRIMARY) the call asks for one new SECONDARY row, carrying the request's
    email and phone and linked to the survivor, exactly when the request is
    not covered field by field by the matched primaries, a field counting
    when it is a non-empty string.  The table takes the row unless a value
    is too long for its column or the id drawn is taken; the table after the
    call is then the table with the demotions applied followed by that
    row, which holds the request's own values when they are within the
    widths of the columns.  When the request is covered, or the row is
    refused, the table after the call is the table with the demotions
    applied; a refused row ends the call with the error of the engine. *)
Theorem merge_inserts_iff_not_covered s r now survivor other others :
  validRequest r = true ->
  matchedPrimaries s r = survivor :: other :: others ->
  let s1 := demotedStore s now survivor (other :: others) in
  let d := IdentityService.secondaryFor r (id survivor) in
  (In (Create d) (callsOf s r now)
   <-> ~ coveredPerField (matchedPrimaries s r) r)
  /\ (forall d0, In (Create d0) (callsOf s r now) -> d0 = d)
  /\ accepted s1 d = storable d && keyFree s
  /\ (forall c,
         rows (storeAfter s r now) = rows s1 ++ [c]
         <-> ~ coveredPerField (matchedPrimaries s r) r
             /\ accepted s1 d = true
             /\ storedSecondary s1 r (id survivor) now = Some c)
  /\ (rows (storeAfter s r now) = rows s1
      <-> coveredPerField (matchedPrimaries s r) r \/ accepted s1 d = false)
  /\ (~ coveredPerField (matchedPrimaries s r) r -> accepted s1 d = false ->
      resultOf s r now = Thrown DatabaseError)
  /\ (fitsColumns r ->
      storedSecondary s1 r (id survivor) now
      = Some (newSecondary s r (id survivor) now)).
Proof.
  intros V H s1 d.
  destruct (identify_merge s r now survivor other others V H)
    as (log & E & _ & C1 & C2 & C3).
  assert (In (id survivor) (map id (rows s1))) as Hp.
  { unfold s1, demotedStore. cbn [rows]. rewrite demoteAll_ids. apply in_map.
    apply (matchedPrimaries_rows s r). rewrite H. now left. }
  destruct (secondary_inserted s1 r now (id survivor) Hp) as (A1 & A2 & A3 & A4).
  fold d in A1, A2, A3.
  assert (keyFree s1 = keyFree s) as K.
  { apply keyFree_same; [|reflexivity]. unfold s1, demotedStore. cbn [rows].
    apply demoteAll_ids. }
  rewrite K in A1.
  unfold storeAfter, callsOf, resultOf. rewrite E. cbn [fst snd store calls].
  unfold mergedStore, mergeRefused. fold s1. fold d.
  rewrite H. pose proof (isRequestCoveredByContacts_spec
                           (survivor :: other :: others) r V) as Spec.
  destruct (IdentityService.isRequestCoveredByContacts
              (survivor :: other :: others) r) eqn:Cov; cbn [negb andb].
  - assert (coveredPerField (survivor :: other :: others) r) as Yes
        by now apply Spec.
    split; [split; [intros X; now apply C1 in X|tauto]|].
    split; [exact C3|]. split; [exact A1|]. split; [|split; [|split]].
    + intros c. split; [|tauto].
      intros X. symmetry in X. now apply app_one_neq in X.
    + split; auto.
    + tauto.
    + exact A4.
  - assert (~ coveredPerField (survivor :: other :: others) r) as No.
    { intros X. apply Spec in X. discriminate. }
    split; [split; [auto|intros _; now apply C2]|].
    split; [exact C3|]. split; [exact A1|]. split; [|split; [|split]].
    + intros c. destruct (accepted s1 d) eqn:A.
      * destruct (A2 eq_refl) as (c0 & S0 & ->). cbn [rows]. rewrite S0. split.
        -- intros X. apply app_inj_tail in X as [_ ->]. auto.
        -- intros (_ & _ & X). injection X as <-. reflexivity.
      * rewrite (A3 eq_refl). split; [|intros (_ & X & _); discriminate].
        intros X. symmetry in X. now apply app_one_neq in X.
    + destruct (accepted s1 d) eqn:A.
      * destruct (A2 eq_refl) as (c0 & S0 & ->). cbn [rows]. split.
        -- intros X. now apply app_one_neq in X.
        -- intros [X|X]; [contradiction|discriminate].
      * rewrite (A3 eq_refl). split; auto.
    + intros _ ->. reflexivity.
    + exact A4.
Qed.

(** C3, as the code has it.  In the direct branch (at most one matched
    PRIMARY) with anchor [a], the call asks for one new SECONDARY row,
    carrying the request and linked to [a], exactly when the request is not
    yet recorded in the cluster fetched for [a]: no member with both values
    when both are non-empty strings, no member with the email when only the
    email is one, no member with the phone when only the phone is one.  The
    table takes the row unless a value is too long for its column or the id
    drawn is taken, and then it is the last row of the table after the call,
    with the request's own values when they are within the widths of the
    columns.  Otherwise the rows are unchanged; a refused row ends the call
    with the error of the engine. *)
Theorem direct_inserts_iff_required s r now a :
  validRequest r = true -> matched s r <> [] ->
  (List.length (matchedPrimaries s r) <= 1)%nat ->
  anchorOf s r = Some a ->
  let cluster := selectLinked (rows s) (Some (id a)) in
  let d := IdentityService.secondaryFor r (id a) in
  (In (Create d) (callsOf s r now) <-> secondaryRequired cluster r)
  /\ (forall d0, In (Create d0) (callsOf s r now) -> d0 = d)
  /\ accepted s d = storable d && keyFree s
  /\ (forall c,
         rows (storeAfter s r now) = rows s ++ [c]
         <-> secondaryRequired cluster r /\ accepted s d = true
             /\ storedSecondary s r (id a) now = Some c)
  /\ (rows (storeAfter s r now) = rows s
      <-> ~ secondaryRequired cluster r \/ accepted s d = false)
  /\ (secondaryRequired cluster r -> accepted s d = false ->
      resultOf s r now = Thrown DatabaseError)
  /\ (fitsColumns r ->
      storedSecondary s r (id a) now = Some (newSecondary s r (id a) now)).
Proof.
  intros V Hne Hlen Ha cluster d.
  pose proof (identify_direct s r now V Hne Hlen) as D. rewrite Ha in D.
  destruct D as (log & E & _ & C1 & C2 & C3).
  assert (In (id a) (map id (rows s))) as Hp.
  { apply in_map. unfold anchorOf in Ha.
    destruct (matchedPrimaries s r) as [|p ps] eqn:Ep.
    - destruct (matched s r) as [|e0 es]; [discriminate|].
      apply selectLinked_rows with (linkedId e0).
      destruct (selectLinked (rows s) (linkedId e0)); [discriminate|].
      injection Ha as <-. now left.
    - injection Ha as <-. apply (matchedPrimaries_rows s r).
      rewrite Ep. now left. }
  destruct (secondary_inserted s r now (id a) Hp) as (A1 & A2 & A3 & A4).
  fold d in A1, A2, A3.
  unfold storeAfter, callsOf, resultOf. rewrite E. cbn [fst snd store calls].
  unfold linkedStore, linkRefused. fold cluster. fold d.
  pose proof (needsNewSecondaryContact_spec cluster r V) as Spec.
  fold cluster in C1, C2.
  destruct (IdentityService.needsNewSecondaryContact cluster r) eqn:N;
    cbn [negb andb].
  - assert (secondaryRequired cluster r) as Yes by now apply Spec.
    split; [split; [auto|intros _; now apply C1]|].
    split; [exact C3|]. split; [exact A1|]. split; [|split; [|split]].
    + intros c. destruct (accepted s d) eqn:A.
      * destruct (A2 eq_refl) as (c0 & S0 & ->). cbn [rows]. rewrite S0. split.
        -- intros X. apply app_inj_tail in X as [_ ->]. auto.
        -- intros (_ & _ & X). injection X as <-. reflexivity.
      * rewrite (A3 eq_refl). split; [|intros (_ & X & _); discriminate].
        intros X. symmetry in X. now apply app_one_neq in X.
    + destruct (accepted s d) eqn:A.
      * destruct (A2 eq_refl) as (c0 & S0 & ->). cbn [rows]. split.
        -- intros X. now apply app_one_neq in X.
        -- intros [X|X]; [contradiction|discriminate].
      * rewrite (A3 eq_refl). split; auto.
    + intros _ ->. reflexivity.
    + exact A4.
  - assert (~ secondaryRequired cluster r) as No.
    { intros X. apply Spec in X. discriminate. }
    split; [split; [intros X; now apply C2 in X|tauto]|].
    split; [exact C3|]. split; [exact A1|]. split; [|split; [|split]].
    + intros c. split; [|tauto].
      intros X. symmetry in X. now apply app_one_neq in X.
    + split; auto.
    + tauto.
    + exact A4.
Qed.

(* ------------------------------------------------------------------------- *)
(** ** The demotion loop, row by row *)

Lemma orderByCreatedAt_Permutation l : Permutation (orderByCreatedAt l) l.
Proof.
  induction l as [|c l IH]; simpl; [constructor|].
  transitivity (c :: orderByCreatedAt l); [|now constructor].
  generalize (orderByCreatedAt l) as m. clear.
  induction m as [|d m IHm]; simpl; [reflexivity|].
  destruct (createdAt c <=? createdAt d); [reflexivity|].
  rewrite IHm. apply perm_swap.
Qed.

Lemma NoDup_map_filter {A B} (g : A -> B) (f : A -> bool) l :
  NoDup (map g l) -> NoDup (map g (filter f l)).
Proof.
  induction l as [|x l IH]; simpl; [auto|].
  intros H. inversion H as [|? ? Hx Hl]; subst.
  destruct (f x); simpl; [|auto]. constructor; [|auto].
  intros Hin. apply Hx. apply in_map_iff in Hin as (y & E & Hy).
  apply filter_In in Hy as [Hy _]. apply in_map_iff. eauto.
Qed.

Lemma matchedPrimaries_uniqueIds s r :
  uniqueIds s -> NoDup (map id (matchedPrimaries s r)).
Proof.
  intros U. unfold matchedPrimaries. apply NoDup_map_filter.
  unfold matched. rewrite selectByEmailOrPhone_eq.
  destruct (_ || _); [|constructor].
  eapply Permutation_NoDup.
  - apply Permutation_map. symmetry. apply orderByCreatedAt_Permutation.
  - now apply NoDup_map_filter.
Qed.

Lemma demotedBy_updateRow others i p n c :
  demotedBy others (updateRow i p n c) = demotedBy others c.
Proof.
  unfold demotedBy. induction others as [|o os IH]; simpl; [reflexivity|].
  now rewrite updateRow_target, IH.
Qed.

Lemma demoteAll_map t others p n :
  demoteAll t others p n
  = map (fun c => if demotedBy others c then demoted p n c else c) t.
Proof.
  unfold demoteAll. revert t.
  induction others as [|o os IH]; intros t; simpl.
  - symmetry. apply map_id.
  - rewrite IH. unfold updateRows. rewrite map_map. apply map_ext.
    intros c. rewrite demotedBy_updateRow. unfold demotedBy at 2. simpl.
    fold (demotedBy os c). unfold updateRow.
    destruct (updateTarget (id o) c), (demotedBy os c); reflexivity.
Qed.

Lemma demotedBy_true others c :
  demotedBy others c = true ->
  In (id c) (map id others) /\ notDeleted c = true.
Proof.
  unfold demotedBy. rewrite existsb_exists. intros (o & Hin & Ht).
  unfold updateTarget in Ht. apply andb_true_iff in Ht as [Hi Hd].
  apply Z.eqb_eq in Hi. split; [|assumption].
  rewrite Hi. now apply in_map.
Qed.

Lemma demotedBy_member s r others c :
  (forall o, In o others -> In o (matchedPrimaries s r)) ->
  In c others -> demotedBy others c = true.
Proof.
  intros Hsub Hin. unfold demotedBy. apply existsb_exists. exists c.
  split; [assumption|]. unfold updateTarget. rewrite Z.eqb_refl.
  specialize (Hsub c Hin). apply matchedPrimaries_In in Hsub as [Hm _].
  apply matched_In in Hm as (_ & Hd & _). now rewrite Hd.
Qed.

Lemma mergedStore_nth s r now survivor others i c :
  nth_error (rows s) i = Some c ->
  nth_error (rows (mergedStore s r now survivor others)) i
  = Some (if demotedBy others c then demoted (id survivor) now c else c).
Proof.
  intros H.
  assert (nth_error (demoteAll (rows s) others (id survivor) now) i
          = Some (if demotedBy others c then demoted (id survivor) now c else c))
    as D.
  { rewrite demoteAll_map, nth_error_map, H. reflexivity. }
  unfold mergedStore, demotedStore.
  destruct (IdentityService.isRequestCoveredByContacts _ r);
    cbn [rows]; [exact D|].
  now apply afterInsert_nth.
Qed.

(** C8.  In a merge, the row at every position of the table keeps its
    [id], [email], [phoneNumber], [createdAt] and [deletedAt].  A demoted
    contact's row becomes SECONDARY, linked to the survivor, with [updatedAt]
    set to the time of the update.  A row whose id is not that of a demoted
    contact is unchanged; in particular a row linked to a demoted contact
    keeps that [linkedId]: nothing is re-pointed. *)
Theorem demotion_touches_own_row_only s r now survivor other others i c :
  validRequest r = true ->
  matchedPrimaries s r = survivor :: other :: others ->
  nth_error (rows s) i = Some c ->
  exists c',
    nth_error (rows (storeAfter s r now)) i = Some c'
    /\ id c' = id c /\ email c' = email c /\ phoneNumber c' = phoneNumber c
    /\ createdAt c' = createdAt c /\ deletedAt c' = deletedAt c
    /\ (In c (other :: others) ->
        linkPrecedence c' = SECONDARY /\ linkedId c' = Some (id survivor)
        /\ updatedAt c' = now)
    /\ (~ In (id c) (map id (other :: others)) -> c' = c)
    /\ (forall d, In d (other :: others) -> linkedId c = Some (id d) ->
                  ~ In (id c) (map id (other :: others)) ->
                  linkedId c' = Some (id d)
                  /\ exists d', In d' (rows (storeAfter s r now))
                                /\ id d' = id d
                                /\ linkPrecedence d' = SECONDARY).
Proof.
  intros V H Hc.
  destruct (identify_merge s r now survivor other others V H) as (log & E & _).
  unfold storeAfter. rewrite E. cbn [fst store].
  assert (forall o, In o (other :: others) -> In o (matchedPrimaries s r))
    as Hsub by (intros o Ho; rewrite H; now right).
  exists (if demotedBy (other :: others) c
          then demoted (id survivor) now c else c).
  split; [apply mergedStore_nth; exact Hc|].
  destruct (demotedBy (other :: others) c) eqn:D.
  - repeat (split; [reflexivity|]). split; [|split].
    + intros _. repeat split.
    + intros Hn. apply demotedBy_true in D as [D _]. contradiction.
    + intros d _ _ Hn. apply demotedBy_true in D as [D _]. contradiction.
  - repeat (split; [reflexivity|]). split; [|split].
    + intros Hin. rewrite (demotedBy_member s r _ c Hsub Hin) in D.
      discriminate.
    + reflexivity.
    + intros d Hd Hl _. split; [exact Hl|].
      assert (In d (rows s)) as Hdr.
      { apply Hsub, matchedPrimaries_In in Hd as [Hd _].
        now apply matched_In in Hd. }
      apply In_nth_error in Hdr as [j Hj].
      exists (demoted (id survivor) now d). split; [|split; reflexivity].
      apply nth_error_In with j.
      rewrite (mergedStore_nth s r now survivor (other :: others) j d Hj).
      now rewrite (demotedBy_member s r _ d Hsub Hd).
Qed.

(* ------------------------------------------------------------------------- *)
(** ** Which primary survives a merge *)

Lemma ascending_head c l p :
  ascending (c :: l) -> In p (c :: l) -> createdAt c <= createdAt p.
Proof. intros [Hc _] [<-|Hp]; [lia|auto]. Qed.

(** C1, as the code has it.  With more than one matched PRIMARY, the
    survivor is the first matched primary in the order the query returned
    them: its [createdAt] is minimal, and among primaries of equal
    [createdAt] it is the one returned first (there is no tie-break on the
    id).  The other matched primaries are demoted to it one by one in that
    order, which is ascending in [createdAt]; after the call each of their
    rows is SECONDARY with [linkedId] the survivor's id, and, ids being
    unique, the survivor's row is untouched. *)
Theorem merge_keeps_first_returned s r now survivor other others :
  validRequest r = true ->
  matchedPrimaries s r = survivor :: other :: others ->
  (forall p, In p (matchedPrimaries s r) -> createdAt survivor <= createdAt p)
  /\ ascendingCreatedAt (other :: others)
  /\ demotions (callsOf s r now)
     = map (fun o => UpdateLinkPrecedence (id o) (id survivor)) (other :: others)
  /\ (forall o, In o (other :: others) ->
                In (demoted (id survivor) now o) (rows (storeAfter s r now)))
  /\ (uniqueIds s ->
      In survivor (rows (storeAfter s r now))
      /\ linkPrecedence survivor = PRIMARY).
Proof.
  intros V H.
  pose proof (matchedPrimaries_ascending s r) as A. rewrite H in A.
  destruct (identify_merge s r now survivor other others V H)
    as (log & E & D & _).
  assert (forall o, In o (survivor :: other :: others) -> In o (rows s)) as Hrows.
  { intros o Ho. rewrite <- H in Ho. apply matchedPrimaries_In in Ho as [Ho _].
    now apply matched_In in Ho. }
  assert (forall o, In o (other :: others) -> In o (matchedPrimaries s r))
    as Hsub by (intros o Ho; rewrite H; now right).
  split; [|split; [|split; [|split]]].
  - intros p Hp. rewrite H in Hp. now apply ascending_head with (other :: others).
  - apply ascending_nth. apply A.
  - unfold callsOf. rewrite E. exact D.
  - intros o Ho. unfold storeAfter. rewrite E. cbn [fst store].
    destruct (In_nth_error _ _ (Hrows o (or_intror Ho))) as [j Hj].
    apply nth_error_In with j.
    rewrite (mergedStore_nth s r now survivor (other :: others) j o Hj).
    now rewrite (demotedBy_member s r _ o Hsub Ho).
  - intros U. split.
    + unfold storeAfter. rewrite E. cbn [fst store].
      destruct (In_nth_error _ _ (Hrows survivor (or_introl eq_refl))) as [j Hj].
      apply nth_error_In with j.
      rewrite (mergedStore_nth s r now survivor (other :: others) j _ Hj).
      destruct (demotedBy (other :: others) survivor) eqn:B; [|reflexivity].
      apply demotedBy_true in B as [B _].
      pose proof (matchedPrimaries_uniqueIds s r U) as N. rewrite H in N.
      simpl in N. inversion N; subst. contradiction.
    + apply isPrimary_iff.
      assert (In survivor (matchedPrimaries s r)) as Hs by (rewrite H; now left).
      now apply matchedPrimaries_In in Hs.
Qed.

Lemma merge_keeps_first_returned_witness :
  validRequest joiningRequest = true
  /\ matchedPrimaries twoCustomers joiningRequest = [customer1; customer2]
  /\ demotions (callsOf twoCustomers joiningRequest 40)
     = [UpdateLinkPrecedence 2 1]
  /\ In (demoted 1 40 customer2) (rows (storeAfter twoCustomers joiningRequest 40)).
Proof.
  split; [reflexivity|]. split; [reflexivity|].
  destruct (merge_keeps_first_returned twoCustomers joiningRequest 40
              customer1 customer2 [] eq_refl eq_refl)
    as (_ & _ & D & R & _).
  split; [exact D|]. apply R. now left.
Defined.

(** C1 as stated fails: on [tiedPrimariesStore] the two matched primaries
    have the same [createdAt]; contact 2 is returned first and survives, and
    contact 1, the lower id, is demoted to it. *)
Lemma tie_not_broken_by_id :
  ~ mergeKeepsLowestCreatedAtId tiedPrimariesStore tiedPrimariesRequest 200.
Proof.
  unfold mergeKeepsLowestCreatedAtId. vm_compute. intros H. discriminate H.
Qed.

Lemma tie_survivor_is_first_returned :
  demotions (callsOf tiedPrimariesStore tiedPrimariesRequest 200)
  = [UpdateLinkPrecedence 1 2]
  /\ map (fun c => (id c, linkPrecedence c, linkedId c))
         (rows (storeAfter tiedPrimariesStore tiedPrimariesRequest 200))
     = [(2, PRIMARY, None); (1, SECONDARY, Some 2)].
Proof. split; reflexivity. Qed.

(* ------------------------------------------------------------------------- *)
(** ** Instances *)

(** On [sameEmailStore] an order with a phone number not on file is not
    covered and its row is inserted; the same order with a phone number of
    21 characters is refused and ends in the error of the engine, the
    demotion done.  The order that joins [twoCustomers] is covered. *)
Lemma merge_inserts_iff_not_covered_witness :
  (matchedPrimaries sameEmailStore newPhoneOrder
   = [mkContact 1 (Some "1") (Some "a@x") None PRIMARY 10 10 None;
      mkContact 2 (Some "2") (Some "a@x") None PRIMARY 20 20 None]%string
   /\ ~ coveredPerField (matchedPrimaries sameEmailStore newPhoneOrder)
                        newPhoneOrder
   /\ rows (storeAfter sameEmailStore newPhoneOrder 40)
      = [mkContact 1 (Some "1") (Some "a@x") None PRIMARY 10 10 None;
         mkContact 2 (Some "2") (Some "a@x") (Some 1) SECONDARY 20 40 None;
         mkContact 3 (Some "3") (Some "a@x") (Some 1) SECONDARY 40 40 None]%string)
  /\ (resultOf sameEmailStore longPhoneOrder 40 = Thrown DatabaseError
      /\ rows (storeAfter sameEmailStore longPhoneOrder 40)
         = [mkContact 1 (Some "1") (Some "a@x") None PRIMARY 10 10 None;
            mkContact 2 (Some "2") (Some "a@x") (Some 1) SECONDARY 20 40 None]%string)
  /\ (coveredPerField (matchedPrimaries twoCustomers joiningRequest)
                      joiningRequest
      /\ rows (storeAfter twoCustomers joiningRequest 40)
         = demoteAll (rows twoCustomers) [customer2] 1 40).
Proof.
  assert (forall r, reqPhoneNumber r <> Some "1"%string ->
                    reqPhoneNumber r <> Some "2"%string ->
                    truthy (reqPhoneNumber r) = true ->
                    matchedPrimaries sameEmailStore r = rows sameEmailStore ->
                    ~ coveredPerField (matchedPrimaries sameEmailStore r) r)
    as NotCovered.
  { intros r N1 N2 T M [_ P]. destruct (P T) as (p & Hin & E).
    rewrite M in Hin. simpl in Hin.
    destruct Hin as [<-|[<-|[]]]; simpl in E; congruence. }
  split; [|split].
  - split; [reflexivity|].
    destruct (merge_inserts_iff_not_covered sameEmailStore newPhoneOrder 40
                customer1
                (mkContact 2 (Some "2"%string) (Some "a@x"%string) None PRIMARY
                           20 20 None)
                [] eq_refl eq_refl)
      as (_ & _ & _ & Ins & _).
    assert (~ coveredPerField (matchedPrimaries sameEmailStore newPhoneOrder)
                              newPhoneOrder) as N
        by (apply NotCovered; [discriminate|discriminate|reflexivity|reflexivity]).
    split; [exact N|].
    apply (Ins (mkContact 3 (Some "3") (Some "a@x") (Some 1) SECONDARY 40 40
                          None)%string).
    split; [exact N|]. split; reflexivity.
  - destruct (merge_inserts_iff_not_covered sameEmailStore longPhoneOrder 40
                customer1
                (mkContact 2 (Some "2"%string) (Some "a@x"%string) None PRIMARY
                           20 20 None)
                [] eq_refl eq_refl)
      as (_ & _ & _ & _ & Same & Err & _).
    assert (~ coveredPerField (matchedPrimaries sameEmailStore longPhoneOrder)
                              longPhoneOrder) as N
        by (apply NotCovered; [discriminate|discriminate|reflexivity|reflexivity]).
    split; [exact (Err N eq_refl)|].
    apply Same. right. reflexivity.
  - destruct (merge_inserts_iff_not_covered twoCustomers joiningRequest 40
                customer1 customer2 [] eq_refl eq_refl)
      as (_ & _ & _ & _ & Same & _).
    assert (coveredPerField (matchedPrimaries twoCustomers joiningRequest)
                            joiningRequest) as Cov.
    { split; intros _.
      - exists customer1. split; [now left|reflexivity].
      - exists customer2. split; [right; now left|reflexivity]. }
    split; [exact Cov|]. apply Same. now left.
Defined.

(** C2 as stated fails when a field is supplied as the empty string: on
    [samePhoneStore] the order [blankEmailOrder] supplies an email no
    customer has, so it is not covered field by field, yet the call asks for
    no new row: the code tests only the fields that are non-empty strings. *)
Lemma merge_skips_empty_field :
  ~ mergeCreatesAsSpecified samePhoneStore blankEmailOrder 50.
Proof.
  unfold mergeCreatesAsSpecified.
  change (matchedPrimaries samePhoneStore blankEmailOrder)
    with (rows samePhoneStore).
  cbn [rows samePhoneStore]. intros [_ H].
  assert (~ suppliedCovered (rows samePhoneStore) blankEmailOrder) as N.
  { intros [Ce _]. destruct (Ce EmptyString eq_refl) as (p & Hin & E).
    simpl in Hin. destruct Hin as [<-|[<-|[]]]; discriminate E. }
  specialize (H N). vm_compute in H.
  destruct H as [H|[H|[H|[]]]]; discriminate H.
Qed.

Lemma merge_skips_empty_field_run :
  validRequest blankEmailOrder = true
  /\ callsOf samePhoneStore blankEmailOrder 50
     = [FindByEmailOrPhone (Some EmptyString) (Some "1"%string);
        UpdateLinkPrecedence 2 1;
        FindLinkedContacts (Some 1)]
  /\ resultOf samePhoneStore blankEmailOrder 50
     = Ok (mkResponse 1 ["a@x"; "b@x"] ["1"] [2])%string.
Proof. repeat split; reflexivity. Qed.

Lemma direct_inserts_iff_required_witness :
  anchorOf twoCustomers (mkRequest (Some "b@x") (Some "4"))%string = Some customer2
  /\ secondaryRequired (selectLinked (rows twoCustomers) (Some 2))
                       (mkRequest (Some "b@x") (Some "4"))%string
  /\ rows (storeAfter twoCustomers (mkRequest (Some "b@x") (Some "4"))%string 40)
     = rows twoCustomers
       ++ [mkContact 4 (Some "4") (Some "b@x") (Some 2) SECONDARY 40 40 None]%string
  /\ resultOf oneCustomer longPhoneOrder 40 = Thrown DatabaseError
  /\ rows (storeAfter oneCustomer longPhoneOrder 40) = rows oneCustomer.
Proof.
  split; [reflexivity|].
  assert (matched twoCustomers (mkRequest (Some "b@x") (Some "4"))%string <> [])
    as Hne by discriminate.
  assert (List.length (matchedPrimaries twoCustomers
                         (mkRequest (Some "b@x") (Some "4"))%string) <= 1)%nat
    as Hlen by (vm_compute; lia).
  destruct (direct_inserts_iff_required twoCustomers
              (mkRequest (Some "b@x") (Some "4"))%string 40 customer2
              eq_refl Hne Hlen eq_refl) as (_ & _ & _ & Ins & _).
  assert (secondaryRequired (selectLinked (rows twoCustomers) (Some 2))
                            (mkRequest (Some "b@x") (Some "4"))%string) as Q.
  { intros (m & Hin & _ & Hp). vm_compute in Hin.
    destruct Hin as [<-|[<-|[]]]; discriminate Hp. }
  split; [exact Q|]. split.
  - apply (Ins (mkContact 4 (Some "4") (Some "b@x") (Some 2) SECONDARY 40 40
                          None)%string).
    split; [exact Q|]. split; reflexivity.
  - assert (matched oneCustomer longPhoneOrder <> []) as Hne' by discriminate.
    assert (List.length (matchedPrimaries oneCustomer longPhoneOrder) <= 1)%nat
      as Hlen' by (vm_compute; lia).
    destruct (direct_inserts_iff_required oneCustomer longPhoneOrder 40
                customer1 eq_refl Hne' Hlen' eq_refl)
      as (_ & _ & _ & _ & Same & Err & _).
    assert (secondaryRequired (selectLinked (rows oneCustomer) (Some 1))
                              longPhoneOrder) as Q'.
    { intros (m & Hin & _ & Hp). vm_compute in Hin.
      destruct Hin as [<-|[]]; discriminate Hp. }
    split; [exact (Err Q' eq_refl)|]. apply Same. right. reflexivity.
Defined.

(** C3 as stated fails when a field is supplied as the empty string: after
    a first order of customer 1, the order [blankEmailOrder] supplies both
    fields and no contact carries the pair, yet the call asks for no new
    row: with the email an empty string the code tests the phone alone. *)
Lemma direct_skips_pair_test :
  ~ directCreatesAsSpecified oneCustomer blankEmailOrder 50.
Proof.
  unfold directCreatesAsSpecified.
  change (matchedPrimaries oneCustomer blankEmailOrder) with [customer1].
  change (anchorOf oneCustomer blankEmailOrder) with (Some customer1).
  intros [_ H].
  assert (suppliedRequired (selectLinked (rows oneCustomer) (Some (id customer1)))
                           blankEmailOrder) as Q.
  { intros (m & Hin & He & _). vm_compute in Hin.
    destruct Hin as [<-|[]]. discriminate He. }
  specialize (H Q). vm_compute in H.
  destruct H as [H|[H|[H|[]]]]; discriminate H.
Qed.

Lemma direct_skips_pair_test_run :
  rows oneCustomer = [customer1]
  /\ callsOf oneCustomer blankEmailOrder 50
     = [FindByEmailOrPhone (Some EmptyString) (Some "1"%string);
        FindLinkedContacts (Some 1);
        FindLinkedContacts (Some 1)]
  /\ resultOf oneCustomer blankEmailOrder 50
     = Ok (mkResponse 1 ["a@x"] ["1"] [])%string.
Proof. repeat split; reflexivity. Qed.

Lemma demotion_touches_own_row_only_witness :
  exists c',
    nth_error (rows (storeAfter twoCustomers joiningRequest 40)) 2 = Some c'
    /\ c' = customer3 /\ linkedId c' = Some (id customer2)
    /\ exists d', In d' (rows (storeAfter twoCustomers joiningRequest 40))
                  /\ id d' = id customer2 /\ linkPrecedence d' = SECONDARY.
Proof.
  destruct (demotion_touches_own_row_only twoCustomers joiningRequest 40
              customer1 customer2 [] 2 customer3 eq_refl eq_refl eq_refl)
    as (c' & N & _ & _ & _ & _ & _ & _ & Same & Child).
  exists c'. split; [exact N|].
  assert (~ In (id customer3) (map id [customer2])) as Hn.
  { simpl. intros [X|[]]. discriminate X. }
  split; [exact (Same Hn)|].
  exact (Child customer2 (or_introl eq_refl) eq_refl Hn).
Defined.

(* ------------------------------------------------------------------------- *)
(** ** The consolidated view *)

Lemma setAdd_In s v x : In x (IdentityService.setAdd s v) <-> In x s \/ x = v.
Proof.
  unfold IdentityService.setAdd.
  destruct (existsb (String.eqb v) s) eqn:E.
  - split; [tauto|]. intros [H| ->]; [assumption|].
    apply existsb_exists in E as (y & Hy & Ey).
    apply String.eqb_eq in Ey. now subst.
  - rewrite in_app_iff. simpl. intuition.
Qed.

Lemma setAdd_NoDup s v : NoDup s -> NoDup (IdentityService.setAdd s v).
Proof.
  intros H. unfold IdentityService.setAdd.
  destruct (existsb (String.eqb v) s) eqn:E; [assumption|].
  apply NoDup_app; [assumption|repeat constructor; intros []|].
  intros x Hx [Ev|[]]. subst x.
  assert (existsb (String.eqb v) s = true) as Y.
  { apply existsb_exists. exists v. split; [assumption|apply String.eqb_refl]. }
  congruence.
Qed.

Lemma setAdd_hd s v h :
  hd_error s = Some h -> hd_error (IdentityService.setAdd s v) = Some h.
Proof.
  unfold IdentityService.setAdd. destruct (existsb _ s); [auto|].
  destruct s; [discriminate|auto].
Qed.

Lemma truthy_Some x : truthy (Some x) = true <-> x <> EmptyString.
Proof.
  simpl. rewrite negb_true_iff, <- not_true_iff_false, String.eqb_eq. tauto.
Qed.

Lemma addIfTruthy_In s f x :
  In x (IdentityService.addIfTruthy s f)
  <-> In x s \/ (f = Some x /\ x <> EmptyString).
Proof.
  unfold IdentityService.addIfTruthy. destruct f as [v|].
  - destruct (truthy (Some v)) eqn:T.
    + apply truthy_Some in T. rewrite setAdd_In. split.
      * intros [H| ->]; [now left|right; split; [reflexivity|assumption]].
      * intros [H|[E _]]; [now left|right; congruence].
    + split; [tauto|]. intros [H|[E N]]; [assumption|].
      injection E as ->. apply truthy_Some in N. congruence.
  - split; [tauto|]. intros [H|[E _]]; [assumption|discriminate].
Qed.

Lemma addIfTruthy_NoDup s f : NoDup s -> NoDup (IdentityService.addIfTruthy s f).
Proof.
  intros H. unfold IdentityService.addIfTruthy.
  destruct f as [v|]; [|assumption].
  destruct (truthy (Some v)); [now apply setAdd_NoDup|assumption].
Qed.

Lemma addIfTruthy_hd s f h :
  hd_error s = Some h -> hd_error (IdentityService.addIfTruthy s f) = Some h.
Proof.
  intros H. unfold IdentityService.addIfTruthy.
  destruct f as [v|]; [|assumption].
  destruct (truthy (Some v)); [now apply setAdd_hd|assumption].
Qed.

Section Collect.

Variable field : Contact -> option string.

Let step := fun (s : list string) (c : Contact) =>
              IdentityService.addIfTruthy s (field c).

Lemma fold_add_In l init x :
  In x (fold_left step l init)
  <-> In x init
      \/ (x <> EmptyString /\ exists m, In m l /\ field m = Some x).
Proof.
  revert init. induction l as [|c l IH]; intros init; simpl.
  - split; [tauto|]. intros [H|(_ & m & [] & _)]. assumption.
  - rewrite IH. unfold step at 1. rewrite addIfTruthy_In. split.
    + intros [[H|[E N]]|(N & m & Hm & E)]; [now left| |].
      * right. split; [assumption|]. exists c. tauto.
      * right. split; [assumption|]. exists m. tauto.
    + intros [H|(N & m & [<-|Hm] & E)]; [tauto|tauto|].
      right. split; [assumption|]. now exists m.
Qed.

Lemma fold_add_NoDup l init : NoDup init -> NoDup (fold_left step l init).
Proof.
  revert init. induction l as [|c l IH]; intros init H; simpl; [assumption|].
  apply IH. now apply addIfTruthy_NoDup.
Qed.

Lemma fold_add_hd l init h :
  hd_error init = Some h -> hd_error (fold_left step l init) = Some h.
Proof.
  revert init. induction l as [|c l IH]; intros init H; simpl; [assumption|].
  apply IH. now apply addIfTruthy_hd.
Qed.

Lemma collect_values primary secondaries :
  valuesOf field (primary :: secondaries)
           (IdentityService.collect field primary secondaries).
Proof.
  unfold IdentityService.collect. fold step. split.
  - apply fold_add_NoDup, addIfTruthy_NoDup. constructor.
  - intros x. rewrite fold_add_In, addIfTruthy_In. simpl. split.
    + intros [[[]|[E N]]|(N & m & Hm & E)].
      * split; [assumption|]. exists primary. tauto.
      * split; [assumption|]. exists m. tauto.
    + intros (N & m & [<-|Hm] & E); [tauto|].
      right. split; [assumption|]. now exists m.
Qed.

Lemma collect_hd primary secondaries :
  truthy (field primary) = true ->
  hd_error (IdentityService.collect field primary secondaries) = field primary.
Proof.
  intros T. unfold IdentityService.collect. fold step.
  destruct (field primary) as [v|] eqn:F; [|discriminate].
  apply fold_add_hd. unfold IdentityService.addIfTruthy. now rewrite T.
Qed.

(** The swap of [buildResponse] never fires. *)
Lemma ensureFirst_id primary secondaries :
  IdentityService.ensureFirst
    (field primary) (IdentityService.collect field primary secondaries)
  = IdentityService.collect field primary secondaries.
Proof.
  unfold IdentityService.ensureFirst.
  destruct (field primary) as [v|] eqn:F; [|reflexivity].
  destruct (truthy (Some v)) eqn:T; [|reflexivity].
  pose proof (collect_hd primary secondaries) as H. rewrite F in H.
  specialize (H T).
  destruct (IdentityService.collect field primary secondaries) as [|x0 arr];
    [discriminate|].
  injection H as ->. now rewrite String.eqb_refl.
Qed.

End Collect.

Lemma responseFor_view t root v :
  responseFor t root = Ok v ->
  exists primary,
    find isPrimary (selectLinked t (Some root)) = Some primary
    /\ viewOf primary (filter isSecondary (selectLinked t (Some root))) v.
Proof.
  unfold responseFor, IdentityService.buildResponse, bind,
    ContactModel.findLinkedContacts. cbn [store rows fst snd].
  destruct (find isPrimary (selectLinked t (Some root))) as [primary|];
    [|discriminate].
  unfold ret. cbn [snd]. intros E. injection E as <-.
  exists primary. split; [reflexivity|].
  rewrite !ensureFirst_id. unfold viewOf. cbn.
  split; [reflexivity|]. split; [reflexivity|].
  split; [apply collect_values|]. split; [apply collect_values|].
  split; apply collect_hd.
Qed.

Lemma responseFor_members t root v :
  responseFor t root = Ok v ->
  exists primary secondaries,
    membersOf t primary secondaries
    /\ In primary t /\ linkPrecedence primary = PRIMARY
    /\ (forall m, In m secondaries -> In m t /\ linkPrecedence m = SECONDARY)
    /\ ascendingCreatedAt secondaries
    /\ viewOf primary secondaries v.
Proof.
  intros H. apply responseFor_view in H as (primary & F & V).
  exists primary, (filter isSecondary (selectLinked t (Some root))).
  split; [left; exists root; tauto|].
  apply find_some in F as [Hin Hp].
  split; [now apply selectLinked_rows in Hin|].
  split; [now apply isPrimary_iff|].
  split; [|split; [|exact V]].
  - intros m Hm. apply filter_In in Hm as [Hm Hs].
    split; [now apply selectLinked_rows in Hm|now apply isSecondary_iff].
  - apply ascending_nth, ascending_filter, selectLinked_ascending.
Qed.

(** C4, as the code has it.  Every view [identify] returns is built from one
    PRIMARY row and a list of SECONDARY rows of the table after the call (the
    PRIMARY found in the cluster fetched for the root together with the
    SECONDARY rows of that cluster, or the single row just inserted).  Its
    arrays have no duplicates; each holds exactly the values of its field on
    these members that are neither NULL nor the empty string; the primary's
    own value, when it is a non-empty string, is at index 0; and
    [secondaryContactIds] lists the ids of the SECONDARY members in the
    order of the query, ascending in [createdAt]. *)
Theorem consolidated_view_contents s r now v :
  resultOf s r now = Ok v ->
  exists primary secondaries,
    membersOf (rows (storeAfter s r now)) primary secondaries
    /\ In primary (rows (storeAfter s r now))
    /\ linkPrecedence primary = PRIMARY
    /\ (forall m, In m secondaries ->
                  In m (rows (storeAfter s r now))
                  /\ linkPrecedence m = SECONDARY)
    /\ ascendingCreatedAt secondaries
    /\ viewOf primary secondaries v.
Proof.
  unfold resultOf, storeAfter. intros R.
  destruct (validRequest r) eqn:V.
  2:{ rewrite identify_invalid in R by assumption. discriminate. }
  destruct (matched s r) as [|e0 es] eqn:Em.
  - rewrite (identify_no_match s r now V Em) in *. cbn [fst snd store] in *.
    set (d0 := mkData (reqPhoneNumber r) (reqEmail r) None PRIMARY) in *.
    unfold afterInsert.
    destruct (insertInto_cases s d0 now)
      as [(_ & E & _)|[(d' & _ & _ & E & _)|(d & Sd & _ & _ & E & _)]];
      rewrite E in *; cbn [fst snd] in *; try discriminate.
    injection R as <-.
    assert (linkPrecedence (insertedRow s d now) = PRIMARY) as Prim.
    { cbn. now destruct (storedData_shape d0 d Sd) as (_ & _ & _ & ->). }
    exists (insertedRow s d now), []. split; [|split; [|split; [|split; [|split]]]].
    + right. split; [reflexivity|]. now exists (rows s).
    + unfold insertRow. cbn [rows]. apply in_or_app. right. now left.
    + exact Prim.
    + intros m [].
    + intros i j a b _ Hi. destruct i; discriminate.
    + assert (forall f : option string,
                 match f with
                 | Some e => if truthy f then [e] else []
                 | None => []
                 end = IdentityService.addIfTruthy [] f) as A.
      { intros [e|]; simpl; [|reflexivity].
        destruct (negb (String.eqb e EmptyString)); reflexivity. }
      unfold viewOf, viewOfNew.
      cbn [primaryContactId secondaryContactIds emails phoneNumbers map].
      rewrite !A. split; [reflexivity|]. split; [reflexivity|].
      split; [apply (collect_values email (insertedRow s d now) [])|].
      split; [apply (collect_values phoneNumber (insertedRow s d now) [])|].
      split; [apply (collect_hd email (insertedRow s d now) [])|
              apply (collect_hd phoneNumber (insertedRow s d now) [])].
  - destruct (matchedPrimaries s r) as [|p [|q ps]] eqn:Ep.
    + pose proof (identify_direct s r now V) as D. rewrite Em, Ep in D.
      specialize (D ltac:(discriminate) ltac:(simpl; lia)).
      destruct (anchorOf s r) as [a|].
      * destruct D as (log & E & _). rewrite E in *. cbn [fst snd store] in *.
        destruct (linkRefused s r a); [discriminate|].
        now apply responseFor_members with (id a).
      * destruct D as (log & E & _). rewrite E in R. discriminate.
    + pose proof (identify_direct s r now V) as D. rewrite Em, Ep in D.
      specialize (D ltac:(discriminate) ltac:(simpl; lia)).
      destruct (anchorOf s r) as [a|].
      * destruct D as (log & E & _). rewrite E in *. cbn [fst snd store] in *.
        destruct (linkRefused s r a); [discriminate|].
        now apply responseFor_members with (id a).
      * destruct D as (log & E & _). rewrite E in R. discriminate.
    + destruct (identify_merge s r now p q ps V Ep) as (log & E & _).
      rewrite E in *. cbn [fst snd store] in *.
      destruct (mergeRefused s r now p (q :: ps)); [discriminate|].
      now apply responseFor_members with (id p).
Qed.

(** C4 as stated fails on [blankEmailStore]: the primary's email is the
    empty string, a value that is not NULL, and it is in no array; the two
    secondaries share their [createdAt] and come back as 3, 2. *)
Lemma view_differs_from_spec :
  ~ viewMeetsSpec blankEmailStore blankEmailRequest 50.
Proof.
  unfold viewMeetsSpec. vm_compute.
  intros (_ & _ & _ & _ & H). discriminate H.
Qed.

Lemma view_on_blankEmailStore :
  resultOf blankEmailStore blankEmailRequest 50
  = Ok (mkResponse 1 ["c@x"; "b@x"] ["1"] [3; 2])%string
  /\ ~ valuesAsSpecified email
         (selectLinked (rows blankEmailStore) (Some 1)) ["c@x"; "b@x"]%string
  /\ ~ primaryFirstAsSpecified email
         (selectLinked (rows blankEmailStore) (Some 1)) ["c@x"; "b@x"]%string
  /\ ~ secondariesAsSpecified (selectLinked (rows blankEmailStore) (Some 1)) [3; 2].
Proof.
  split; [reflexivity|]. split; [|split].
  - intros [_ H].
    assert (In EmptyString ["c@x"; "b@x"]%string) as X.
    { apply H. eexists. split; [left; reflexivity|reflexivity]. }
    destruct X as [X|[X|[]]]; discriminate X.
  - intros H.
    specialize (H (mkContact 1 (Some "1"%string) (Some EmptyString) None
                             PRIMARY 10 10 None)
                  EmptyString (or_introl eq_refl) eq_refl eq_refl).
    discriminate H.
  - intros H. vm_compute in H. discriminate H.
Qed.

(** The empty string reaches the table through the service: the first call
    below inserts a PRIMARY whose email is the empty string, and the view
    of the second call leaves it out. *)
Lemma blank_email_reached :
  let s := identifyAll emptyStore
             [(mkRequest (Some EmptyString) (Some "1"%string), 10)] in
  map email (rows s) = [Some EmptyString]
  /\ resultOf s (mkRequest (Some "c@x") (Some "1"))%string 20
     = Ok (mkResponse 1 ["c@x"] ["1"] [2])%string.
Proof. split; reflexivity. Qed.

Lemma consolidated_view_contents_witness :
  resultOf blankEmailStore blankEmailRequest 50
  = Ok (mkResponse 1 ["c@x"; "b@x"] ["1"] [3; 2])%string
  /\ exists primary secondaries,
       membersOf (rows (storeAfter blankEmailStore blankEmailRequest 50))
                 primary secondaries
       /\ viewOf primary secondaries
                 (mkResponse 1 ["c@x"; "b@x"] ["1"] [3; 2])%string.
Proof.
  split; [reflexivity|].
  destruct (consolidated_view_contents blankEmailStore blankEmailRequest 50
              (mkResponse 1 ["c@x"; "b@x"] ["1"] [3; 2])%string eq_refl)
    as (primary & secondaries & M & _ & _ & _ & _ & V).
  exists primary, secondaries. split; assumption.
Defined.

(* ------------------------------------------------------------------------- *)
(** ** Clusters: three ways a graph grows *)

Section Clusters.

Variables (ids : Z -> Prop) (link : Z -> Z -> Prop) (prim : Z -> Prop).

Hypothesis link_ids : forall i j, link i j -> ids i /\ ids j.
Hypothesis prim_ids : forall p, prim p -> ids p.
Hypothesis one : onePrimary ids link prim.

Local Notation "'conn' R" := (clos_refl_sym_trans Z R) (at level 10, R at level 9).

Lemma conn_mono (R R' : Z -> Z -> Prop) i j :
  (forall x y, R x y -> R' x y) -> conn R i j -> conn R' i j.
Proof.
  intros H C. induction C.
  - apply rst_step. auto.
  - apply rst_refl.
  - now apply rst_sym.
  - eapply rst_trans; eauto.
Qed.

Lemma conn_inside (nodes : Z -> Prop) (R : Z -> Z -> Prop) i j :
  (forall x y, R x y -> nodes x /\ nodes y) ->
  conn R i j -> i = j \/ (nodes i /\ nodes j).
Proof.
  intros H C. induction C as [x y S|x|x y C IH|x y z C1 IH1 C2 IH2].
  - right. auto.
  - now left.
  - destruct IH as [->|[? ?]]; auto.
  - destruct IH1 as [->|[? ?]]; [assumption|].
    destruct IH2 as [<-|[? ?]]; auto.
Qed.

(** A new node without edges, itself a PRIMARY. *)
Lemma onePrimary_new_root n (ids' : Z -> Prop) (link' : Z -> Z -> Prop)
  (prim' : Z -> Prop) :
  ~ ids n ->
  (forall i, ids' i <-> ids i \/ i = n) ->
  (forall i j, link' i j <-> link i j) ->
  (forall p, prim' p <-> prim p \/ p = n) ->
  onePrimary ids' link' prim'.
Proof.
  intros Hn Hids Hlink Hprim i Hi.
  assert (forall x y, conn link' x y <-> conn link x y) as Hc.
  { intros x y. split; apply conn_mono; intros a b; apply Hlink. }
  apply Hids in Hi as [Hi| ->].
  - destruct (one i Hi) as (p & Pp & Cp & Up). exists p.
    split; [apply Hprim; now left|]. split; [now apply Hc|].
    intros q Pq Cq. apply Hc in Cq. apply Hprim in Pq as [Pq| ->]; [auto|].
    destruct (conn_inside ids link i n link_ids Cq) as [->|[_ ?]]; contradiction.
  - exists n. split; [apply Hprim; now right|]. split; [apply rst_refl|].
    intros q Pq Cq. apply Hc in Cq.
    destruct (conn_inside ids link n q link_ids Cq) as [->|[? _]];
      [reflexivity|contradiction].
Qed.

(** A new node with one edge to an existing node, itself not a PRIMARY. *)
Lemma onePrimary_new_leaf n a (ids' : Z -> Prop) (link' : Z -> Z -> Prop)
  (prim' : Z -> Prop) :
  ~ ids n -> ids a ->
  (forall i, ids' i <-> ids i \/ i = n) ->
  (forall i j, link' i j <-> link i j \/ (i = n /\ j = a)) ->
  (forall p, prim' p <-> prim p) ->
  onePrimary ids' link' prim'.
Proof.
  intros Hn Ha Hids Hlink Hprim.
  set (f := fun x => if Z.eq_dec x n then a else x).
  assert (forall x, ids x -> f x = x) as Fold.
  { intros x Hx. unfold f. destruct (Z.eq_dec x n); [subst; contradiction|auto]. }
  assert (f n = a) as Fn.
  { unfold f. destruct (Z.eq_dec n n); congruence. }
  assert (forall x y, conn link' x y -> conn link (f x) (f y)) as Hom.
  { intros x y C. induction C as [x y S|x|x y C IH|x y z C1 IH1 C2 IH2].
    - apply Hlink in S as [S|[-> ->]].
      + destruct (link_ids _ _ S) as [Hx Hy]. rewrite !Fold by assumption.
        now apply rst_step.
      + rewrite Fn, (Fold a Ha). apply rst_refl.
    - apply rst_refl.
    - now apply rst_sym.
    - eapply rst_trans; eauto. }
  assert (forall x y, conn link x y -> conn link' x y) as Up.
  { intros x y. apply conn_mono. intros u v S. apply Hlink. now left. }
  assert (forall i, ids i ->
            exists p, prim' p /\ conn link' i p
                      /\ forall q, prim' q -> conn link' i q -> q = p) as Old.
  { intros i Hi. destruct (one i Hi) as (p & Pp & Cp & Uq). exists p.
    split; [now apply Hprim|]. split; [now apply Up|].
    intros q Pq Cq. apply Hprim in Pq. apply Uq; [assumption|].
    apply Hom in Cq. now rewrite (Fold i Hi), (Fold q (prim_ids q Pq)) in Cq. }
  intros i Hi. apply Hids in Hi as [Hi| ->]; [now apply Old|].
  destruct (one a Ha) as (p & Pp & Cp & Uq). exists p.
  split; [now apply Hprim|]. split.
  - apply rst_trans with a; [apply rst_step, Hlink; right; split; reflexivity|].
    now apply Up.
  - intros q Pq Cq. apply Hprim in Pq. apply Uq; [assumption|].
    apply Hom in Cq. now rewrite Fn, (Fold q (prim_ids q Pq)) in Cq.
Qed.

(** A PRIMARY [d] gets an edge to another PRIMARY [p0] and stops being one. *)
Lemma onePrimary_demote d p0 (link' : Z -> Z -> Prop) (prim' : Z -> Prop) :
  prim d -> prim p0 -> d <> p0 ->
  (forall i j, link' i j <-> link i j \/ (i = d /\ j = p0)) ->
  (forall p, prim' p <-> prim p /\ p <> d) ->
  onePrimary ids link' prim'.
Proof.
  intros Pd Pp0 Hne Hlink Hprim.
  set (h := fun x => if Z.eq_dec x d then p0 else x).
  assert (forall x y, conn link x y -> conn link' x y) as Up.
  { intros x y. apply conn_mono. intros u v S. apply Hlink. now left. }
  assert (forall x, prim x -> forall p, prim p -> conn link x p -> p = x) as Own.
  { intros x Px p Pp C. destruct (one x (prim_ids x Px)) as (u & _ & _ & Uu).
    rewrite (Uu p Pp C). symmetry. apply Uu; [assumption|apply rst_refl]. }
  assert (forall i j, link' i j -> ids i /\ ids j) as link'_ids.
  { intros i j S. apply Hlink in S as [S|[-> ->]]; auto. }
  assert (forall i j, conn link' i j -> ids i -> ids j ->
            forall p p', prim p -> conn link i p -> prim p' -> conn link j p' ->
                         h p = h p') as Hom.
  { intros i j C. induction C as [x y S|x|x y C IH|x y z C1 IH1 C2 IH2];
      intros Hx Hy p p' Pp Cp Pp' Cp'.
    - apply Hlink in S as [S|[-> ->]].
      + destruct (one x Hx) as (u & _ & _ & Uu).
        rewrite (Uu p Pp Cp).
        rewrite (Uu p' Pp'); [reflexivity|].
        eapply rst_trans; [apply rst_step; eassumption|assumption].
      + rewrite (Own d Pd p Pp Cp), (Own p0 Pp0 p' Pp' Cp').
        unfold h. destruct (Z.eq_dec d d); [|congruence].
        destruct (Z.eq_dec p0 d); congruence.
    - destruct (one x Hx) as (u & _ & _ & Uu).
      now rewrite (Uu p Pp Cp), (Uu p' Pp' Cp').
    - symmetry. now apply IH.
    - assert (ids y) as Hmid.
      { destruct (conn_inside ids link' x y link'_ids C1) as [<-|[_ ?]]; auto. }
      destruct (one y Hmid) as (u & Pu & Cu & _).
      transitivity (h u); [now apply IH1|now apply IH2]. }
  assert (h d = p0) as Hd.
  { unfold h. destruct (Z.eq_dec d d); congruence. }
  assert (forall x, x <> d -> h x = x) as Hx.
  { intros x N. unfold h. destruct (Z.eq_dec x d); congruence. }
  intros i Hi. destruct (one i Hi) as (p & Pp & Cp & Uq).
  exists (h p). split; [|split].
  - apply Hprim. destruct (Z.eq_dec p d) as [->|Np].
    + rewrite Hd. split; [assumption|congruence].
    + rewrite (Hx p Np). now split.
  - destruct (Z.eq_dec p d) as [->|Np].
    + rewrite Hd. apply rst_trans with d; [apply Up; exact Cp|].
      apply rst_step, Hlink. right. split; reflexivity.
    + rewrite (Hx p Np). now apply Up.
  - intros q Pq Cq. apply Hprim in Pq as [Pq Nq].
    rewrite <- (Hx q Nq). symmetry.
    apply (Hom i q Cq Hi (prim_ids q Pq)); auto. apply rst_refl.
Qed.

End Clusters.

(* ------------------------------------------------------------------------- *)
(** ** The graph of a table after an insertion and after a demotion *)

Lemma linked_inside t i j :
  linked t i j -> In i (map id t) /\ In j (map id t).
Proof.
  intros (c & Hc & <- & _ & Hj). split; [now apply in_map|assumption].
Qed.

Lemma primaryId_inside t p : primaryId t p -> In p (map id t).
Proof. intros (c & Hc & <- & _). now apply in_map. Qed.

Lemma unique_row t c c' :
  NoDup (map id t) -> In c t -> In c' t -> id c = id c' -> c = c'.
Proof.
  induction t as [|x t IH]; simpl; [intros _ []|].
  intros N Hc Hc' E. inversion N as [|? ? Hx Ht]; subst.
  destruct Hc as [<-|Hc], Hc' as [<-|Hc']; auto.
  - exfalso. apply Hx. rewrite E. now apply in_map.
  - exfalso. apply Hx. rewrite <- E. now apply in_map.
Qed.

Lemma wf_unique s : wellFormed s -> NoDup (map id (rows s)).
Proof. intros [S _]. apply S. Qed.

Lemma wf_sequence s :
  wellFormed s -> forall c, In c (rows s) -> id c < nextId s.
Proof. intros [S _]. apply S. Qed.

Lemma wf_links s :
  wellFormed s ->
  forall c j, In c (rows s) -> linkedId c = Some j -> In j (map id (rows s)).
Proof. intros [S _]. apply S. Qed.

Lemma sequence_fresh s :
  schemaConstraints s -> ~ In (nextId s) (map id (rows s)).
Proof.
  intros S H. apply in_map_iff in H as (c & E & Hc).
  pose proof (sc_sequence s S c Hc). lia.
Qed.

Lemma wf_dataModel s : wellFormed s -> dataModel s.
Proof.
  intros wf. constructor;
    [now apply wf_unique|now apply wf_links|now apply wf_primary].
Qed.

Lemma dataModel_wellFormed s :
  dataModel s -> (forall c, In c (rows s) -> id c < nextId s) -> wellFormed s.
Proof.
  intros [K R P] Sq. constructor; [constructor|]; assumption.
Qed.

Lemma dataModel_rows s s' : rows s' = rows s -> dataModel s -> dataModel s'.
Proof.
  intros E [K R P]. constructor; unfold primaryUnlinked; rewrite E; assumption.
Qed.

Section Insertion.

Variables (s : Store) (d : ContactData) (now : Z).
Hypothesis dm : dataModel s.
Hypothesis fresh : ~ In (nextId s) (map id (rows s)).
Hypothesis target : forall j, dLinkedId d = Some j -> In j (map id (rows s)).

Lemma insert_ids i :
  In i (map id (rows (insertRow s d now)))
  <-> In i (map id (rows s)) \/ i = nextId s.
Proof.
  unfold insertRow. cbn [rows]. rewrite map_app, in_app_iff. simpl.
  intuition.
Qed.

Lemma insert_linked i j :
  linked (rows (insertRow s d now)) i j
  <-> linked (rows s) i j \/ (i = nextId s /\ dLinkedId d = Some j).
Proof.
  split.
  - intros (c & Hc & Hi & Hl & Hj). unfold insertRow in Hc. cbn [rows] in Hc.
    apply in_app_or in Hc as [Hc|[<-|[]]].
    + left. exists c. repeat split; try assumption.
      now apply (dm_reference s dm c).
    + right. simpl in Hi, Hl. auto.
  - intros [(c & Hc & Hi & Hl & Hj)|[-> Hl]].
    + exists c. split; [unfold insertRow; cbn [rows]; apply in_or_app; now left|].
      repeat split; try assumption. apply insert_ids. now left.
    + exists (insertedRow s d now).
      split; [unfold insertRow; cbn [rows]; apply in_or_app; right; now left|].
      repeat split; try assumption. apply insert_ids. left. now apply target.
Qed.

Lemma insert_primaryId p :
  primaryId (rows (insertRow s d now)) p
  <-> primaryId (rows s) p \/ (p = nextId s /\ dLinkPrecedence d = PRIMARY).
Proof.
  split.
  - intros (c & Hc & Hi & Hp). unfold insertRow in Hc. cbn [rows] in Hc.
    apply in_app_or in Hc as [Hc|[<-|[]]].
    + left. now exists c.
    + right. simpl in Hi, Hp. auto.
  - intros [(c & Hc & Hi & Hp)|[-> Hp]].
    + exists c. split; [unfold insertRow; cbn [rows]; apply in_or_app; now left|].
      now split.
    + exists (insertedRow s d now).
      split; [unfold insertRow; cbn [rows]; apply in_or_app; right; now left|].
      now split.
Qed.

Lemma insert_dataModel :
  (dLinkPrecedence d = PRIMARY -> dLinkedId d = None) ->
  dataModel (insertRow s d now).
Proof.
  intros Hp. destruct dm as [U L P]. constructor.
  - unfold insertRow. cbn [rows]. rewrite map_app. simpl.
    apply NoDup_app; [assumption|repeat constructor; intros []|].
    intros x Hx [<-|[]]. now apply fresh.
  - intros c j Hc Hl. apply insert_ids. left.
    unfold insertRow in Hc. cbn [rows] in Hc.
    apply in_app_or in Hc as [Hc|[<-|[]]]; [now apply (L c)|now apply target].
  - intros c Hc Hl. unfold insertRow in Hc. cbn [rows] in Hc.
    apply in_app_or in Hc as [Hc|[<-|[]]]; [now apply P|now apply Hp].
Qed.

End Insertion.

Lemma insert_wellFormed s d now :
  wellFormed s ->
  (forall j, dLinkedId d = Some j -> In j (map id (rows s))) ->
  (dLinkPrecedence d = PRIMARY -> dLinkedId d = None) ->
  wellFormed (insertRow s d now).
Proof.
  intros wf T Hp. apply dataModel_wellFormed.
  - apply insert_dataModel; auto; [now apply wf_dataModel|].
    now apply sequence_fresh, wf_schema.
  - intros c Hc. unfold insertRow in *. cbn [rows nextId] in *.
    apply in_app_or in Hc as [Hc|[<-|[]]];
      [pose proof (wf_sequence s wf c Hc); lia|simpl; lia].
Qed.

Lemma insert_primary_onePrimary s d now :
  dataModel s -> ~ In (nextId s) (map id (rows s)) ->
  dLinkedId d = None -> dLinkPrecedence d = PRIMARY ->
  onePrimaryPerCluster (rows s) ->
  onePrimaryPerCluster (rows (insertRow s d now)).
Proof.
  intros dm fresh Hl Hp one. unfold onePrimaryPerCluster in *.
  assert (forall j, dLinkedId d = Some j -> In j (map id (rows s))) as T
      by (intros j E; congruence).
  eapply (onePrimary_new_root _ _ _ (linked_inside (rows s)) one (nextId s)).
  - exact fresh.
  - intros i. now apply insert_ids.
  - intros i j. rewrite (insert_linked s d now dm T). rewrite Hl.
    split; [intros [H|[_ H]]; [assumption|discriminate]|now left].
  - intros q. rewrite insert_primaryId. intuition.
Qed.

Lemma insert_secondary_onePrimary s d a now :
  dataModel s -> ~ In (nextId s) (map id (rows s)) ->
  dLinkedId d = Some a -> dLinkPrecedence d = SECONDARY ->
  onePrimaryPerCluster (rows s) -> In a (map id (rows s)) ->
  onePrimaryPerCluster (rows (insertRow s d now)).
Proof.
  intros dm fresh Hl Hp one Ha. unfold onePrimaryPerCluster in *.
  assert (forall j, dLinkedId d = Some j -> In j (map id (rows s))) as T
      by (intros j E; congruence).
  eapply (onePrimary_new_leaf _ _ _ (linked_inside (rows s))
                              (primaryId_inside (rows s)) one (nextId s) a).
  - exact fresh.
  - exact Ha.
  - intros i. now apply insert_ids.
  - intros i j. rewrite (insert_linked s d now dm T). rewrite Hl.
    split; (intros [H|[Hi Hj]]; [now left|right; split; congruence]).
  - intros q. rewrite insert_primaryId. rewrite Hp.
    split; [intros [H|[_ H]]; [assumption|discriminate]|now left].
Qed.

Lemma updateRows_ids t i l n : map id (updateRows t i l n) = map id t.
Proof.
  unfold updateRows. rewrite map_map. apply map_ext. intros c.
  apply updateRow_id.
Qed.

Section Demotion.

Variables (s : Store) (D : Contact) (p0 now : Z).
Hypothesis dm : dataModel s.
Hypothesis D_row : In D (rows s).
Hypothesis D_primary : linkPrecedence D = PRIMARY.
Hypothesis D_live : notDeleted D = true.
Hypothesis p0_row : In p0 (map id (rows s)).

Let t' := updateRows (rows s) (id D) p0 now.

Lemma demote_target c :
  In c (rows s) -> updateTarget (id D) c = true -> c = D.
Proof.
  intros Hc T. unfold updateTarget in T. apply andb_true_iff in T as [E _].
  apply Z.eqb_eq in E. apply (unique_row (rows s)); auto. now apply dm_key.
Qed.

Lemma demote_other c :
  In c (rows s) -> id c <> id D -> In c t'.
Proof.
  intros Hc N. unfold t', updateRows. apply in_map_iff. exists c.
  split; [|assumption]. unfold updateRow, updateTarget.
  apply Z.eqb_neq in N. now rewrite N.
Qed.

Lemma demote_row : In (demoted p0 now D) t'.
Proof.
  unfold t', updateRows. apply in_map_iff. exists D. split; [|assumption].
  unfold updateRow, updateTarget. now rewrite Z.eqb_refl, D_live.
Qed.

Lemma demote_In c' :
  In c' t' ->
  c' = demoted p0 now D \/ (In c' (rows s) /\ id c' <> id D).
Proof.
  intros H. unfold t', updateRows in H. apply in_map_iff in H as (c & E & Hc).
  unfold updateRow in E. destruct (updateTarget (id D) c) eqn:T.
  - left. now rewrite <- E, (demote_target c Hc T).
  - right. subst c'. split; [assumption|]. intros Eid.
    assert (c = D) as -> by (apply (unique_row (rows s)); auto; now apply dm_key).
    unfold updateTarget in T. now rewrite Z.eqb_refl, D_live in T.
Qed.

Lemma demote_linked i j :
  linked t' i j <-> linked (rows s) i j \/ (i = id D /\ j = p0).
Proof.
  unfold linked. unfold t' at 2. rewrite updateRows_ids. split.
  - intros (c & Hc & Hi & Hl & Hj). apply demote_In in Hc as [->|[Hc N]].
    + right. simpl in Hi, Hl. split; congruence.
    + left. now exists c.
  - intros [(c & Hc & Hi & Hl & Hj)|[-> ->]].
    + exists c. split; [|auto]. apply demote_other; [assumption|].
      intros E.
      assert (c = D) as -> by (apply (unique_row (rows s)); auto; now apply dm_key).
      rewrite (dm_primary s dm D D_row D_primary) in Hl. discriminate.
    + exists (demoted p0 now D). split; [apply demote_row|]. now split.
Qed.

Lemma demote_primaryId q :
  primaryId t' q <-> primaryId (rows s) q /\ q <> id D.
Proof.
  split.
  - intros (c & Hc & Hi & Hp). apply demote_In in Hc as [->|[Hc N]].
    + discriminate.
    + split; [now exists c|congruence].
  - intros [(c & Hc & Hi & Hp) N]. exists c.
    split; [apply demote_other; congruence|now split].
Qed.

Lemma demote_dataModel : dataModel (mkStore t' (nextId s)).
Proof.
  destruct dm as [U L P]. constructor; cbn [rows nextId].
  - unfold t'. now rewrite updateRows_ids.
  - intros c j Hc Hl. unfold t' at 1. rewrite updateRows_ids.
    apply demote_In in Hc as [->|[Hc _]]; [|now apply (L c)].
    simpl in Hl. injection Hl as <-. assumption.
  - intros c Hc Hp. cbn [rows] in Hc.
    apply demote_In in Hc as [->|[Hc _]]; [discriminate|auto].
Qed.

Lemma demote_onePrimary :
  onePrimaryPerCluster (rows s) ->
  primaryId (rows s) p0 -> id D <> p0 ->
  onePrimaryPerCluster t'.
Proof.
  intros one Pp0 N. unfold onePrimaryPerCluster in *.
  unfold t' at 1. rewrite updateRows_ids.
  apply (onePrimary_demote _ _ _ (linked_inside (rows s))
                           (primaryId_inside (rows s)) one (id D) p0).
  - now exists D.
  - assumption.
  - assumption.
  - apply demote_linked.
  - apply demote_primaryId.
Qed.

End Demotion.

(* ------------------------------------------------------------------------- *)
(** ** One PRIMARY per cluster *)

Lemma demoteAll_dataModel others : forall t k p0 now,
  dataModel (mkStore t k) -> In p0 (map id t) ->
  (forall o, In o others -> In o t /\ notDeleted o = true) ->
  NoDup (map id others) ->
  dataModel (mkStore (demoteAll t others p0 now) k).
Proof.
  induction others as [|o os IH]; intros t k p0 now dm Hp0 Ho N;
    [exact dm|].
  destruct (Ho o (or_introl eq_refl)) as (Hin & Hd).
  inversion N as [|? ? Hfresh Nos]; subst.
  change (demoteAll t (o :: os) p0 now)
    with (demoteAll (updateRows t (id o) p0 now) os p0 now).
  apply IH.
  - apply (demote_dataModel (mkStore t k) o p0 now dm Hin Hd Hp0).
  - now rewrite updateRows_ids.
  - intros o' Ho'. destruct (Ho o' (or_intror Ho')) as (Hin' & Hd').
    split; [|assumption].
    apply (demote_other (mkStore t k) o p0 now); [assumption|].
    intros E. apply Hfresh. rewrite <- E. now apply in_map.
  - assumption.
Qed.

Lemma demoteAll_preserves others : forall t k p0 now,
  dataModel (mkStore t k) -> onePrimaryPerCluster t ->
  primaryId t p0 ->
  (forall o, In o others ->
             In o t /\ linkPrecedence o = PRIMARY /\ notDeleted o = true
             /\ id o <> p0) ->
  NoDup (map id others) ->
  onePrimaryPerCluster (demoteAll t others p0 now)
  /\ primaryId (demoteAll t others p0 now) p0.
Proof.
  induction others as [|o os IH]; intros t k p0 now dm one Pp0 Ho N.
  - simpl. auto.
  - destruct (Ho o (or_introl eq_refl)) as (Hin & Hp & Hd & Hne).
    inversion N as [|? ? Hfresh Nos]; subst.
    assert (In p0 (map id t)) as Hp0 by now apply primaryId_inside.
    change (demoteAll t (o :: os) p0 now)
      with (demoteAll (updateRows t (id o) p0 now) os p0 now).
    apply (IH _ k).
    + apply (demote_dataModel (mkStore t k) o p0 now dm Hin Hd Hp0).
    + apply (demote_onePrimary (mkStore t k) o p0 now dm Hin Hp Hd Hp0 one Pp0 Hne).
    + apply (demote_primaryId (mkStore t k) o p0 now dm Hin Hd). split; auto.
    + intros o' Ho'. destruct (Ho o' (or_intror Ho')) as (Hin' & Hp' & Hd' & Hne').
      split; [|auto].
      apply (demote_other (mkStore t k) o p0 now); [assumption|].
      intros E. apply Hfresh. rewrite <- E. now apply in_map.
    + assumption.
Qed.

Lemma anchorOf_row s r a : anchorOf s r = Some a -> In a (rows s).
Proof.
  unfold anchorOf. destruct (matchedPrimaries s r) as [|p ps] eqn:Ep.
  - destruct (matched s r) as [|e0 es]; [discriminate|].
    intros H. apply selectLinked_rows with (linkedId e0).
    destruct (selectLinked (rows s) (linkedId e0)); [discriminate|].
    injection H as <-. now left.
  - intros H. injection H as <-.
    assert (In p (matchedPrimaries s r)) as Hp by (rewrite Ep; now left).
    apply matchedPrimaries_In in Hp as [Hp _]. now apply matched_In in Hp.
Qed.

(** An [INSERT] of a row linked to a row of the table, or of a PRIMARY
    without link, keeps the table within the data model and keeps one
    PRIMARY in every cluster, whether the table takes the row or not. *)
Lemma afterInsert_dataModel s d now :
  dataModel s ->
  (forall j, dLinkedId d = Some j -> In j (map id (rows s))) ->
  (dLinkPrecedence d = PRIMARY -> dLinkedId d = None) ->
  dataModel (afterInsert s d now).
Proof.
  intros dm T Hp.
  destruct (afterInsert_shape s d now)
    as [(_ & d' & _ & -> & L & P & F & _)|(_ & E & _)].
  - apply insert_dataModel; [assumption|assumption| |]; rewrite ?L, ?P; auto.
  - now apply (dataModel_rows s).
Qed.

Lemma afterInsert_onePrimary s d now :
  dataModel s -> onePrimaryPerCluster (rows s) ->
  ((dLinkedId d = None /\ dLinkPrecedence d = PRIMARY)
   \/ (dLinkPrecedence d = SECONDARY
       /\ exists a, dLinkedId d = Some a /\ In a (map id (rows s)))) ->
  onePrimaryPerCluster (rows (afterInsert s d now)).
Proof.
  intros dm one Kind.
  destruct (afterInsert_shape s d now)
    as [(_ & d' & _ & -> & L & P & F & _)|(_ & -> & _)]; [|assumption].
  destruct Kind as [[Hl Hp]|(Hp & a & Hl & Ha)].
  - apply insert_primary_onePrimary; auto; congruence.
  - apply insert_secondary_onePrimary with a; auto; congruence.
Qed.

Lemma afterInsert_sequence s d now :
  (forall c, In c (rows s) -> id c < nextId s) ->
  forall c, In c (rows (afterInsert s d now)) ->
            id c < nextId (afterInsert s d now).
Proof.
  intros Sq c Hc.
  destruct (afterInsert_shape s d now)
    as [(_ & d' & _ & E & _)|(_ & E & N)].
  - rewrite E in *. unfold insertRow in *. cbn [rows nextId] in *.
    apply in_app_or in Hc as [Hc|[<-|[]]];
      [specialize (Sq c Hc); lia|simpl; lia].
  - rewrite E in Hc. specialize (Sq c Hc). lia.
Qed.

Lemma merge_facts s r survivor other others :
  dataModel s -> matchedPrimaries s r = survivor :: other :: others ->
  In survivor (rows s) /\ linkPrecedence survivor = PRIMARY
  /\ NoDup (map id (other :: others))
  /\ forall o, In o (other :: others) ->
               In o (rows s) /\ linkPrecedence o = PRIMARY
               /\ notDeleted o = true /\ id o <> id survivor.
Proof.
  intros dm H.
  assert (forall o, In o (matchedPrimaries s r) ->
                    In o (rows s) /\ linkPrecedence o = PRIMARY
                    /\ notDeleted o = true) as Facts.
  { intros o Ho. apply matchedPrimaries_In in Ho as [Ho Hp].
    apply matched_In in Ho as (Hin & Hd & _).
    repeat split; try assumption. now apply isPrimary_iff. }
  pose proof (matchedPrimaries_uniqueIds s r (dm_key s dm)) as N.
  rewrite H in N, Facts. simpl in N. inversion N as [|? ? Hs Nos]; subst.
  destruct (Facts survivor (or_introl eq_refl)) as (Sin & Sp & _).
  split; [assumption|]. split; [assumption|]. split; [assumption|].
  intros o Ho. destruct (Facts o (or_intror Ho)) as (? & ? & ?).
  repeat split; try assumption. intros E. apply Hs. rewrite <- E.
  now apply (in_map id (other :: others)).
Qed.

Lemma demotedStore_dataModel s r now survivor other others :
  dataModel s -> matchedPrimaries s r = survivor :: other :: others ->
  dataModel (demotedStore s now survivor (other :: others)).
Proof.
  intros dm H. destruct (merge_facts s r _ _ _ dm H) as (Sin & _ & N & F).
  apply demoteAll_dataModel; [now destruct s|now apply in_map| |assumption].
  intros o Ho. destruct (F o Ho) as (? & _ & ? & _). now split.
Qed.

Lemma mergedStore_dataModel s r now survivor other others :
  dataModel s -> matchedPrimaries s r = survivor :: other :: others ->
  dataModel (mergedStore s r now survivor (other :: others)).
Proof.
  intros dm H.
  pose proof (demotedStore_dataModel s r now _ _ _ dm H) as dm1.
  destruct (mergedStore_shape s r now survivor (other :: others)) as [->| ->];
    [assumption|].
  apply afterInsert_dataModel; [assumption| |discriminate].
  intros j E. simpl in E. injection E as <-.
  unfold demotedStore. cbn [rows]. rewrite demoteAll_ids. apply in_map.
  now destruct (merge_facts s r _ _ _ dm H).
Qed.

Lemma mergedStore_onePrimary s r now survivor other others :
  dataModel s -> onePrimaryPerCluster (rows s) ->
  matchedPrimaries s r = survivor :: other :: others ->
  onePrimaryPerCluster (rows (mergedStore s r now survivor (other :: others))).
Proof.
  intros dm one H.
  destruct (merge_facts s r _ _ _ dm H) as (Sin & Sp & N & F).
  pose proof (demotedStore_dataModel s r now _ _ _ dm H) as dm1.
  destruct (demoteAll_preserves (other :: others) (rows s) (nextId s)
              (id survivor) now) as (one1 & P1);
    [now destruct s|assumption|now exists survivor|exact F|assumption|].
  destruct (mergedStore_shape s r now survivor (other :: others)) as [->| ->];
    [assumption|].
  apply afterInsert_onePrimary; [assumption|assumption|].
  right. split; [reflexivity|]. exists (id survivor). split; [reflexivity|].
  now apply primaryId_inside.
Qed.

Lemma linkedStore_dataModel s r now a :
  dataModel s -> In a (rows s) -> dataModel (linkedStore s r now a).
Proof.
  intros dm Ha. destruct (linkedStore_shape s r now a) as [->| ->];
    [assumption|].
  apply afterInsert_dataModel; [assumption| |discriminate].
  intros j E. simpl in E. injection E as <-. now apply in_map.
Qed.

Lemma linkedStore_onePrimary s r now a :
  dataModel s -> onePrimaryPerCluster (rows s) -> In a (rows s) ->
  onePrimaryPerCluster (rows (linkedStore s r now a)).
Proof.
  intros dm one Ha. destruct (linkedStore_shape s r now a) as [->| ->];
    [assumption|].
  apply afterInsert_onePrimary; [assumption|assumption|].
  right. split; [reflexivity|]. exists (id a). split; [reflexivity|].
  now apply in_map.
Qed.

Lemma storeAfter_dataModel s r now :
  dataModel s -> dataModel (storeAfter s r now).
Proof.
  intros dm.
  destruct (identify_cases s r now)
    as [(_ & S & _)|[(_ & _ & S & _)|[(_ & _ & _ & _ & S & _)|
        [(a & _ & _ & _ & Ha & S & _)|
         (p & q & ps & _ & Ep & S & _)]]]]; rewrite S.
  - exact dm.
  - apply afterInsert_dataModel; [assumption|discriminate|reflexivity].
  - exact dm.
  - apply linkedStore_dataModel; [assumption|now apply anchorOf_row with r].
  - now apply mergedStore_dataModel.
Qed.

Lemma identify_preserves s r now :
  dataModel s -> onePrimaryPerCluster (rows s) ->
  dataModel (storeAfter s r now)
  /\ onePrimaryPerCluster (rows (storeAfter s r now)).
Proof.
  intros dm one. split; [now apply storeAfter_dataModel|].
  destruct (identify_cases s r now)
    as [(_ & S & _)|[(_ & _ & S & _)|[(_ & _ & _ & _ & S & _)|
        [(a & _ & _ & _ & Ha & S & _)|
         (p & q & ps & _ & Ep & S & _)]]]]; rewrite S.
  - exact one.
  - apply afterInsert_onePrimary; [assumption|assumption|]. left. now split.
  - exact one.
  - apply linkedStore_onePrimary; [assumption|assumption|].
    now apply anchorOf_row with r.
  - now apply mergedStore_onePrimary.
Qed.

Lemma storeAfter_sequence s r now :
  (forall c, In c (rows s) -> id c < nextId s) ->
  forall c, In c (rows (storeAfter s r now)) -> id c < nextId (storeAfter s r now).
Proof.
  intros Sq.
  assert (forall survivor others c,
             In c (rows (demotedStore s now survivor others)) ->
             id c < nextId (demotedStore s now survivor others)) as Dm.
  { intros survivor others c Hc. unfold demotedStore in *. cbn [rows nextId] in *.
    apply (in_map id) in Hc. rewrite demoteAll_ids in Hc.
    apply in_map_iff in Hc as (c0 & <- & Hc0). now apply Sq. }
  destruct (identify_cases s r now)
    as [(_ & S & _)|[(_ & _ & S & _)|[(_ & _ & _ & _ & S & _)|
        [(a & _ & _ & _ & Ha & S & _)|
         (p & q & ps & _ & Ep & S & _)]]]]; rewrite S.
  - exact Sq.
  - now apply afterInsert_sequence.
  - exact Sq.
  - destruct (linkedStore_shape s r now a) as [->| ->];
      [exact Sq|now apply afterInsert_sequence].
  - destruct (mergedStore_shape s r now p (q :: ps)) as [->| ->];
      [apply Dm|apply afterInsert_sequence, Dm].
Qed.

Lemma storeAfter_wellFormed s r now :
  wellFormed s -> wellFormed (storeAfter s r now).
Proof.
  intros wf. apply dataModel_wellFormed.
  - now apply storeAfter_dataModel, wf_dataModel.
  - now apply storeAfter_sequence, wf_sequence.
Qed.

Lemma creates_by_branch s r now d :
  In (Create d) (callsOf s r now) ->
  (matched s r = [] /\ dLinkPrecedence d = PRIMARY /\ dLinkedId d = None)
  \/ (matched s r <> [] /\ dLinkPrecedence d = SECONDARY
      /\ exists a, In a (rows s) /\ dLinkedId d = Some (id a)).
Proof.
  intros H.
  destruct (identify_cases s r now)
    as [(_ & _ & _ & C)|[(_ & Em & _ & _ & C)|[(_ & _ & _ & _ & _ & _ & _ & C)|
        [(a & _ & Hne & _ & Ha & _ & _ & _ & C)|
         (p & q & ps & _ & Ep & _ & _ & _ & C)]]]].
  - rewrite C in H. destruct H.
  - rewrite C in H. destruct H as [H|[H|[]]]; [discriminate|].
    injection H as <-. now left.
  - now apply C in H.
  - right. split; [assumption|]. destruct (C d H) as [-> _].
    split; [reflexivity|]. exists a.
    split; [now apply anchorOf_row with r|reflexivity].
  - right. split.
    + intros Em. unfold matchedPrimaries in Ep. rewrite Em in Ep. discriminate.
    + destruct (C d H) as [-> _]. split; [reflexivity|]. exists p.
      split; [|reflexivity]. apply (matchedPrimaries_rows s r).
      rewrite Ep. now left.
Qed.

Lemma identifyAll_preserves l : forall s,
  dataModel s -> onePrimaryPerCluster (rows s) ->
  dataModel (identifyAll s l) /\ onePrimaryPerCluster (rows (identifyAll s l)).
Proof.
  induction l as [|[r now] l IH]; intros s dm one; simpl; [now split|].
  destruct (identify_preserves s r now dm one) as [dm' one'].
  now apply IH.
Qed.

Lemma identifyAll_wellFormed l : forall s,
  wellFormed s -> wellFormed (identifyAll s l).
Proof.
  induction l as [|[r now] l IH]; intros s wf; simpl; [exact wf|].
  apply IH. now apply storeAfter_wellFormed.
Qed.

Lemma emptyStore_wellFormed : wellFormed emptyStore.
Proof.
  constructor; [constructor|]; simpl.
  - constructor.
  - intros c [].
  - intros c j [].
  - intros c [].
Qed.


Lemma merge_demotes_others s r now survivor other others :
  validRequest r = true -> uniqueIds s ->
  matchedPrimaries s r = survivor :: other :: others ->
  In survivor (rows (storeAfter s r now))
  /\ forall o, In o (other :: others) ->
               In (demoted (id survivor) now o) (rows (storeAfter s r now)).
Proof.
  intros V U H.
  destruct (identify_merge s r now survivor other others V H) as (log & E & _).
  unfold storeAfter. rewrite E. cbn [fst store].
  assert (forall o, In o (survivor :: other :: others) -> In o (rows s)) as Hrows.
  { intros o Ho. rewrite <- H in Ho. apply matchedPrimaries_In in Ho as [Ho _].
    now apply matched_In in Ho. }
  assert (forall o, In o (other :: others) -> In o (matchedPrimaries s r))
    as Hsub by (intros o Ho; rewrite H; now right).
  split.
  - destruct (In_nth_error _ _ (Hrows survivor (or_introl eq_refl))) as [j Hj].
    apply nth_error_In with j.
    rewrite (mergedStore_nth s r now survivor (other :: others) j _ Hj).
    destruct (demotedBy (other :: others) survivor) eqn:B; [|reflexivity].
    apply demotedBy_true in B as [B _].
    pose proof (matchedPrimaries_uniqueIds s r U) as N. rewrite H in N.
    simpl in N. inversion N; subst. contradiction.
  - intros o Ho.
    destruct (In_nth_error _ _ (Hrows o (or_intror Ho))) as [j Hj].
    apply nth_error_In with j.
    rewrite (mergedStore_nth s r now survivor (other :: others) j o Hj).
    now rewrite (demotedBy_member s r _ o Hsub Ho).
Qed.

(** C5.  On a table of the data model, that is, with the primary key and the
    reference of [linked_id] the engine enforces and with no PRIMARY
    carrying a [linkedId], in which every cluster holds exactly one PRIMARY,
    every sequence of [identify] calls, run one after the other, ends in
    such a table again, whether the calls return a view or fail.  A call
    asks for a PRIMARY row, without link, only when nothing matched, and for
    a SECONDARY row linked to an existing row otherwise; a merge leaves the
    survivor's row as it was and turns the row of every other matched
    primary into a SECONDARY linked to the survivor. *)
Theorem one_primary_per_cluster_preserved s :
  dataModel s -> onePrimaryPerCluster (rows s) ->
  (forall l,
      dataModel (identifyAll s l)
      /\ onePrimaryPerCluster (rows (identifyAll s l)))
  /\ (forall r now d,
         In (Create d) (callsOf s r now) ->
         (matched s r = [] /\ dLinkPrecedence d = PRIMARY /\ dLinkedId d = None)
         \/ (matched s r <> [] /\ dLinkPrecedence d = SECONDARY
             /\ exists a, In a (rows s) /\ dLinkedId d = Some (id a)))
  /\ (forall r now survivor other others,
         validRequest r = true ->
         matchedPrimaries s r = survivor :: other :: others ->
         In survivor (rows (storeAfter s r now))
         /\ forall o, In o (other :: others) ->
                      In (demoted (id survivor) now o)
                         (rows (storeAfter s r now))).
Proof.
  intros dm one. split; [|split].
  - intros l. now apply identifyAll_preserves.
  - intros r now d. apply creates_by_branch.
  - intros r now survivor other others V H.
    apply merge_demotes_others; [assumption|now apply dm_key|assumption].
Qed.

Lemma one_primary_per_cluster_preserved_witness :
  dataModel emptyStore /\ onePrimaryPerCluster (rows emptyStore)
  /\ dataModel orphanedStore /\ onePrimaryPerCluster (rows orphanedStore)
  /\ dataModel (storeAfter sameEmailStore longPhoneOrder 40)
  /\ onePrimaryPerCluster (rows (storeAfter sameEmailStore longPhoneOrder 40)).
Proof.
  pose proof (wf_dataModel _ emptyStore_wellFormed) as W.
  assert (onePrimaryPerCluster (rows emptyStore)) as O by (intros i []).
  split; [exact W|]. split; [exact O|].
  split; [exact (proj1 (proj1 (one_primary_per_cluster_preserved emptyStore W O)
                          orphaningCalls))|].
  split; [exact (proj2 (proj1 (one_primary_per_cluster_preserved emptyStore W O)
                          orphaningCalls))|].
  assert (dataModel sameEmailStore) as W'.
  { constructor; simpl.
    - repeat constructor; simpl; intuition discriminate.
    - intros c j [<-|[<-|[]]] H; discriminate H.
    - intros c [<-|[<-|[]]] _; reflexivity. }
  assert (onePrimaryPerCluster (rows sameEmailStore)) as O'.
  { assert (forall i j, ~ linked (rows sameEmailStore) i j) as NoLink.
    { intros i j (c & Hc & _ & Hl & _). simpl in Hc.
      destruct Hc as [<-|[<-|[]]]; discriminate Hl. }
    assert (forall i j, sameCluster (rows sameEmailStore) i j -> i = j) as Alone.
    { intros i j C. induction C as [x y S|x|x y C IH|x y z C1 IH1 C2 IH2];
        [now apply NoLink in S|reflexivity|congruence|congruence]. }
    intros i Hi. exists i. split; [|split; [apply rst_refl|]].
    - simpl in Hi. destruct Hi as [<-|[<-|[]]].
      + eexists. split; [left; reflexivity|]. split; reflexivity.
      + eexists. split; [right; left; reflexivity|]. split; reflexivity.
    - intros q _ C. symmetry. now apply Alone. }
  exact (proj1 (one_primary_per_cluster_preserved sameEmailStore W' O')
           [(longPhoneOrder, 40)]).
Defined.

(* ------------------------------------------------------------------------- *)
(** ** The table seen by a repeated call *)


Lemma filter_filter {A} (f g : A -> bool) l :
  filter f (filter g l) = filter (fun x => g x && f x) l.
Proof.
  induction l as [|x l IH]; simpl; [reflexivity|].
  destruct (g x); simpl; [destruct (f x); now rewrite IH|exact IH].
Qed.








Lemma filter_none {A} (f : A -> bool) l :
  (forall x, In x l -> f x = false) -> filter f l = [].
Proof.
  induction l as [|x l IH]; simpl; intros H; [reflexivity|].
  rewrite (H x (or_introl eq_refl)). apply IH. intros y Hy. apply H. now right.
Qed.


Lemma strictEq_refl v : truthy v = true -> strictEq v v = true.
Proof. intros T. now apply strictEq_truthy. Qed.

Lemma matchTest_inserted s r d now :
  validRequest r = true ->
  dEmail d = reqEmail r -> dPhoneNumber d = reqPhoneNumber r ->
  matchTest r (insertedRow s d now) = true.
Proof.
  unfold validRequest, matchTest. intros V He Hp. simpl. rewrite He, Hp.
  destruct (truthy (reqEmail r)) eqn:E.
  - rewrite (strictEq_refl _ E). reflexivity.
  - simpl in V. rewrite V, (strictEq_refl _ V). reflexivity.
Qed.

Lemma nothing_linked_ahead s c :
  schemaConstraints s -> In c (rows s) -> linkedTo (nextId s) c = false.
Proof.
  intros wf Hc. unfold linkedTo. apply orb_false_iff. split.
  - apply Z.eqb_neq. pose proof (sc_sequence s wf c Hc). lia.
  - destruct (linkedId c) as [l|] eqn:L; [|reflexivity].
    apply Z.eqb_neq. intros ->.
    apply (sequence_fresh s wf). now apply (sc_links s wf c).
Qed.















Lemma repeat_on_orphanedStore :
  In (mkRequest (Some "b@x") (Some "3"), 30)%string orphaningCalls
  /\ resultOf (identifyAll emptyStore (firstn 2 orphaningCalls))
              (mkRequest (Some "b@x") (Some "3"))%string 30
     = Ok (mkResponse 2 ["b@x"] ["2"; "3"] [3])%string
  /\ resultOf orphanedStore (mkRequest (Some "b@x") (Some "3"))%string 50
     = Ok (mkResponse 1 ["a@x"; "b@x"] ["1"; "2"; "3"] [2; 4])%string
  /\ map (fun c => (id c, phoneNumber c, email c, linkedId c))
         (rows (storeAfter orphanedStore
                           (mkRequest (Some "b@x") (Some "3"))%string 50))
     = [(1, Some "1", Some "a@x", None);
        (2, Some "2", Some "b@x", Some 1);
        (3, Some "3", Some "b@x", Some 2);
        (4, Some "3", Some "b@x", Some 1)]%string.
Proof.
  split; [simpl; tauto|]. repeat split; reflexivity.
Qed.

(* ------------------------------------------------------------------------- *)
(** ** A PRIMARY that carries a link *)

Lemma sameCluster_invariant {B} (f : Z -> B) t :
  (forall i j, linked t i j -> f i = f j) ->
  forall i j, sameCluster t i j -> f i = f j.
Proof.
  intros H i j C. induction C; [auto|reflexivity|auto|congruence].
Qed.

Lemma linkedPrimaryStore_onePrimary :
  onePrimaryPerCluster (rows linkedPrimaryStore).
Proof.
  assert (forall i j, linked (rows linkedPrimaryStore) i j ->
                      (i =? 2) = (j =? 2)) as Inv.
  { intros i j (c & Hc & <- & Hl & _). simpl in Hc.
    destruct Hc as [<-|[<-|[<-|[]]]]; simpl in Hl; try discriminate.
    now injection Hl as <-. }
  assert (forall q, primaryId (rows linkedPrimaryStore) q -> q = 1 \/ q = 2) as P.
  { intros q (c & Hc & <- & Hp). simpl in Hc.
    destruct Hc as [<-|[<-|[<-|[]]]]; simpl; auto. discriminate. }
  assert (primaryId (rows linkedPrimaryStore) 1) as P1.
  { eexists. split; [left; reflexivity|]. split; reflexivity. }
  assert (primaryId (rows linkedPrimaryStore) 2) as P2.
  { eexists. split; [right; left; reflexivity|]. split; reflexivity. }
  pose proof (sameCluster_invariant (fun i => i =? 2) _ Inv) as Sep.
  cbv beta in Sep.
  intros i Hi. simpl in Hi. destruct Hi as [<-|[<-|[<-|[]]]].
  - exists 1. split; [exact P1|]. split; [apply rst_refl|].
    intros q Pq C. apply P in Pq as [->| ->]; [reflexivity|].
    apply Sep in C. discriminate.
  - exists 2. split; [exact P2|]. split; [apply rst_refl|].
    intros q Pq C. apply P in Pq as [->| ->]; [|reflexivity].
    apply Sep in C. discriminate.
  - exists 1. split; [exact P1|]. split.
    + apply rst_sym, rst_step. eexists. split; [left; reflexivity|].
      split; [reflexivity|]. split; [reflexivity|]. simpl. tauto.
    + intros q Pq C. apply P in Pq as [->| ->]; [reflexivity|].
      apply Sep in C. discriminate.
Qed.

Lemma linkedPrimaryStore_schema : schemaConstraints linkedPrimaryStore.
Proof.
  constructor; simpl.
  - repeat constructor; simpl; intuition discriminate.
  - intros c [<-|[<-|[<-|[]]]]; simpl; lia.
  - intros c j [<-|[<-|[<-|[]]]] H; simpl in H; try discriminate.
    injection H as <-. tauto.
Qed.

(** The rule of the data model that no PRIMARY carries a [linkedId] cannot
    be left out of the invariant.  [linkedPrimaryStore] is a table the schema
    allows and the service never writes; every cluster of it has one
    PRIMARY.  The request merges contacts 1 and 2, the demotion overwrites
    the link from 1 to 3, and contact 3 is left in a cluster without
    PRIMARY. *)
Lemma linked_primary_loses_cluster :
  ~ preservesOnePrimary linkedPrimaryStore linkedPrimaryRequest 20.
Proof.
  intros H. specialize (H linkedPrimaryStore_onePrimary).
  set (t := rows (storeAfter linkedPrimaryStore linkedPrimaryRequest 20)) in *.
  assert (t = [mkContact 1 None (Some "a@x"%string) (Some 2) SECONDARY 10 20 None;
               mkContact 2 (Some "7"%string) None None PRIMARY 5 5 None;
               mkContact 3 None (Some "y@x"%string) None SECONDARY 1 1 None])
    as Et by reflexivity.
  clearbody t. subst t.
  destruct (H 3) as (p & (c & Hc & <- & Hp) & C & _); [simpl; tauto|].
  assert ((3 =? 3) = (id c =? 3)) as E.
  { apply (sameCluster_invariant (fun i => i =? 3) _) with (2 := C).
    intros i j (x & Hx & <- & Hl & _). simpl in Hx.
    destruct Hx as [<-|[<-|[<-|[]]]]; simpl in Hl; try discriminate.
    now injection Hl as <-. }
  simpl in Hc. destruct Hc as [<-|[<-|[<-|[]]]]; discriminate.
Qed.

(* ------------------------------------------------------------------------- *)
(** ** The contact model, query by query *)

Lemma notDeleted_iff c : notDeleted c = true <-> deletedAt c = None.
Proof. unfold notDeleted. destruct (deletedAt c); split; congruence. Qed.

Lemma linkedTo_iff p c :
  linkedTo p c = true <-> id c = p \/ linkedId c = Some p.
Proof.
  unfold linkedTo. rewrite orb_true_iff, Z.eqb_eq.
  destruct (linkedId c) as [l|].
  - rewrite Z.eqb_eq. split; intros [H|H]; auto; right; congruence.
  - split; intros [H|H]; auto; discriminate.
Qed.

Lemma selectByEmailOrPhone_In t e p c :
  In c (selectByEmailOrPhone t e p) <->
  In c t /\ deletedAt c = None
  /\ ((truthy e = true /\ email c = e)
      \/ (truthy p = true /\ phoneNumber c = p)).
Proof.
  rewrite selectByEmailOrPhone_eq.
  destruct (truthy e) eqn:E, (truthy p) eqn:P; simpl;
    rewrite ?orderByCreatedAt_In, ?filter_In, ?andb_true_iff, ?orb_true_iff,
      ?notDeleted_iff, ?(strictEq_truthy _ _ E), ?(strictEq_truthy _ _ P);
    intuition discriminate.
Qed.

Lemma NoDup_filter_list {A} (f : A -> bool) l : NoDup l -> NoDup (filter f l).
Proof.
  induction l as [|x l IH]; simpl; [auto|].
  intros H. inversion H as [|? ? Hx Hl]; subst.
  destruct (f x); [|auto]. constructor; [|auto].
  intros Hin. apply filter_In in Hin as [Hin _]. contradiction.
Qed.

Lemma orderByCreatedAt_NoDup l : NoDup l -> NoDup (orderByCreatedAt l).
Proof.
  intros H. eapply Permutation_NoDup; [|exact H].
  symmetry. apply orderByCreatedAt_Permutation.
Qed.

(** X1.  [findByEmailOrPhone] reads and does not write.  It returns the rows
    that are not soft-deleted and carry the given email or the given phone,
    a value that is missing or the empty string taking no part; ascending in
    [createdAt]; each row as often as the table holds it.  With neither
    value it returns nothing. *)
Theorem findByEmailOrPhone_returns email' phoneNumber' w :
  exists l,
    ContactModel.findByEmailOrPhone email' phoneNumber' w
    = (called (FindByEmailOrPhone email' phoneNumber') w, Ok l)
    /\ (forall c,
           In c l <->
           In c (rows (store w)) /\ deletedAt c = None
           /\ ((truthy email' = true /\ email c = email')
               \/ (truthy phoneNumber' = true /\ phoneNumber c = phoneNumber')))
    /\ ascendingCreatedAt l
    /\ (NoDup (rows (store w)) -> NoDup l)
    /\ (truthy email' = false -> truthy phoneNumber' = false -> l = []).
Proof.
  exists (selectByEmailOrPhone (rows (store w)) email' phoneNumber').
  split; [reflexivity|]. split; [|split; [|split]].
  - intros c. apply selectByEmailOrPhone_In.
  - apply ascending_nth. rewrite selectByEmailOrPhone_eq.
    destruct (_ || _); [apply orderByCreatedAt_ascending|exact I].
  - intros N. rewrite selectByEmailOrPhone_eq.
    destruct (_ || _); [|constructor].
    now apply orderByCreatedAt_NoDup, NoDup_filter_list.
  - intros E P. rewrite selectByEmailOrPhone_eq, E, P. reflexivity.
Qed.

(** X2.  The two values are alternatives: what [findByEmailOrPhone] returns
    for an email and a phone together is what it returns for the email alone
    and what it returns for the phone alone, taken together.  Adding a value
    never narrows the result. *)
Theorem findByEmailOrPhone_is_union t email' phoneNumber' c :
  In c (selectByEmailOrPhone t email' phoneNumber')
  <-> In c (selectByEmailOrPhone t email' None)
      \/ In c (selectByEmailOrPhone t None phoneNumber').
Proof.
  rewrite !selectByEmailOrPhone_In. simpl.
  intuition discriminate.
Qed.

(** X3.  [findLinkedContacts] reads and does not write.  It returns the rows
    that are not soft-deleted and have the given id or the given id as
    [linkedId], ascending in [createdAt]; for a NULL id it returns nothing.
    It goes one level deep: a row linked to a returned row is not returned
    for that. *)
Theorem findLinkedContacts_returns primaryId' w :
  exists l,
    ContactModel.findLinkedContacts primaryId' w
    = (called (FindLinkedContacts primaryId') w, Ok l)
    /\ (forall c,
           In c l <->
           exists p, primaryId' = Some p /\ In c (rows (store w))
                     /\ deletedAt c = None
                     /\ (id c = p \/ linkedId c = Some p))
    /\ ascendingCreatedAt l
    /\ (forall c d p,
           primaryId' = Some p -> linkedId c = Some (id d) ->
           id c <> p -> id d <> p -> ~ In c l).
Proof.
  exists (selectLinked (rows (store w)) primaryId').
  assert (forall c,
             In c (selectLinked (rows (store w)) primaryId') <->
             exists p, primaryId' = Some p /\ In c (rows (store w))
                       /\ deletedAt c = None
                       /\ (id c = p \/ linkedId c = Some p)) as Char.
  { intros c. destruct primaryId' as [p|].
    - rewrite selectLinked_In, notDeleted_iff, linkedTo_iff. split.
      + intros H. exists p. tauto.
      + intros (q & E & H). injection E as <-. tauto.
    - simpl. split; [intros []|intros (q & E & _); discriminate]. }
  split; [reflexivity|]. split; [exact Char|]. split.
  - apply ascending_nth, selectLinked_ascending.
  - intros c d p E Hl Nc Nd Hin. apply Char in Hin as (q & Eq & _ & _ & H).
    rewrite E in Eq. injection Eq as <-.
    destruct H as [H|H]; [contradiction|]. rewrite Hl in H. congruence.
Qed.

(** X4.  [create] makes one call and ends in one of two ways.  It throws
    the error of the engine, and then the rows are as they were; or it
    returns the row it appended as the last row of the table.  That row has
    an id no row had, values within the widths of the columns, which are the
    values given when these are within the widths, and a [linkedId] that
    names a row of the table.  The queries find it at once: by its id, and
    by its email or phone when these are non-empty; with ids below the
    sequence, [findLinkedContacts] for its id returns it alone.  It returns
    a row exactly when the values can be stored, the next id is free and the
    [linkedId] is NULL, the id of a row or the next id. *)
Theorem create_then_find d now w :
  let w' := fst (ContactModel.create d now w) in
  let outcome := snd (ContactModel.create d now w) in
  calls w' = calls w ++ [Create d]
  /\ (forall e, outcome = Thrown e ->
                e = DatabaseError /\ rows (store w') = rows (store w)
                /\ nextId (store w) <= nextId (store w') <= nextId (store w) + 1)
  /\ (forall c,
         outcome = Ok c ->
         store w' = mkStore (rows (store w) ++ [c]) (nextId (store w) + 1)
         /\ ~ In (id c) (map id (rows (store w)))
         /\ within 20 (phoneNumber c) /\ within 255 (email c)
         /\ (within 20 (dPhoneNumber d) -> phoneNumber c = dPhoneNumber d)
         /\ (within 255 (dEmail d) -> email c = dEmail d)
         /\ (forall j, linkedId c = Some j -> In j (map id (rows (store w'))))
         /\ In c (selectLinked (rows (store w')) (Some (id c)))
         /\ (truthy (email c) = true ->
             In c (selectByEmailOrPhone (rows (store w')) (email c) None))
         /\ (truthy (phoneNumber c) = true ->
             In c (selectByEmailOrPhone (rows (store w')) None (phoneNumber c)))
         /\ (schemaConstraints (store w) ->
             selectLinked (rows (store w')) (Some (id c)) = [c]))
  /\ ((exists c, outcome = Ok c)
      <-> storable d = true
          /\ ~ In (nextId (store w)) (map id (rows (store w)))
          /\ forall j, dLinkedId d = Some j ->
                       In j (map id (rows (store w))) \/ j = nextId (store w))
  /\ (within 20 (dPhoneNumber d) -> within 255 (dEmail d) -> storable d = true).
Proof.
  intros w' outcome. unfold w', outcome. clear w' outcome.
  rewrite create_run. cbn [fst snd store calls].
  split; [reflexivity|]. split; [|split; [|split]].
  - intros e E.
    destruct (accepted (store w) d) eqn:A.
    + apply (accepted_snd _ _ now) in A as (c & X). rewrite X in E. discriminate.
    + destruct (insertInto_refused (store w) d now A) as (X & R & N).
      rewrite X in E. injection E as <-. auto.
  - intros c E.
    destruct (accepted (store w) d) eqn:A.
    2:{ destruct (insertInto_refused (store w) d now A) as (X & _).
        rewrite X in E. discriminate. }
    destruct (insertInto_accepted (store w) d now A) as (d' & Sd & I & F & T).
    unfold afterInsert. rewrite I in *. cbn [fst snd] in *. injection E as <-.
    destruct (storedData_shape d d' Sd) as (Vp & Ve & Ld & Pd).
    set (c := insertedRow (store w) d' now).
    assert (In c (rows (store w) ++ [c])) as Last
        by (apply in_or_app; right; now left).
    split; [reflexivity|]. split; [exact F|].
    split; [|split; [|split; [|split; [|split; [|split; [|split; [|split]]]]]]].
    + intros x Ex. now destruct (varchar_stored 20 _ _ x Vp Ex).
    + intros x Ex. now destruct (varchar_stored 255 _ _ x Ve Ex).
    + intros W. rewrite (varchar_fits 20 _ W) in Vp. cbn. congruence.
    + intros W. rewrite (varchar_fits 255 _ W) in Ve. cbn. congruence.
    + intros j Ej. cbn in Ej. rewrite Ld in Ej. cbn [rows insertRow].
      rewrite map_app, in_app_iff. destruct (T j Ej) as [X| ->];
        [now left|right; now left].
    + apply selectLinked_In. split; [exact Last|].
      split; [reflexivity|]. apply linkedTo_iff. now left.
    + intros Tr. apply selectByEmailOrPhone_In.
      split; [exact Last|]. split; [reflexivity|]. left. now split.
    + intros Tr. apply selectByEmailOrPhone_In.
      split; [exact Last|]. split; [reflexivity|]. right. now split.
    + intros S. cbn [rows insertRow]. fold c. unfold selectLinked.
      rewrite filter_app, filter_none.
      * simpl. unfold linkedTo. now rewrite Z.eqb_refl.
      * intros x Hx. change (id c) with (nextId (store w)).
        rewrite (nothing_linked_ahead (store w) x S Hx). apply andb_false_r.
  - rewrite <- keyFree_iff, <- accepted_iff. split.
    + intros (c & E). apply (accepted_snd _ _ now).
      destruct (snd (insertInto (store w) d now)) as [c0|]; [|discriminate].
      now exists c0.
    + intros A. apply (accepted_snd _ _ now) in A as (c & ->). now exists c.
  - intros P E. unfold storable. now rewrite storedData_fits.
Qed.

(** X5.  [updateLinkPrecedence] throws "not found" exactly when no row that
    is not soft-deleted has the given id, a soft-deleted row not being
    found; it throws the error of the engine exactly when such a row is
    there and the id to link to is the id of no row.  These are its only
    failures, and after either the table is as it was. *)
Theorem updateLinkPrecedence_not_found id' linkedId' now w :
  let outcome := snd (ContactModel.updateLinkPrecedence id' linkedId' now w) in
  (outcome = Thrown NotFoundError
   <-> forall c, In c (rows (store w)) -> id c = id' -> deletedAt c <> None)
  /\ (outcome = Thrown DatabaseError
      <-> (exists c, In c (rows (store w)) /\ id c = id' /\ deletedAt c = None)
          /\ ~ In linkedId' (map id (rows (store w))))
  /\ (forall e,
         outcome = Thrown e ->
         (e = NotFoundError \/ e = DatabaseError)
         /\ store (fst (ContactModel.updateLinkPrecedence id' linkedId' now w))
            = store w).
Proof.
  intros outcome. unfold outcome. clear outcome.
  unfold ContactModel.updateLinkPrecedence.
  assert (forall c, In c (filter (updateTarget id') (rows (store w)))
                    <-> In c (rows (store w)) /\ id c = id'
                        /\ deletedAt c = None) as Live.
  { intros c. rewrite filter_In. unfold updateTarget.
    rewrite andb_true_iff, Z.eqb_eq, notDeleted_iff. tauto. }
  destruct (filter (updateTarget id') (rows (store w))) as [|c m] eqn:F;
    cbn [fst snd store called].
  - assert (forall c, In c (rows (store w)) -> id c = id' -> deletedAt c <> None)
      as None_live.
    { intros c Hc Hi Hd. apply (Live c). auto. }
    split; [tauto|]. split.
    + split; [discriminate|]. intros ((c & Hc & Hi & Hd) & _).
      exfalso. now apply (None_live c).
    + intros e E. injection E as <-. auto.
  - assert (In c (rows (store w)) /\ id c = id' /\ deletedAt c = None) as Hc
        by (apply Live; now left).
    pose proof (references_iff (rows (store w)) linkedId') as Ref.
    destruct (references (rows (store w)) (Some linkedId')) eqn:R;
      cbn [fst snd store called].
    + split.
      * split; [discriminate|]. intros H. exfalso.
        destruct Hc as (Hin & Hi & Hd). now apply (H c).
      * split; [|discriminate].
        split; [discriminate|]. intros (_ & N). exfalso. apply N.
        now apply Ref.
    + split.
      * split; [discriminate|]. intros H. exfalso.
        destruct Hc as (Hin & Hi & Hd). now apply (H c).
      * split.
        -- split; [|reflexivity]. intros _. split; [now exists c|].
           intros X. apply Ref in X. discriminate.
        -- intros e E. injection E as <-. auto.
Qed.

(** X6.  When [updateLinkPrecedence] succeeds, the table keeps its length
    and its ids; the contact it returns has the given id, is SECONDARY,
    linked to the given contact, and [findLinkedContacts] for that contact
    returns it from then on, together with every id it returned before. *)
Theorem updateLinkPrecedence_then_find id' linkedId' now w w' c :
  ContactModel.updateLinkPrecedence id' linkedId' now w = (w', Ok c) ->
  map id (rows (store w')) = map id (rows (store w))
  /\ nextId (store w') = nextId (store w)
  /\ id c = id' /\ linkPrecedence c = SECONDARY
  /\ linkedId c = Some linkedId' /\ updatedAt c = now
  /\ In c (selectLinked (rows (store w')) (Some linkedId'))
  /\ forall c0, In c0 (selectLinked (rows (store w)) (Some linkedId')) ->
                In (id c0) (map id (selectLinked (rows (store w'))
                                                 (Some linkedId'))).
Proof.
  unfold ContactModel.updateLinkPrecedence.
  destruct (filter (updateTarget id') (rows (store w))) as [|c1 m] eqn:F;
    [discriminate|].
  destruct (references (rows (store w)) (Some linkedId')); [|discriminate].
  intros E. injection E as <- <-. cbn [store rows nextId called].
  assert (In c1 (filter (updateTarget id') (rows (store w)))) as X
      by (rewrite F; now left).
  apply filter_In in X as [Hc T]. pose proof T as T'.
  unfold updateTarget in T'. apply andb_true_iff in T' as [Hi Hd].
  apply Z.eqb_eq in Hi.
  split; [apply updateRows_ids|]. split; [reflexivity|].
  split; [exact Hi|]. split; [reflexivity|]. split; [reflexivity|].
  split; [reflexivity|]. split.
  - apply selectLinked_In. split; [|split].
    + unfold updateRows. apply in_map_iff. exists c1. split; [|assumption].
      unfold updateRow. now rewrite T.
    + exact Hd.
    + apply linkedTo_iff. now right.
  - intros c0 H0. apply selectLinked_In in H0 as (Hin & Hd0 & Hl0).
    apply in_map_iff. exists (updateRow id' linkedId' now c0).
    split; [apply updateRow_id|]. apply selectLinked_In. split; [|split].
    + unfold updateRows. now apply in_map.
    + now rewrite updateRow_notDeleted.
    + unfold updateRow. destruct (updateTarget id' c0); [|assumption].
      apply linkedTo_iff. now right.
Qed.

Lemma updateLinkPrecedence_then_find_witness :
  exists w' c,
    ContactModel.updateLinkPrecedence 2 1 40 (mkWorld twoCustomers [])
    = (w', Ok c)
    /\ c = demoted 1 40 customer2
    /\ In c (selectLinked (rows (store w')) (Some 1)).
Proof.
  eexists. eexists. split; [reflexivity|]. split; [reflexivity|].
  apply (updateLinkPrecedence_then_find 2 1 40 (mkWorld twoCustomers []) _ _
           eq_refl).
Defined.

(* ------------------------------------------------------------------------- *)
(** ** The service, call by call *)

Lemma selfLinks_demotions l : selfLinks l = selfLinks (demotions l).
Proof.
  unfold selfLinks, demotions. rewrite filter_filter. apply filter_ext.
  intros [| | |i j]; reflexivity.
Qed.

(** X7.  With unique ids, no call of [identify] ever asks for a contact to
    be linked to itself: in every [updateLinkPrecedence] call of a run the
    two ids differ. *)
Theorem identify_never_links_to_itself s r now :
  uniqueIds s -> selfLinks (callsOf s r now) = [].
Proof.
  intros U. rewrite selfLinks_demotions.
  destruct (identify_cases s r now)
    as [(_ & _ & _ & E)|[(V & Em & _ & _ & E)|[(_ & _ & _ & _ & _ & _ & D & _)|
        [(a & _ & _ & _ & _ & _ & _ & D & _)|
         (p & q & ps & V & Ep & _ & _ & D & _)]]]].
  - now rewrite E.
  - now rewrite E.
  - now rewrite D.
  - now rewrite D.
  - rewrite D. pose proof (matchedPrimaries_uniqueIds s r U) as N.
    rewrite Ep in N. simpl in N. inversion N as [|? ? Hp _]; subst.
    unfold selfLinks. apply filter_none. intros c Hc.
    apply in_map_iff in Hc as (o & <- & Ho). apply Z.eqb_neq. intros E.
    apply Hp. rewrite <- E. now apply (in_map id (q :: ps)).
Qed.

Lemma identify_never_links_to_itself_witness :
  selfLinks (callsOf twoCustomers joiningRequest 40) = []
  /\ demotions (callsOf twoCustomers joiningRequest 40)
     = [UpdateLinkPrecedence 2 1].
Proof.
  split; [|reflexivity].
  apply (identify_never_links_to_itself twoCustomers joiningRequest 40).
  unfold uniqueIds. simpl. repeat constructor; simpl; intuition discriminate.
Defined.

(** The [INSERT]s of a call carry the request's values, and the table
    refuses them for a value too long or for the next id being taken, never
    for the link. *)
Lemma identify_inserts s r now d :
  In (Create d) (callsOf s r now) ->
  dPhoneNumber d = reqPhoneNumber r /\ dEmail d = reqEmail r
  /\ exists s1,
       map id (rows s1) = map id (rows s) /\ nextId s1 = nextId s
       /\ accepted s1 d = storable d && keyFree s
       /\ storeAfter s r now = afterInsert s1 d now
       /\ (accepted s1 d = false -> resultOf s r now = Thrown DatabaseError).
Proof.
  intros H.
  destruct (identify_cases s r now)
    as [(_ & _ & _ & C)|[(_ & Em & S & R & C)|[(_ & _ & _ & _ & _ & _ & _ & C)|
        [(a & _ & Hne & _ & Ha & S & R & _ & C)|
         (p & q & ps & _ & Ep & S & R & _ & C)]]]].
  - rewrite C in H. destruct H.
  - rewrite C in H. destruct H as [H|[H|[]]]; [discriminate|].
    injection H as <-. split; [reflexivity|]. split; [reflexivity|].
    exists s. split; [reflexivity|]. split; [reflexivity|].
    split; [now apply accepted_unlinked|]. split; [exact S|].
    intros A. rewrite R.
    now rewrite (proj1 (insertInto_refused s _ now A)).
  - now apply C in H.
  - destruct (C d H) as [-> N]. split; [reflexivity|]. split; [reflexivity|].
    exists s. split; [reflexivity|]. split; [reflexivity|].
    split.
    { apply (accepted_linked s _ (id a)); [reflexivity|].
      apply in_map. now apply anchorOf_row with r. }
    split.
    { rewrite S. unfold linkedStore. now rewrite N. }
    intros A. rewrite R. unfold linkRefused. now rewrite N, A.
  - destruct (C d H) as [-> N]. split; [reflexivity|]. split; [reflexivity|].
    exists (demotedStore s now p (q :: ps)).
    assert (map id (rows (demotedStore s now p (q :: ps))) = map id (rows s))
      as Ids by (unfold demotedStore; cbn [rows]; apply demoteAll_ids).
    split; [exact Ids|]. split; [reflexivity|].
    split.
    { rewrite <- (keyFree_same s (demotedStore s now p (q :: ps)) Ids eq_refl).
      apply (accepted_linked _ _ (id p)); [reflexivity|].
      rewrite Ids. apply in_map. apply (matchedPrimaries_rows s r).
      rewrite Ep. now left. }
    split.
    { rewrite S. unfold mergedStore. now rewrite N. }
    intros A. rewrite R. unfold mergeRefused. now rewrite N, A.
Qed.

Lemma storable_fits r l p :
  fitsColumns r ->
  storable (mkData (reqPhoneNumber r) (reqEmail r) l p) = true.
Proof.
  intros [P E]. unfold storable. now rewrite storedData_fits.
Qed.

(** X8.  A request that matches nothing makes two calls, the search and
    the insertion of a PRIMARY without link.  The table takes the row unless
    a value is too long for its column or the next id is taken; the call
    then ends in the error of the engine and the rows are as they were.
    Otherwise the table grows by that one row, which carries the request's
    email and phone when these are within the widths of the columns, and the
    view names it as primary, lists its non-empty email and phone and no
    secondary. *)
Theorem first_contact_becomes_primary s r now :
  validRequest r = true -> matched s r = [] ->
  let d := mkData (reqPhoneNumber r) (reqEmail r) None PRIMARY in
  callsOf s r now
  = [FindByEmailOrPhone (reqEmail r) (reqPhoneNumber r); Create d]
  /\ accepted s d = storable d && keyFree s
  /\ (accepted s d = false ->
      resultOf s r now = Thrown DatabaseError
      /\ rows (storeAfter s r now) = rows s)
  /\ (accepted s d = true ->
      exists c,
        storeAfter s r now = mkStore (rows s ++ [c]) (nextId s + 1)
        /\ id c = nextId s /\ linkPrecedence c = PRIMARY /\ linkedId c = None
        /\ createdAt c = now /\ deletedAt c = None
        /\ resultOf s r now
           = Ok (mkResponse (nextId s) (present email [c])
                            (present phoneNumber [c]) [])
        /\ (fitsColumns r ->
            email c = reqEmail r /\ phoneNumber c = reqPhoneNumber r))
  /\ (fitsColumns r -> storable d = true).
Proof.
  intros V Em d. unfold storeAfter, resultOf, callsOf.
  rewrite (identify_no_match s r now V Em). cbn [fst snd store calls]. fold d.
  split; [reflexivity|]. split; [now apply accepted_unlinked|].
  split; [|split; [|apply storable_fits]].
  - intros A. destruct (insertInto_refused s d now A) as (X & R & _).
    rewrite X. split; [reflexivity|exact R].
  - intros A. destruct (insertInto_accepted s d now A) as (d' & Sd & I & _).
    unfold afterInsert. rewrite I. cbn [fst snd].
    destruct (storedData_shape d d' Sd) as (Vp & Ve & Ld & Pd).
    cbn [d dLinkedId dLinkPrecedence dPhoneNumber dEmail] in Vp, Ve, Ld, Pd.
    exists (insertedRow s d' now). split; [reflexivity|].
    split; [reflexivity|]. split; [exact Pd|]. split; [exact Ld|].
    split; [reflexivity|]. split; [reflexivity|]. split.
    + unfold viewOfNew, present. simpl. rewrite !app_nil_r. reflexivity.
    + intros [P E]. rewrite (varchar_fits 20 _ P) in Vp.
      rewrite (varchar_fits 255 _ E) in Ve. cbn. split; congruence.
Qed.

Lemma first_contact_becomes_primary_witness :
  (exists c,
      storeAfter emptyStore (mkRequest (Some "a@x") None)%string 10
      = mkStore [c] 2
      /\ email c = Some "a@x"%string /\ phoneNumber c = None
      /\ linkPrecedence c = PRIMARY)
  /\ resultOf emptyStore
              (mkRequest None (Some "123456789012345678901"))%string 10
     = Thrown DatabaseError.
Proof.
  split.
  - destruct (first_contact_becomes_primary
                emptyStore (mkRequest (Some "a@x") None)%string 10
                eq_refl eq_refl) as (_ & _ & _ & Ins & _).
    destruct (Ins eq_refl) as (c & S & _ & P & _ & _ & _ & _ & F).
    exists c. split; [exact S|].
    assert (fitsColumns (mkRequest (Some "a@x") None)%string) as Fit.
    { split; intros x E; [discriminate E|].
      injection E as <-. simpl. lia. }
    destruct (F Fit) as [E Ph]. auto.
  - destruct (first_contact_becomes_primary
                emptyStore
                (mkRequest None (Some "123456789012345678901"))%string 10
                eq_refl eq_refl) as (_ & _ & Ref & _).
    exact (proj1 (Ref eq_refl)).
Defined.

(** The failures of a call, and where each comes from. *)
Lemma thrown_cases s r now e :
  resultOf s r now = Thrown e ->
  (e = ValidationError /\ validRequest r = false)
  \/ (e = TypeError /\ validRequest r = true /\ matched s r <> [])
  \/ (e = DatabaseError /\ validRequest r = true
      /\ exists d,
           In (Create d) (callsOf s r now)
           /\ dPhoneNumber d = reqPhoneNumber r /\ dEmail d = reqEmail r
           /\ (storable d = false \/ keyFree s = false)).
Proof.
  intros R.
  assert (forall d s1, In (Create d) (callsOf s r now) ->
                       accepted s1 d = storable d && keyFree s ->
                       accepted s1 d = false ->
                       validRequest r = true ->
                       e = DatabaseError ->
                       e = DatabaseError /\ validRequest r = true
                       /\ exists d,
                            In (Create d) (callsOf s r now)
                            /\ dPhoneNumber d = reqPhoneNumber r
                            /\ dEmail d = reqEmail r
                            /\ (storable d = false \/ keyFree s = false)) as Db.
  { intros d s1 Hd A F V ->. split; [reflexivity|]. split; [assumption|].
    exists d. split; [assumption|].
    destruct (identify_inserts s r now d Hd) as (P & E & _).
    split; [assumption|]. split; [assumption|].
    rewrite A in F. apply andb_false_iff in F. exact F. }
  destruct (identify_cases s r now)
    as [(V & _ & E & _)|[(V & Em & _ & E & C)|[(V & Hne & _ & _ & _ & E & _)|
        [(a & V & Hne & Hlen & Ha & _ & E & _ & C)|
         (p & q & ps & V & Ep & _ & E & _ & C)]]]];
    rewrite E in R.
  - left. split; congruence.
  - right. right.
    set (d := mkData (reqPhoneNumber r) (reqEmail r) None PRIMARY) in *.
    assert (In (Create d) (callsOf s r now)) as Hd
        by (rewrite C; right; now left).
    destruct (accepted s d) eqn:A.
    + apply (accepted_snd _ _ now) in A as (c & X). rewrite X in R.
      discriminate.
    + apply (Db d s Hd); auto; [now apply accepted_unlinked|].
      rewrite (proj1 (insertInto_refused s d now A)) in R. congruence.
  - right. left. split; [congruence|auto].
  - right. unfold linkRefused in R.
    destruct (IdentityService.needsNewSecondaryContact
                (selectLinked (rows s) (Some (id a))) r) eqn:N; cbn [andb] in R.
    + destruct (accepted s (IdentityService.secondaryFor r (id a))) eqn:A;
        cbn [negb] in R.
      * left. split; [now apply responseFor_outcome in R|auto].
      * right.
        assert (In (Create (IdentityService.secondaryFor r (id a)))
                   (callsOf s r now)) as Hd.
        { pose proof (identify_direct s r now V Hne Hlen) as D.
          rewrite Ha in D. destruct D as (log & E' & _ & C1 & _).
          unfold callsOf. rewrite E'. cbn [fst calls]. now apply C1. }
        apply (Db _ s Hd); auto; [|congruence].
        apply (accepted_linked s _ (id a)); [reflexivity|].
        apply in_map. now apply anchorOf_row with r.
    + left. split; [now apply responseFor_outcome in R|auto].
  - right.
    assert (matched s r <> []) as Hne.
    { intros Em. unfold matchedPrimaries in Ep. rewrite Em in Ep. discriminate. }
    unfold mergeRefused in R.
    destruct (IdentityService.isRequestCoveredByContacts (p :: q :: ps) r) eqn:N;
      cbn [negb andb] in R.
    + left. split; [now apply responseFor_outcome in R|auto].
    + set (d := IdentityService.secondaryFor r (id p)) in *.
      set (s1 := demotedStore s now p (q :: ps)) in *.
      destruct (accepted s1 d) eqn:A; cbn [negb] in R.
      * left. split; [now apply responseFor_outcome in R|auto].
      * right.
        destruct (identify_merge s r now p q ps V Ep)
          as (log & E' & _ & _ & C2 & _).
        assert (In (Create d) (callsOf s r now)) as Hd.
        { unfold callsOf. rewrite E'. cbn [fst calls]. now apply C2. }
        apply (Db d s1 Hd); auto; [|congruence].
        destruct (identify_inserts s r now d Hd)
          as (_ & _ & s1' & _ & _ & _ & _).
        assert (map id (rows s1) = map id (rows s)) as Ids
            by (unfold s1, demotedStore; cbn [rows]; apply demoteAll_ids).
        rewrite <- (keyFree_same s s1 Ids eq_refl).
        apply (accepted_linked _ _ (id p)); [reflexivity|].
        rewrite Ids. apply in_map. apply (matchedPrimaries_rows s r).
        rewrite Ep. now left.
Qed.



Lemma responseFor_answers t p c :
  In c t -> notDeleted c = true -> id c = p -> linkPrecedence c = PRIMARY ->
  exists v, responseFor t p = Ok v.
Proof.
  intros Hin Hd Hi Hp.
  destruct (find isPrimary (selectLinked t (Some p))) as [x|] eqn:F.
  - destruct (responseFor_with_primary t p x F) as (v & E & _). now exists v.
  - exfalso. assert (isPrimary c = false) as X.
    { apply (proj1 (find_None_iff _ _) F). apply selectLinked_In.
      split; [assumption|]. split; [assumption|]. apply linkedTo_iff. now left. }
    apply isPrimary_iff in Hp. congruence.
Qed.

Lemma linkedStore_rows s r now a c :
  In c (rows s) -> In c (rows (linkedStore s r now a)).
Proof.
  intros H. destruct (linkedStore_shape s r now a) as [->| ->];
    [assumption|now apply afterInsert_keeps].
Qed.

(** X10.  With unique ids, the next id free and the request's values within
    the widths of the columns, a call returns a view whenever its request is
    valid and matches nothing or matches at least one PRIMARY.  The
    TypeError is left to requests all of whose matches are SECONDARY. *)
Theorem identify_answers_when_primary_matched s r now :
  uniqueIds s -> ~ In (nextId s) (map id (rows s)) -> fitsColumns r ->
  validRequest r = true ->
  matched s r = [] \/ matchedPrimaries s r <> [] ->
  exists v, resultOf s r now = Ok v.
Proof.
  intros U Free Fit V H.
  destruct (resultOf s r now) as [v|e] eqn:R; [now exists v|]. exfalso.
  destruct (thrown_cases s r now e R)
    as [(_ & V')|[(-> & _ & Hne)|(_ & _ & d & _ & P & E & [S|K])]].
  - congruence.
  - destruct H as [H|H]; [contradiction|].
    destruct (identify_cases s r now)
      as [(V' & _)|[(_ & Em & _)|[(_ & _ & _ & Ha & _)|
          [(a & _ & _ & Hlen & Ha & _ & E & _)|
           (p & q & ps & _ & Ep & S & E & _)]]]].
    + congruence.
    + contradiction.
    + unfold anchorOf in Ha. now destruct (matchedPrimaries s r).
    + rewrite E in R. destruct (linkRefused s r a); [discriminate|].
      unfold anchorOf in Ha.
      destruct (matchedPrimaries s r) as [|p ps] eqn:Ep; [congruence|].
      injection Ha as <-.
      assert (In p (matchedPrimaries s r)) as Hp by (rewrite Ep; now left).
      apply matchedPrimaries_In in Hp as [Hm Hp].
      apply matched_In in Hm as (Hin & Hd & _).
      destruct (responseFor_answers (rows (linkedStore s r now p)) (id p) p)
        as (v & X); auto; [now apply linkedStore_rows|now apply isPrimary_iff|].
      congruence.
    + rewrite E in R. destruct (mergeRefused s r now p (q :: ps)); [discriminate|].
      destruct (merge_demotes_others s r now p q ps V U Ep) as [Hin _].
      rewrite S in Hin.
      assert (In p (matchedPrimaries s r)) as Hp by (rewrite Ep; now left).
      apply matchedPrimaries_In in Hp as [Hm Hp].
      apply matched_In in Hm as (_ & Hd & _).
      destruct (responseFor_answers
                  (rows (mergedStore s r now p (q :: ps))) (id p) p)
        as (v & X); auto; [now apply isPrimary_iff|]. congruence.
  - assert (storable d = true) as X.
    { destruct d as [dp de dl dk]. cbn in P, E. subst dp de.
      now apply storable_fits. }
    congruence.
  - apply keyFree_iff in Free. congruence.
Qed.

Lemma identify_answers_when_primary_matched_witness :
  exists v, resultOf twoCustomers joiningRequest 40 = Ok v.
Proof.
  apply (identify_answers_when_primary_matched twoCustomers joiningRequest 40).
  - unfold uniqueIds. simpl. repeat constructor; simpl; intuition discriminate.
  - simpl. intuition discriminate.
  - split; intros x E; injection E as <-; simpl; lia.
  - reflexivity.
  - right. discriminate.
Defined.

Lemma demoteAll_length t others p n :
  List.length (demoteAll t others p n) = List.length t.
Proof. rewrite demoteAll_map. apply length_map. Qed.

(** X11.  A call never removes a row and never touches the [id], [email],
    [phoneNumber], [createdAt] or [deletedAt] of a row it found in the
    table: every row of the table before has its row in the table after.  A
    row that is PRIMARY after the call is the row as it was: nothing is ever
    promoted.  Every row of the table after is the row of one that was there
    before, or the one row the call inserted, which has the next id.  The
    table grows by at most one row and the sequence by at most one. *)
Theorem identify_keeps_contact_data s r now :
  (forall c, In c (rows s) ->
     exists c',
       In c' (rows (storeAfter s r now))
       /\ id c' = id c /\ email c' = email c /\ phoneNumber c' = phoneNumber c
       /\ createdAt c' = createdAt c /\ deletedAt c' = deletedAt c
       /\ (linkPrecedence c' = PRIMARY -> c' = c))
  /\ (forall c', In c' (rows (storeAfter s r now)) ->
        (exists c,
            In c (rows s)
            /\ id c' = id c /\ email c' = email c
            /\ phoneNumber c' = phoneNumber c
            /\ createdAt c' = createdAt c /\ deletedAt c' = deletedAt c
            /\ (linkPrecedence c' = PRIMARY -> c' = c))
        \/ (id c' = nextId s /\ createdAt c' = now /\ deletedAt c' = None
            /\ exists d, In (Create d) (callsOf s r now)
                         /\ linkedId c' = dLinkedId d
                         /\ linkPrecedence c' = dLinkPrecedence d))
  /\ (List.length (rows s) <= List.length (rows (storeAfter s r now))
      <= S (List.length (rows s)))%nat
  /\ nextId s <= nextId (storeAfter s r now) <= nextId s + 1.
Proof.
  assert (forall s1 d,
             List.length (rows s1) = List.length (rows s) ->
             nextId s1 = nextId s ->
             (List.length (rows s) <= List.length (rows (afterInsert s1 d now))
              <= S (List.length (rows s)))%nat
             /\ nextId s <= nextId (afterInsert s1 d now) <= nextId s + 1)
    as Grow.
  { intros s1 d L N.
    destruct (afterInsert_shape s1 d now)
      as [(_ & d' & _ & -> & _)|(_ & E & B)].
    - unfold insertRow. cbn [rows nextId]. rewrite length_app. simpl. lia.
    - rewrite E. lia. }
  assert (forall c c' : Contact, c' = c ->
             id c' = id c /\ email c' = email c
             /\ phoneNumber c' = phoneNumber c
             /\ createdAt c' = createdAt c /\ deletedAt c' = deletedAt c
             /\ (linkPrecedence c' = PRIMARY -> c' = c)) as Same
      by (intros c c' ->; auto 10).
  assert (forall p others c,
             let c' := if demotedBy others c then demoted p now c else c in
             id c' = id c /\ email c' = email c
             /\ phoneNumber c' = phoneNumber c
             /\ createdAt c' = createdAt c /\ deletedAt c' = deletedAt c
             /\ (linkPrecedence c' = PRIMARY -> c' = c)) as Dem.
  { intros p others c. cbv zeta. destruct (demotedBy others c); [|auto 10].
    repeat (split; [reflexivity|]). discriminate. }
  assert (forall s1 d,
             nextId s1 = nextId s ->
             In (Create d) (callsOf s r now) ->
             (forall c, In c (rows s) ->
                exists c', In c' (rows s1)
                  /\ id c' = id c /\ email c' = email c
                  /\ phoneNumber c' = phoneNumber c
                  /\ createdAt c' = createdAt c /\ deletedAt c' = deletedAt c
                  /\ (linkPrecedence c' = PRIMARY -> c' = c)) ->
             (forall c', In c' (rows s1) ->
                exists c, In c (rows s)
                  /\ id c' = id c /\ email c' = email c
                  /\ phoneNumber c' = phoneNumber c
                  /\ createdAt c' = createdAt c /\ deletedAt c' = deletedAt c
                  /\ (linkPrecedence c' = PRIMARY -> c' = c)) ->
             (forall c, In c (rows s) ->
                exists c', In c' (rows (afterInsert s1 d now))
                  /\ id c' = id c /\ email c' = email c
                  /\ phoneNumber c' = phoneNumber c
                  /\ createdAt c' = createdAt c /\ deletedAt c' = deletedAt c
                  /\ (linkPrecedence c' = PRIMARY -> c' = c))
             /\ (forall c', In c' (rows (afterInsert s1 d now)) ->
                   (exists c, In c (rows s)
                      /\ id c' = id c /\ email c' = email c
                      /\ phoneNumber c' = phoneNumber c
                      /\ createdAt c' = createdAt c
                      /\ deletedAt c' = deletedAt c
                      /\ (linkPrecedence c' = PRIMARY -> c' = c))
                   \/ (id c' = nextId s /\ createdAt c' = now
                       /\ deletedAt c' = None
                       /\ exists d, In (Create d) (callsOf s r now)
                                    /\ linkedId c' = dLinkedId d
                                    /\ linkPrecedence c' = dLinkPrecedence d)))
    as Ins.
  { intros s1 d N Hd Fwd Bwd. split.
    - intros c Hc. destruct (Fwd c Hc) as (c' & Hc' & Rest).
      exists c'. split; [now apply afterInsert_keeps|exact Rest].
    - intros c' Hc'.
      apply afterInsert_In in Hc' as [Hc'|(I & L & P & De & Cr & _)].
      + left. now apply Bwd.
      + right. rewrite <- N. split; [assumption|]. split; [assumption|].
        split; [assumption|]. exists d. auto. }
  assert (forall p others,
             (forall c, In c (rows s) ->
                exists c', In c' (rows (demotedStore s now p others))
                  /\ id c' = id c /\ email c' = email c
                  /\ phoneNumber c' = phoneNumber c
                  /\ createdAt c' = createdAt c /\ deletedAt c' = deletedAt c
                  /\ (linkPrecedence c' = PRIMARY -> c' = c))
             /\ (forall c', In c' (rows (demotedStore s now p others)) ->
                   exists c, In c (rows s)
                     /\ id c' = id c /\ email c' = email c
                     /\ phoneNumber c' = phoneNumber c
                     /\ createdAt c' = createdAt c
                     /\ deletedAt c' = deletedAt c
                     /\ (linkPrecedence c' = PRIMARY -> c' = c))) as Demoted.
  { intros p others. unfold demotedStore. cbn [rows]. rewrite demoteAll_map.
    split.
    - intros c Hc. eexists. split; [apply in_map; exact Hc|]. apply Dem.
    - intros c' Hc'. apply in_map_iff in Hc' as (c & <- & Hc).
      exists c. split; [assumption|]. apply Dem. }
  assert ((forall c, In c (rows s) ->
             exists c', In c' (rows s)
               /\ id c' = id c /\ email c' = email c
               /\ phoneNumber c' = phoneNumber c
               /\ createdAt c' = createdAt c /\ deletedAt c' = deletedAt c
               /\ (linkPrecedence c' = PRIMARY -> c' = c))
          /\ (forall c', In c' (rows s) ->
                exists c, In c (rows s)
                  /\ id c' = id c /\ email c' = email c
                  /\ phoneNumber c' = phoneNumber c
                  /\ createdAt c' = createdAt c /\ deletedAt c' = deletedAt c
                  /\ (linkPrecedence c' = PRIMARY -> c' = c))) as Id.
  { split; intros c Hc; exists c; (split; [assumption|now apply Same]). }
  destruct (identify_cases s r now)
    as [(_ & S & _)|[(_ & _ & S & _ & C)|[(_ & _ & _ & _ & S & _)|
        [(a & V & Hne & Hlen & Ha & S & _)|
         (p & q & ps & V & Ep & S & _)]]]]; rewrite S.
  - destruct Id as [F B]. split; [exact F|]. split; [|lia].
    intros c' Hc'. left. now apply B.
  - destruct Id as [F B].
    assert (In (Create (mkData (reqPhoneNumber r) (reqEmail r) None PRIMARY))
               (callsOf s r now)) as Hd by (rewrite C; right; now left).
    destruct (Ins s _ eq_refl Hd F B) as [F' B'].
    split; [exact F'|]. split; [exact B'|]. now apply Grow.
  - destruct Id as [F B]. split; [exact F|]. split; [|lia].
    intros c' Hc'. left. now apply B.
  - destruct Id as [F B]. unfold linkedStore.
    destruct (IdentityService.needsNewSecondaryContact
                (selectLinked (rows s) (Some (id a))) r) eqn:N.
    + assert (In (Create (IdentityService.secondaryFor r (id a)))
                 (callsOf s r now)) as Hd.
      { pose proof (identify_direct s r now V Hne Hlen) as D. rewrite Ha in D.
        destruct D as (log & E & _ & C1 & _). unfold callsOf. rewrite E.
        cbn [fst calls]. now apply C1. }
      destruct (Ins s _ eq_refl Hd F B) as [F' B'].
      split; [exact F'|]. split; [exact B'|]. now apply Grow.
    + split; [exact F|]. split; [|lia].
      intros c' Hc'. left. now apply B.
  - destruct (Demoted p (q :: ps)) as [F B].
    assert (List.length (rows (demotedStore s now p (q :: ps)))
            = List.length (rows s)) as L
        by (unfold demotedStore; cbn [rows]; apply demoteAll_length).
    unfold mergedStore.
    destruct (IdentityService.isRequestCoveredByContacts (p :: q :: ps) r) eqn:N.
    + split; [exact F|]. split; [|rewrite L; cbn [demotedStore nextId]; lia].
      intros c' Hc'. left. now apply B.
    + assert (In (Create (IdentityService.secondaryFor r (id p)))
                 (callsOf s r now)) as Hd.
      { destruct (identify_merge s r now p q ps V Ep)
          as (log & E & _ & _ & C2 & _).
        unfold callsOf. rewrite E. cbn [fst calls]. now apply C2. }
      destruct (Ins (demotedStore s now p (q :: ps)) _ eq_refl Hd F B)
        as [F' B'].
      split; [exact F'|]. split; [exact B'|]. now apply Grow.
Qed.

Lemma identify_keeps_contact_data_witness :
  exists c',
    In c' (rows (storeAfter twoCustomers joiningRequest 40))
    /\ id c' = 2 /\ email c' = Some "b@x"%string /\ createdAt c' = 20.
Proof.
  destruct (identify_keeps_contact_data twoCustomers joiningRequest 40)
    as (Keep & _).
  destruct (Keep customer2) as (c' & N & Hi & He & _ & Hc & _);
    [simpl; tauto|].
  exists c'. auto.
Defined.

(* ------------------------------------------------------------------------- *)
(** ** The constraints of the table, call by call *)

(** X12.  A call keeps the table within the constraints of the schema and of
    the data model, whatever its clusters look like and whether it returns a
    view or fails: ids stay unique and below the sequence, every [linkedId]
    names a row of the table, and no PRIMARY carries a [linkedId].  So does
    every sequence of calls. *)
Theorem identify_keeps_table_constraints s l :
  wellFormed s -> wellFormed (identifyAll s l).
Proof.
  revert s. induction l as [|[r now] l IH]; intros s wf; simpl; [exact wf|].
  apply IH. now apply storeAfter_wellFormed.
Qed.

Lemma identify_keeps_table_constraints_witness : wellFormed orphanedStore.
Proof.
  apply (identify_keeps_table_constraints emptyStore orphaningCalls).
  apply emptyStore_wellFormed.
Defined.

(* ------------------------------------------------------------------------- *)
(** ** The two coverage tests *)

Lemma existsb_incl {A} (f : A -> bool) l l' :
  (forall x, In x l -> In x l') -> existsb f l = true -> existsb f l' = true.
Proof.
  intros H E. apply existsb_exists in E as (x & Hx & Fx).
  apply existsb_exists. exists x. auto.
Qed.

Lemma needsNewSecondaryContact_covered contacts r :
  validRequest r = true ->
  IdentityService.needsNewSecondaryContact contacts r = false ->
  IdentityService.isRequestCoveredByContacts contacts r = true.
Proof.
  unfold validRequest, IdentityService.needsNewSecondaryContact,
    IdentityService.isRequestCoveredByContacts.
  destruct (existsb (fun contact =>
                       strictEq (email contact) (reqEmail r)
                       && strictEq (phoneNumber contact) (reqPhoneNumber r))
                    contacts) eqn:X.
  - apply existsb_exists in X as (m & Hin & Hm).
    apply andb_true_iff in Hm as [He Hp].
    assert (existsb (fun c => strictEq (email c) (reqEmail r)) contacts = true)
      as E1 by (apply existsb_exists; now exists m).
    assert (existsb (fun c => strictEq (phoneNumber c) (reqPhoneNumber r))
                    contacts = true)
      as E2 by (apply existsb_exists; now exists m).
    rewrite E1, E2.
    destruct (truthy (reqEmail r)), (truthy (reqPhoneNumber r));
      cbn [andb orb negb]; auto.
  - destruct (truthy (reqEmail r)), (truthy (reqPhoneNumber r));
      cbn [andb orb negb]; try discriminate; intros _ H;
      now apply negb_false_iff in H.
Qed.

(** X13.  The test of the direct branch is the stricter of the two: whenever
    [needsNewSecondaryContact] finds a valid request recorded in a list of
    contacts, [isRequestCoveredByContacts] finds it covered by that list.
    The converse fails: an email on one contact and a phone on another cover
    the request and still call for a new secondary. *)
Theorem exact_pair_test_is_stricter :
  (forall contacts r,
      validRequest r = true ->
      IdentityService.isRequestCoveredByContacts contacts r = false ->
      IdentityService.needsNewSecondaryContact contacts r = true)
  /\ (exists contacts r,
         validRequest r = true
         /\ IdentityService.isRequestCoveredByContacts contacts r = true
         /\ IdentityService.needsNewSecondaryContact contacts r = true).
Proof.
  split.
  - intros contacts r V C.
    destruct (IdentityService.needsNewSecondaryContact contacts r) eqn:N;
      [reflexivity|].
    rewrite (needsNewSecondaryContact_covered contacts r V N) in C.
    discriminate.
  - exists [customer1; customer2], joiningRequest. repeat split.
Qed.

(** X14.  Both tests only ever relax when contacts are added: a request
    covered by a list of contacts is covered by every list that contains it,
    and a request that needs no new secondary for a list needs none for a
    list that contains it. *)
Theorem coverage_grows_with_contacts contacts contacts' r :
  (forall c, In c contacts -> In c contacts') ->
  (IdentityService.isRequestCoveredByContacts contacts r = true ->
   IdentityService.isRequestCoveredByContacts contacts' r = true)
  /\ (IdentityService.needsNewSecondaryContact contacts r = false ->
      IdentityService.needsNewSecondaryContact contacts' r = false).
Proof.
  intros Sub.
  assert (forall f, existsb f contacts = true -> existsb f contacts' = true)
    as Mono by (intros f; now apply existsb_incl).
  split.
  - unfold IdentityService.isRequestCoveredByContacts.
    destruct (truthy (reqEmail r)), (truthy (reqPhoneNumber r));
      cbn [andb orb negb]; auto.
    rewrite !andb_true_iff. intros [A B]. split; now apply Mono.
  - unfold IdentityService.needsNewSecondaryContact.
    destruct (existsb (fun contact =>
                         strictEq (email contact) (reqEmail r)
                         && strictEq (phoneNumber contact) (reqPhoneNumber r))
                      contacts) eqn:X.
    + intros _. now rewrite (Mono _ X).
    + destruct (existsb (fun contact =>
                           strictEq (email contact) (reqEmail r)
                           && strictEq (phoneNumber contact) (reqPhoneNumber r))
                        contacts'); [reflexivity|].
      destruct (truthy (reqEmail r)), (truthy (reqPhoneNumber r));
        cbn [andb orb negb]; auto; rewrite !negb_false_iff; apply Mono.
Qed.

Lemma coverage_grows_with_contacts_witness :
  IdentityService.needsNewSecondaryContact [customer2; customer3]
    (mkRequest (Some "b@x") (Some "3"))%string = false.
Proof.
  apply (coverage_grows_with_contacts [customer3] [customer2; customer3]
           (mkRequest (Some "b@x") (Some "3"))%string).
  - intros c [<-|[]]. right. now left.
  - reflexivity.
Defined.

(* ------------------------------------------------------------------------- *)
(** ** What a view holds *)

Section ViewOfWellFormed.

Variables (t : list Contact) (root : Z) (v : IdentifyResponseBody).
Hypothesis unique : NoDup (map id t).
Hypothesis unlinked :
  forall c, In c t -> linkPrecedence c = PRIMARY -> linkedId c = None.
Hypothesis answered : responseFor t root = Ok v.

Lemma view_primary :
  exists primary,
    find isPrimary (selectLinked t (Some root)) = Some primary
    /\ In primary t /\ notDeleted primary = true
    /\ linkPrecedence primary = PRIMARY /\ id primary = root
    /\ viewOf primary (filter isSecondary (selectLinked t (Some root))) v.
Proof.
  destruct (responseFor_view t root v answered) as (primary & F & V).
  exists primary. split; [exact F|].
  apply find_some in F as [Hin Hp]. apply isPrimary_iff in Hp.
  apply selectLinked_In in Hin as (Hin & Hd & Hl).
  repeat (split; [assumption|]). split; [|exact V].
  apply linkedTo_iff in Hl as [Hl|Hl]; [exact Hl|].
  rewrite (unlinked primary Hin Hp) in Hl. discriminate.
Qed.

Lemma view_member m :
  In m t -> notDeleted m = true -> linkedTo root m = true ->
  exists primary,
    viewOf primary (filter isSecondary (selectLinked t (Some root))) v
    /\ In m (primary :: filter isSecondary (selectLinked t (Some root))).
Proof.
  intros Hin Hd Hl.
  destruct view_primary as (primary & _ & Pin & _ & Pp & Pid & V).
  exists primary. split; [exact V|].
  destruct (linkPrecedence m) eqn:L.
  - left. apply (unique_row t); auto.
    apply linkedTo_iff in Hl as [Hl|Hl]; [congruence|].
    rewrite (unlinked m Hin L) in Hl. discriminate.
  - right. apply filter_In. split; [|now apply isSecondary_iff].
    apply selectLinked_In. auto.
Qed.

Lemma view_lists_email m x :
  In m t -> notDeleted m = true -> linkedTo root m = true ->
  email m = Some x -> x <> EmptyString -> In x (emails v).
Proof.
  intros Hin Hd Hl E N.
  destruct (view_member m Hin Hd Hl) as (primary & V & M).
  destruct V as (_ & _ & [_ Ve] & _). apply Ve. split; [assumption|].
  now exists m.
Qed.

Lemma view_lists_phone m x :
  In m t -> notDeleted m = true -> linkedTo root m = true ->
  phoneNumber m = Some x -> x <> EmptyString -> In x (phoneNumbers v).
Proof.
  intros Hin Hd Hl E N.
  destruct (view_member m Hin Hd Hl) as (primary & V & M).
  destruct V as (_ & _ & _ & [_ Vp] & _). apply Vp. split; [assumption|].
  now exists m.
Qed.

Lemma view_secondaries :
  primaryContactId v = root
  /\ (forall i, In i (secondaryContactIds v) ->
                exists m, In m t /\ id m = i /\ linkPrecedence m = SECONDARY
                          /\ linkedId m = Some root /\ deletedAt m = None)
  /\ NoDup (secondaryContactIds v)
  /\ ~ In root (secondaryContactIds v).
Proof.
  destruct view_primary as (primary & _ & Pin & _ & Pp & Pid & V).
  destruct V as (Vp & Vs & _). rewrite Vs.
  assert (forall m, In m (filter isSecondary (selectLinked t (Some root))) ->
                    In m t /\ linkPrecedence m = SECONDARY
                    /\ linkedId m = Some root /\ deletedAt m = None) as Sec.
  { intros m Hm. apply filter_In in Hm as [Hm Hs]. apply isSecondary_iff in Hs.
    apply selectLinked_In in Hm as (Hin & Hd & Hl).
    split; [assumption|]. split; [assumption|].
    split; [|now apply notDeleted_iff].
    apply linkedTo_iff in Hl as [Hl|Hl]; [|assumption].
    assert (m = primary) as -> by (apply (unique_row t); auto; congruence).
    congruence. }
  split; [congruence|]. split; [|split].
  - intros i Hi. apply in_map_iff in Hi as (m & <- & Hm).
    exists m. destruct (Sec m Hm) as (? & ? & ? & ?). auto.
  - apply NoDup_map_filter. simpl.
    eapply Permutation_NoDup.
    + apply Permutation_map. symmetry. apply orderByCreatedAt_Permutation.
    + now apply NoDup_map_filter.
  - intros Hi. apply in_map_iff in Hi as (m & E & Hm).
    destruct (Sec m Hm) as (Hin & Hs & _).
    assert (m = primary) as -> by (apply (unique_row t); auto; congruence).
    congruence.
Qed.

End ViewOfWellFormed.

Lemma coveredPerField_of_needs contacts r :
  validRequest r = true ->
  IdentityService.needsNewSecondaryContact contacts r = false ->
  coveredPerField contacts r.
Proof.
  intros V N. apply (isRequestCoveredByContacts_spec contacts r V).
  now apply needsNewSecondaryContact_covered.
Qed.

Lemma varchar_value n v v' :
  varchar n v = Some v' -> v' = option_map (firstChars n) v.
Proof.
  destruct v as [y|]; simpl.
  - destruct (onlySpaces (charsAfter n y)); [|discriminate]. congruence.
  - congruence.
Qed.

Lemma firstChars_nonempty n v :
  v <> EmptyString -> firstChars (S n) v <> EmptyString.
Proof. destruct v; simpl; [congruence|discriminate]. Qed.

(** The row an accepted [INSERT] adds holds the values given, cut to the
    widths of the columns. *)
Lemma inserted_row_stored s d now :
  accepted s d = true ->
  exists d',
    storedData d = Some d' /\ afterInsert s d now = insertRow s d' now
    /\ snd (insertInto s d now) = Some (insertedRow s d' now)
    /\ In (insertedRow s d' now) (rows (afterInsert s d now))
    /\ email (insertedRow s d' now) = option_map (firstChars 255) (dEmail d)
    /\ phoneNumber (insertedRow s d' now)
       = option_map (firstChars 20) (dPhoneNumber d)
    /\ linkedId (insertedRow s d' now) = dLinkedId d
    /\ linkPrecedence (insertedRow s d' now) = dLinkPrecedence d.
Proof.
  intros A. destruct (insertInto_accepted s d now A) as (d' & S & I & _).
  exists d'. destruct (storedData_shape d d' S) as (Vp & Ve & L & P).
  split; [assumption|]. unfold afterInsert. rewrite I. cbn [fst snd].
  split; [reflexivity|]. split; [reflexivity|].
  split; [unfold insertRow; cbn [rows]; apply in_or_app; right; now left|].
  split; [exact (varchar_value _ _ _ Ve)|].
  split; [exact (varchar_value _ _ _ Vp)|]. auto.
Qed.

Lemma inserted_secondary_linked s r a now :
  accepted s (IdentityService.secondaryFor r a) = true ->
  exists n,
    In n (rows (afterInsert s (IdentityService.secondaryFor r a) now))
    /\ notDeleted n = true /\ linkedTo a n = true
    /\ email n = option_map (firstChars 255) (reqEmail r)
    /\ phoneNumber n = option_map (firstChars 20) (reqPhoneNumber r).
Proof.
  intros A.
  destruct (inserted_row_stored s _ now A)
    as (d' & _ & _ & _ & Hin & He & Hp & Hl & _).
  exists (insertedRow s d' now). split; [assumption|].
  split; [reflexivity|]. split; [|split; assumption].
  apply linkedTo_iff. right. exact Hl.
Qed.

(** The member of the answered cluster that carries a field of the
    request, in the table a call of the direct or the merge branch leaves
    when it returns. *)
Lemma request_member s r now :
  wellFormed s -> validRequest r = true -> matched s r <> [] ->
  forall root,
    (exists a, (List.length (matchedPrimaries s r) <= 1)%nat
               /\ anchorOf s r = Some a /\ id a = root
               /\ linkRefused s r a = false
               /\ storeAfter s r now = linkedStore s r now a)
    \/ (exists survivor other others,
           matchedPrimaries s r = survivor :: other :: others
           /\ id survivor = root
           /\ mergeRefused s r now survivor (other :: others) = false
           /\ storeAfter s r now
              = mergedStore s r now survivor (other :: others)) ->
    (truthy (reqEmail r) = true ->
     exists m, In m (rows (storeAfter s r now)) /\ notDeleted m = true
               /\ linkedTo root m = true
               /\ (email m = reqEmail r
                   \/ email m = option_map (firstChars 255) (reqEmail r)))
    /\ (truthy (reqPhoneNumber r) = true ->
        exists m, In m (rows (storeAfter s r now)) /\ notDeleted m = true
                  /\ linkedTo root m = true
                  /\ (phoneNumber m = reqPhoneNumber r
                      \/ phoneNumber m
                         = option_map (firstChars 20) (reqPhoneNumber r))).
Proof.
  intros wf V Hne root
         [(a & Hlen & Ha & <- & Rf & S)|(p & q & ps & Ep & <- & Rf & S)].
  - rewrite S. unfold linkedStore. unfold linkRefused in Rf.
    destruct (IdentityService.needsNewSecondaryContact
                (selectLinked (rows s) (Some (id a))) r) eqn:N.
    + cbn [andb] in Rf. apply negb_false_iff in Rf.
      destruct (inserted_secondary_linked s r (id a) now Rf)
        as (n & Hin & Hd & Hl & He & Hp).
      split; intros _; exists n; auto.
    + destruct (coveredPerField_of_needs _ r V N) as [Ce Cp].
      split; intros T.
      * destruct (Ce T) as (m & Hm & E).
        apply selectLinked_In in Hm as (Hin & Hd & Hl). exists m. auto.
      * destruct (Cp T) as (m & Hm & E).
        apply selectLinked_In in Hm as (Hin & Hd & Hl). exists m. auto.
  - destruct (merge_demotes_others s r now p q ps V (wf_unique s wf) Ep)
      as [Sin Oin].
    rewrite S in Sin, Oin. rewrite S.
    assert (forall o, In o (matchedPrimaries s r) -> notDeleted o = true)
      as Live.
    { intros o Ho. apply matchedPrimaries_In in Ho as [Ho _].
      now apply matched_In in Ho. }
    rewrite Ep in Live.
    assert (forall field : Contact -> option string,
               (forall o, field (demoted (id p) now o) = field o) ->
               forall x y, (exists o, In o (p :: q :: ps) /\ field o = x) ->
               exists m,
                 In m (rows (mergedStore s r now p (q :: ps)))
                 /\ notDeleted m = true /\ linkedTo (id p) m = true
                 /\ (field m = x \/ field m = y)) as Old.
    { intros field Keep x y (o & [<-|Ho] & E).
      - exists p. split; [assumption|]. split; [apply Live; now left|].
        split; [apply linkedTo_iff; now left|now left].
      - exists (demoted (id p) now o). split; [now apply Oin|].
        split; [apply (Live o); now right|].
        split; [apply linkedTo_iff; now right|]. left. now rewrite Keep. }
    unfold mergeRefused in Rf.
    destruct (IdentityService.isRequestCoveredByContacts (p :: q :: ps) r) eqn:C.
    + apply (isRequestCoveredByContacts_spec _ r V) in C as [Ce Cp].
      split; intros T.
      * apply (Old email); [reflexivity|]. now apply Ce.
      * apply (Old phoneNumber); [reflexivity|]. now apply Cp.
    + cbn [negb andb] in Rf. apply negb_false_iff in Rf.
      unfold mergedStore. rewrite C.
      destruct (inserted_secondary_linked
                  (demotedStore s now p (q :: ps)) r (id p) now Rf)
        as (n & Hin & Hd & Hl & He & Hp).
      split; intros _; exists n; auto.
Qed.

(** X15.  On a table within its constraints, every view a call returns
    holds what the request supplied, as the table holds it.  A non-empty
    email of the request that is within the width of the column is among
    [emails], and a non-empty phone within the width of its column is among
    [phoneNumbers].  A longer value that the table took, its excess being
    spaces only, is in the view as given or cut to the width of the
    column. *)
Theorem view_holds_the_request s r now v :
  wellFormed s -> resultOf s r now = Ok v ->
  (forall e, reqEmail r = Some e -> e <> EmptyString ->
             (In e (emails v) \/ In (firstChars 255 e) (emails v))
             /\ ((String.length e <= 255)%nat -> In e (emails v)))
  /\ (forall p, reqPhoneNumber r = Some p -> p <> EmptyString ->
                (In p (phoneNumbers v) \/ In (firstChars 20 p) (phoneNumbers v))
                /\ ((String.length p <= 20)%nat -> In p (phoneNumbers v))).
Proof.
  intros wf R.
  assert ((forall e, reqEmail r = Some e -> e <> EmptyString ->
                     In e (emails v) \/ In (firstChars 255 e) (emails v))
          /\ (forall p, reqPhoneNumber r = Some p -> p <> EmptyString ->
                        In p (phoneNumbers v)
                        \/ In (firstChars 20 p) (phoneNumbers v))) as [He Hp].
  2:{ split; intros x E N.
      - split; [now apply He|]. intros L.
        destruct (He x E N) as [H|H]; [assumption|].
        now rewrite (firstChars_fits 255 x L) in H.
      - split; [now apply Hp|]. intros L.
        destruct (Hp x E N) as [H|H]; [assumption|].
        now rewrite (firstChars_fits 20 x L) in H. }
  pose proof (storeAfter_wellFormed s r now wf) as wf1.
  assert (forall root,
             responseFor (rows (storeAfter s r now)) root = Ok v ->
             ((truthy (reqEmail r) = true ->
               exists m, In m (rows (storeAfter s r now)) /\ notDeleted m = true
                         /\ linkedTo root m = true
                         /\ (email m = reqEmail r
                             \/ email m
                                = option_map (firstChars 255) (reqEmail r)))
              /\ (truthy (reqPhoneNumber r) = true ->
                  exists m, In m (rows (storeAfter s r now))
                            /\ notDeleted m = true /\ linkedTo root m = true
                            /\ (phoneNumber m = reqPhoneNumber r
                                \/ phoneNumber m
                                   = option_map (firstChars 20)
                                                (reqPhoneNumber r)))) ->
             (forall e, reqEmail r = Some e -> e <> EmptyString ->
                        In e (emails v) \/ In (firstChars 255 e) (emails v))
             /\ (forall p, reqPhoneNumber r = Some p -> p <> EmptyString ->
                           In p (phoneNumbers v)
                           \/ In (firstChars 20 p) (phoneNumbers v))) as Fetch.
  { intros root A [Me Mp]. split.
    - intros e E N. destruct Me as (m & Hin & Hd & Hl & Hm).
      { rewrite E. now apply truthy_Some. }
      rewrite E in Hm. cbn [option_map] in Hm. destruct Hm as [Hm|Hm].
      + left.
        apply (view_lists_email _ root v (wf_unique _ wf1) (wf_primary _ wf1)
                                A m); auto.
      + right.
        apply (view_lists_email _ root v (wf_unique _ wf1) (wf_primary _ wf1)
                                A m); auto.
        now apply firstChars_nonempty.
    - intros p E N. destruct Mp as (m & Hin & Hd & Hl & Hm).
      { rewrite E. now apply truthy_Some. }
      rewrite E in Hm. cbn [option_map] in Hm. destruct Hm as [Hm|Hm].
      + left.
        apply (view_lists_phone _ root v (wf_unique _ wf1) (wf_primary _ wf1)
                                A m); auto.
      + right.
        apply (view_lists_phone _ root v (wf_unique _ wf1) (wf_primary _ wf1)
                                A m); auto.
        now apply firstChars_nonempty. }
  destruct (identify_cases s r now)
    as [(_ & _ & E & _)|[(V & Em & _ & E & _)|[(_ & _ & _ & _ & _ & E & _)|
        [(a & V & Hne & Hlen & Ha & S & E & _)|
         (p & q & ps & V & Ep & S & E & _)]]]].
  - congruence.
  - rewrite E in R.
    destruct (accepted s (mkData (reqPhoneNumber r) (reqEmail r) None PRIMARY))
      eqn:A.
    + destruct (inserted_row_stored s _ now A)
        as (d' & _ & _ & I & _ & Ie & Ip & _).
      rewrite I in R. injection R as <-.
      unfold viewOfNew. cbn [emails phoneNumbers dEmail dPhoneNumber] in *.
      rewrite Ie, Ip. split.
      * intros e Ee N. right. rewrite Ee. cbn [option_map].
        assert (truthy (Some (firstChars 255 e)) = true) as ->
            by now apply truthy_Some, firstChars_nonempty.
        now left.
      * intros p Ee N. right. rewrite Ee. cbn [option_map].
        assert (truthy (Some (firstChars 20 p)) = true) as ->
            by now apply truthy_Some, firstChars_nonempty.
        now left.
    + rewrite (proj1 (insertInto_refused s _ now A)) in R. discriminate.
  - congruence.
  - rewrite E in R. destruct (linkRefused s r a) eqn:Rf; [discriminate|].
    apply (Fetch (id a)); [rewrite S; congruence|].
    apply (request_member s r now wf V Hne). left. exists a. auto.
  - rewrite E in R.
    destruct (mergeRefused s r now p (q :: ps)) eqn:Rf; [discriminate|].
    apply (Fetch (id p)); [rewrite S; congruence|].
    apply (request_member s r now wf V).
    + intros Em. unfold matchedPrimaries in Ep. rewrite Em in Ep. discriminate.
    + right. exists p, q, ps. auto.
Qed.

Lemma view_holds_the_request_witness :
  In "a@x"%string (emails (mkResponse 1 ["a@x"; "b@x"] ["1"; "2"] [2])%string)
  /\ In "2"%string
        (phoneNumbers (mkResponse 1 ["a@x"; "b@x"] ["1"; "2"] [2])%string).
Proof.
  assert (wellFormed twoCustomers) as W.
  { apply identifyAll_wellFormed. apply emptyStore_wellFormed. }
  destruct (view_holds_the_request twoCustomers joiningRequest 40
              (mkResponse 1 ["a@x"; "b@x"] ["1"; "2"] [2])%string W eq_refl)
    as [He Hp].
  split.
  - apply (He "a@x"%string); [reflexivity|discriminate|simpl; lia].
  - apply (Hp "2"%string); [reflexivity|discriminate|simpl; lia].
Defined.

(** X16.  On a table within its constraints, a view names as primary a
    contact of the table that is PRIMARY, not soft-deleted and without
    link; every id among [secondaryContactIds] is that of a SECONDARY
    contact of the table, not soft-deleted, whose [linkedId] is the view's
    primary; no id is listed twice and the primary's id is not among
    them. *)
Theorem view_names_primary_and_its_secondaries s r now v :
  wellFormed s -> resultOf s r now = Ok v ->
  (exists p, In p (rows (storeAfter s r now)) /\ id p = primaryContactId v
             /\ linkPrecedence p = PRIMARY /\ linkedId p = None
             /\ deletedAt p = None)
  /\ (forall i, In i (secondaryContactIds v) ->
                exists m, In m (rows (storeAfter s r now)) /\ id m = i
                          /\ linkPrecedence m = SECONDARY
                          /\ linkedId m = Some (primaryContactId v)
                          /\ deletedAt m = None)
  /\ NoDup (secondaryContactIds v)
  /\ ~ In (primaryContactId v) (secondaryContactIds v).
Proof.
  intros wf R.
  pose proof (storeAfter_wellFormed s r now wf) as wf1.
  assert (forall root,
             responseFor (rows (storeAfter s r now)) root = Ok v ->
             (exists p, In p (rows (storeAfter s r now))
                        /\ id p = primaryContactId v
                        /\ linkPrecedence p = PRIMARY /\ linkedId p = None
                        /\ deletedAt p = None)
             /\ (forall i, In i (secondaryContactIds v) ->
                           exists m, In m (rows (storeAfter s r now)) /\ id m = i
                                     /\ linkPrecedence m = SECONDARY
                                     /\ linkedId m = Some (primaryContactId v)
                                     /\ deletedAt m = None)
             /\ NoDup (secondaryContactIds v)
             /\ ~ In (primaryContactId v) (secondaryContactIds v)) as Fetch.
  { intros root A.
    destruct (view_primary _ root v (wf_primary _ wf1) A)
      as (p & _ & Pin & Pd & Pp & Pid & _).
    destruct (view_secondaries _ root v (wf_unique _ wf1) (wf_primary _ wf1) A)
      as (Vp & Vs & Vn & Vr).
    rewrite Vp. split; [|auto].
    exists p. repeat (split; [assumption|]).
    split; [now apply (wf_primary _ wf1)|now apply notDeleted_iff]. }
  destruct (identify_cases s r now)
    as [(_ & _ & E & _)|[(V & Em & S & E & _)|[(_ & _ & _ & _ & _ & E & _)|
        [(a & V & Hne & Hlen & Ha & S & E & _)|
         (p & q & ps & V & Ep & S & E & _)]]]].
  - congruence.
  - rewrite E in R.
    destruct (accepted s (mkData (reqPhoneNumber r) (reqEmail r) None PRIMARY))
      eqn:A.
    + destruct (inserted_row_stored s _ now A)
        as (d' & _ & _ & I & Hin & _ & _ & Il & Ip).
      rewrite I in R. injection R as <-. rewrite S.
      unfold viewOfNew. cbn [primaryContactId secondaryContactIds].
      split; [|split; [|split]].
      * exists (insertedRow s d' now). split; [assumption|].
        split; [reflexivity|]. split; [exact Ip|]. split; [exact Il|].
        reflexivity.
      * intros i [].
      * constructor.
      * intros [].
    + rewrite (proj1 (insertInto_refused s _ now A)) in R. discriminate.
  - congruence.
  - rewrite E in R. destruct (linkRefused s r a); [discriminate|].
    apply (Fetch (id a)). rewrite S. congruence.
  - rewrite E in R. destruct (mergeRefused s r now p (q :: ps)); [discriminate|].
    apply (Fetch (id p)). rewrite S. congruence.
Qed.

Lemma view_names_primary_and_its_secondaries_witness :
  exists m, In m (rows (storeAfter twoCustomers joiningRequest 40))
            /\ id m = 2 /\ linkPrecedence m = SECONDARY
            /\ linkedId m = Some 1.
Proof.
  assert (wellFormed twoCustomers) as W.
  { apply identifyAll_wellFormed. apply emptyStore_wellFormed. }
  destruct (view_names_primary_and_its_secondaries twoCustomers joiningRequest
              40 (mkResponse 1 ["a@x"; "b@x"] ["1"; "2"] [2])%string W eq_refl)
    as (_ & Sec & _).
  destruct (Sec 2 (or_introl eq_refl)) as (m & Hin & Hi & Hs & Hl & _).
  exists m. auto.
Defined.

(* ------------------------------------------------------------------------- *)
(** ** The order of a view's arrays *)

Section FirstSeen.

Variable field : Contact -> option string.

Let step := fun (s : list string) (c : Contact) =>
              IdentityService.addIfTruthy s (field c).

Let notIn (init : list string) (y : string) : bool :=
  negb (existsb (String.eqb y) init).

Lemma fold_add_firstSeen l : forall init,
  fold_left step l init
  = init ++ filter (notIn init) (firstSeen (present field l)).
Proof.
  induction l as [|c l IH]; intros init.
  - simpl. now rewrite app_nil_r.
  - cbn [fold_left]. rewrite IH. unfold step at 1 2.
    unfold present. cbn [flat_map]. fold (present field l).
    unfold IdentityService.addIfTruthy.
    destruct (field c) as [v|] eqn:F; [|reflexivity].
    destruct (truthy (Some v)); [|reflexivity].
    cbn [app firstSeen filter]. unfold IdentityService.setAdd.
    destruct (existsb (String.eqb v) init) eqn:E.
    + assert (notIn init v = false) as -> by (unfold notIn; now rewrite E).
      f_equal. rewrite filter_filter. apply filter_ext. intros y.
      destruct (String.eqb v y) eqn:Evy; cbn [negb andb]; [|reflexivity].
      apply String.eqb_eq in Evy. subst y. unfold notIn. now rewrite E.
    + assert (notIn init v = true) as -> by (unfold notIn; now rewrite E).
      rewrite <- app_assoc. cbn [app]. f_equal. f_equal.
      rewrite filter_filter. apply filter_ext. intros y. unfold notIn.
      rewrite existsb_app. cbn [existsb].
      rewrite orb_false_r, negb_orb, (String.eqb_sym v y). apply andb_comm.
Qed.

Lemma collect_firstSeen primary secondaries :
  IdentityService.collect field primary secondaries
  = firstSeen (present field (primary :: secondaries)).
Proof.
  unfold IdentityService.collect.
  change (fold_left (fun s c => IdentityService.addIfTruthy s (field c))
                    secondaries (IdentityService.addIfTruthy [] (field primary)))
    with (fold_left step (primary :: secondaries) []).
  rewrite fold_add_firstSeen. cbn [app].
  rewrite filter_ext with (g := fun _ => true) by reflexivity.
  induction (firstSeen (present field (primary :: secondaries)))
    as [|x l IH]; simpl; [reflexivity|now rewrite IH].
Qed.

End FirstSeen.

(** X17.  [buildResponse] reads and does not write, and its arrays are in
    first-seen order: [emails] is the list of the non-empty emails of the
    PRIMARY it found followed by those of the SECONDARY rows in the order of
    the query, with every repetition after the first left out, and likewise
    [phoneNumbers]. *)
Theorem buildResponse_first_seen_order primaryContactId' w v :
  snd (IdentityService.buildResponse primaryContactId' w) = Ok v ->
  fst (IdentityService.buildResponse primaryContactId' w)
  = called (FindLinkedContacts (Some primaryContactId')) w
  /\ exists primary,
       find isPrimary
            (selectLinked (rows (store w)) (Some primaryContactId'))
       = Some primary
       /\ let members :=
            primary :: filter isSecondary
                              (selectLinked (rows (store w))
                                            (Some primaryContactId')) in
          emails v = firstSeen (present email members)
          /\ phoneNumbers v = firstSeen (present phoneNumber members).
Proof.
  rewrite buildResponse_run. cbn [fst snd]. intros R.
  split; [reflexivity|]. revert R.
  unfold responseFor, IdentityService.buildResponse, bind,
    ContactModel.findLinkedContacts. cbn [store rows fst snd].
  destruct (find isPrimary (selectLinked (rows (store w))
                                         (Some primaryContactId')))
    as [primary|]; [|discriminate].
  unfold ret. cbn [snd]. intros E. injection E as <-.
  exists primary. split; [reflexivity|]. cbn [emails phoneNumbers].
  rewrite !ensureFirst_id, !collect_firstSeen. split; reflexivity.
Qed.

Lemma buildResponse_first_seen_order_witness :
  emails (mkResponse 1 ["a@x"; "b@x"] ["1"; "2"; "3"] [2; 3])%string
  = firstSeen ["a@x"; "b@x"; "b@x"]%string.
Proof.
  destruct (buildResponse_first_seen_order 1
              (mkWorld (mkStore [customer1; demoted 1 40 customer2;
                                 mkContact 3 (Some "3"%string)
                                           (Some "b@x"%string) (Some 1)
                                           SECONDARY 30 30 None] 4) [])
              (mkResponse 1 ["a@x"; "b@x"] ["1"; "2"; "3"] [2; 3])%string
              eq_refl)
    as (_ & primary & F & E & _).
  injection F as <-. exact E.
Defined.

(* ------------------------------------------------------------------------- *)
(** ** The swap that brings the primary's value to the front *)

Lemma indexOf_In l v :
  In v l -> exists k, IdentityService.indexOf l v = Some k
                      /\ nth_error l k = Some v.
Proof.
  induction l as [|x l IH]; [intros []|]. intros H. simpl.
  destruct (String.eqb x v) eqn:E.
  - apply String.eqb_eq in E. subst. now exists O.
  - destruct H as [->|H]; [rewrite String.eqb_refl in E; discriminate|].
    destruct (IH H) as (k & Ik & Nk). exists (S k). rewrite Ik. now split.
Qed.

Lemma setNth_swap_Permutation rest : forall k v x0,
  nth_error rest k = Some v ->
  Permutation (v :: IdentityService.setNth rest k x0) (x0 :: rest).
Proof.
  induction rest as [|y rest IH]; intros k v x0 H; [destruct k; discriminate|].
  destruct k as [|k]; simpl in *.
  - injection H as ->. apply perm_swap.
  - specialize (IH k v x0 H).
    transitivity (y :: v :: IdentityService.setNth rest k x0);
      [apply perm_swap|].
    transitivity (y :: x0 :: rest); [now constructor|apply perm_swap].
Qed.

(** X18.  The guard that follows the collection, taken by itself: for a
    non-empty value that occurs in the array, the result has the value at
    index 0 and is a rearrangement of the array; for a value that is
    missing or empty the array is returned as it is.  On the arrays
    [buildResponse] collects the guard changes nothing, the primary's value
    being first already. *)
Theorem ensureFirst_brings_value_to_front :
  (forall v arr,
      v <> EmptyString -> In v arr ->
      hd_error (IdentityService.ensureFirst (Some v) arr) = Some v
      /\ Permutation (IdentityService.ensureFirst (Some v) arr) arr)
  /\ (forall field arr,
         truthy field = false -> IdentityService.ensureFirst field arr = arr)
  /\ (forall (field : Contact -> option string) primary secondaries,
         IdentityService.ensureFirst
           (field primary) (IdentityService.collect field primary secondaries)
         = IdentityService.collect field primary secondaries).
Proof.
  split; [|split].
  - intros v arr N Hin. unfold IdentityService.ensureFirst.
    assert (truthy (Some v) = true) as -> by now apply truthy_Some.
    destruct arr as [|x0 rest]; [destruct Hin|]. cbn [andb].
    destruct (String.eqb x0 v) eqn:E; cbn [negb].
    + apply String.eqb_eq in E. subst. split; [reflexivity|apply Permutation_refl].
    + destruct Hin as [->|Hin]; [rewrite String.eqb_refl in E; discriminate|].
      destruct (indexOf_In rest v Hin) as (k & Ik & Nk).
      cbn [IdentityService.indexOf]. rewrite E, Ik. cbn [option_map].
      unfold IdentityService.swapFirst. cbn [nth_error]. rewrite Nk.
      cbn [IdentityService.setNth]. split; [reflexivity|].
      now apply setNth_swap_Permutation.
  - intros field arr T. unfold IdentityService.ensureFirst.
    destruct field as [v|]; [|reflexivity]. now rewrite T.
  - intros field primary secondaries. apply ensureFirst_id.
Qed.

Lemma ensureFirst_brings_value_to_front_witness :
  hd_error (IdentityService.ensureFirst (Some "b") ["a"; "b"; "c"])%string
  = Some "b"%string.
Proof.
  destruct ensureFirst_brings_value_to_front as (Front & _).
  apply (Front "b" ["a"; "b"; "c"])%string; [discriminate|].
  right. left. reflexivity.
Defined.

(* ------------------------------------------------------------------------- *)
(** ** The handler of [POST /identify] *)


(* ------------------------------------------------------------------------- *)
(** ** The levels of the logger *)

Ltac by_comparisons :=
  repeat match goal with
         | |- context [(?a <=? ?b)] => destruct (Z.leb_spec a b)
         | |- context [(?a <? ?b)] => destruct (Z.ltb_spec a b)
         end;
  cbn [andb orb negb]; try reflexivity; exfalso; lia.

(** X20.  [enableLevel] only adds: after it a level is written when it was
    written before or is at most the level enabled, so enabling a level
    enables every level below it as well, and never silences one. *)
Theorem enableLevel_shouldLog lg l l' :
  Logger.shouldLog (Logger.enableLevel lg l) l'
  = Logger.shouldLog lg l'
    || (Logger.levelValue l' <=? Logger.levelValue l).
Proof.
  unfold Logger.shouldLog, Logger.enableLevel.
  destruct (Z.ltb_spec (Logger.level (Logger.config lg)) (Logger.levelValue l));
    cbn [Logger.withLevel Logger.config Logger.level]; by_comparisons.
Qed.

(** X21.  [disableLevel] only removes, and removes more than the level it
    names: after it a level is written when it was written before and is
    strictly below the level disabled, so every level above the one
    disabled is silenced with it; [disableLevel(ERROR)] stores -1, no member
    of the enum, and nothing is written after it. *)
Theorem disableLevel_shouldLog lg l l' :
  Logger.shouldLog (Logger.disableLevel lg l) l'
  = Logger.shouldLog lg l'
    && (Logger.levelValue l' <? Logger.levelValue l)
  /\ Logger.shouldLog (Logger.disableLevel lg Logger.ERROR) l' = false.
Proof.
  assert (forall k,
             Logger.shouldLog (Logger.disableLevel lg k) l'
             = Logger.shouldLog lg l'
               && (Logger.levelValue l' <? Logger.levelValue k)) as D.
  { intros k. unfold Logger.shouldLog, Logger.disableLevel.
    rewrite Z.geb_leb.
    destruct (Z.leb_spec (Logger.levelValue k)
                         (Logger.level (Logger.config lg)));
      cbn [Logger.withLevel Logger.config Logger.level]; by_comparisons. }
  split; [apply D|]. rewrite D.
  destruct l'; cbn [Logger.levelValue]; apply andb_false_r.
Qed.

(** X22.  The two are no inverses of each other.  Enabling a level after
    disabling it leaves the threshold at that level, whatever it was
    before, as [setLevel] does; disabling it after enabling it leaves the
    threshold one below.  On a logger at DEBUG, disabling and then enabling
    WARN therefore loses INFO and DEBUG. *)
Theorem enableLevel_after_disableLevel lg l :
  Logger.enableLevel (Logger.disableLevel lg l) l = Logger.setLevel lg l
  /\ Logger.disableLevel (Logger.enableLevel lg l) l
     = Logger.withLevel lg (Logger.levelValue l - 1).
Proof.
  unfold Logger.enableLevel, Logger.disableLevel, Logger.setLevel.
  rewrite Z.geb_leb. split.
  - destruct (Z.leb_spec (Logger.levelValue l)
                         (Logger.level (Logger.config lg))) as [H|H].
    + cbn [Logger.withLevel Logger.config Logger.level].
      destruct (Z.ltb_spec (Logger.levelValue l - 1) (Logger.levelValue l));
        [reflexivity|exfalso; lia].
    + destruct (Z.ltb_spec (Logger.level (Logger.config lg))
                           (Logger.levelValue l));
        [reflexivity|exfalso; lia].
  - destruct (Z.ltb_spec (Logger.level (Logger.config lg))
                         (Logger.levelValue l)) as [H|H].
    + cbn [Logger.withLevel Logger.config Logger.level].
      rewrite Z.geb_leb.
      destruct (Z.leb_spec (Logger.levelValue l) (Logger.levelValue l));
        [reflexivity|exfalso; lia].
    + rewrite Z.geb_leb.
      destruct (Z.leb_spec (Logger.levelValue l)
                           (Logger.level (Logger.config lg)));
        [reflexivity|exfalso; lia].
Qed.

Section DefaultLogger.

Variable Metadata : Type.
Variable formatMessage
  : Logger.Logger -> string -> string -> option Metadata -> string.

(** X23.  The logger as constructed, whatever the environment: [error]
    writes one line with [console.error], [warn] one with [console.warn],
    [info] one with [console.log]; [debug] writes one line with
    [console.log] unless [NODE_ENV] is [production], where it writes none;
    [verbose] writes nothing. *)
Theorem default_logger_routing nodeEnv serviceName message metadata :
  let lg := Logger.create nodeEnv serviceName in
  Logger.error Metadata formatMessage lg message metadata
  = [Logger.ConsoleError (formatMessage lg "ERROR" message metadata)]
  /\ Logger.warn Metadata formatMessage lg message metadata
     = [Logger.ConsoleWarn (formatMessage lg "WARN" message metadata)]
  /\ Logger.info Metadata formatMessage lg message metadata
     = [Logger.ConsoleLog (formatMessage lg "INFO" message metadata)]
  /\ Logger.debug Metadata formatMessage lg message metadata
     = (if strictEq nodeEnv (Some "production"%string)
        then []
        else [Logger.ConsoleLog (formatMessage lg "DEBUG" message metadata)])
  /\ Logger.verbose Metadata formatMessage lg message metadata = [].
Proof.
  unfold Logger.create, Logger.error, Logger.warn, Logger.info, Logger.debug,
    Logger.verbose, Logger.log, Logger.shouldLog, Logger.getDefaultConfig.
  destruct (strictEq nodeEnv (Some "production"%string));
    cbn; repeat split; reflexivity.
Qed.

End DefaultLogger.

(* ------------------------------------------------------------------------- *)
(** ** Clients of the pool *)

Section PoolClients.

Variable QueryResult : Type.

(** X24.  [query] gives back the client it took: whether [connect] and the
    statement resolve or reject, the number of clients checked out is after
    the call what it was before, and the call resolves with the statement's
    result exactly when both resolved. *)
Theorem query_gives_client_back accepts
    (answer : DatabaseConnection.Attempt QueryResult) p :
  DatabaseConnection.checkedOut
    (fst (DatabaseConnection.query QueryResult accepts answer p))
  = DatabaseConnection.checkedOut p
  /\ snd (DatabaseConnection.query QueryResult accepts answer p)
     = (if accepts then answer else DatabaseConnection.Rejected).
Proof.
  unfold DatabaseConnection.query, DatabaseConnection.getClient,
    DatabaseConnection.connect, DatabaseConnection.release.
  destruct accepts, answer; cbn; auto.
Qed.

(** X25.  [testConnection], and [isConnected] which calls it, answers
    [true] exactly when [connect] and the statement both resolve.  When the
    statement rejects, the client it took is not given back: one more client
    is checked out after the call than before.  In every other case the
    number is unchanged. *)
Theorem testConnection_keeps_client_of_failed_query accepts
    (answer : DatabaseConnection.Attempt QueryResult) p :
  DatabaseConnection.isConnected QueryResult accepts answer p
  = DatabaseConnection.testConnection QueryResult accepts answer p
  /\ snd (DatabaseConnection.testConnection QueryResult accepts answer p)
     = match accepts, answer with
       | true, DatabaseConnection.Resolved _ => true
       | _, _ => false
       end
  /\ DatabaseConnection.checkedOut
       (fst (DatabaseConnection.testConnection QueryResult accepts answer p))
     = match accepts, answer with
       | true, DatabaseConnection.Rejected =>
           S (DatabaseConnection.checkedOut p)
       | _, _ => DatabaseConnection.checkedOut p
       end.
Proof.
  unfold DatabaseConnection.isConnected, DatabaseConnection.testConnection,
    DatabaseConnection.getClient, DatabaseConnection.connect,
    DatabaseConnection.release.
  destruct accepts, answer; cbn; auto.
Qed.

End PoolClients.

Section OneInstance.

Variables DatabaseConfig Instance : Type.
Variable construct : DatabaseConfig -> Instance.

Lemma getInstances_held configs : forall i,
  DatabaseConnection.getInstances DatabaseConfig Instance construct
    configs (Some i)
  = (Some i, map (fun _ => DatabaseConnection.Resolved i) configs).
Proof.
  induction configs as [|c configs IH]; intros i; [reflexivity|].
  cbn [DatabaseConnection.getInstances DatabaseConnection.getInstance map].
  now rewrite IH.
Qed.

(** X26.  [getInstance] keeps one instance.  Before any call with a config
    every call without one throws and leaves the field empty; the first call
    with a config constructs the instance from that config; from then on
    every call, with any config or none, returns that same instance and
    constructs nothing. *)
Theorem getInstance_keeps_first_instance without c configs :
  Forall (fun x => x = None) without ->
  DatabaseConnection.getInstances DatabaseConfig Instance construct
    (without ++ Some c :: configs) None
  = (Some (construct c),
     map (fun _ => DatabaseConnection.Rejected) without
     ++ map (fun _ => DatabaseConnection.Resolved (construct c))
            (Some c :: configs)).
Proof.
  induction 1 as [|x without -> _ IH].
  - cbn [app map DatabaseConnection.getInstances DatabaseConnection.getInstance].
    now rewrite getInstances_held.
  - cbn [app map DatabaseConnection.getInstances DatabaseConnection.getInstance].
    now rewrite IH.
Qed.

End OneInstance.

Lemma getInstance_keeps_first_instance_witness :
  DatabaseConnection.getInstances nat nat S [None; Some 4; Some 7; None]%nat None
  = (Some 5%nat,
     [DatabaseConnection.Rejected; DatabaseConnection.Resolved 5%nat;
      DatabaseConnection.Resolved 5%nat; DatabaseConnection.Resolved 5%nat]).
Proof.
  apply (getInstance_keeps_first_instance nat nat S [None] 4%nat [Some 7%nat; None]).
  repeat constructor.
Defined.
